(** * virtualization-apis: seed-yaml interpreter, mock-server templating,
      bulk-payload normalisation and parties reset, embedded in Rocq.

    The TypeScript sources are embedded shallowly: every modelled function
    keeps the name it has in the repository and is written as an executable
    Rocq function.  JavaScript values are an inductive type, exceptions are
    a [result] monad, subprocess and HTTP effects are explicit traces. *)

From Stdlib Require Import ZArith Ascii String Decimal DecimalString.
From stdpp Require Import base decidable option list strings sorting gmap.

Local Open Scope Z_scope.
Set Warnings "-register-all".

(** stdpp freezes string concatenation under [simpl]; the developments below
    compute with it. *)
#[global] Arguments String.append !_ _ / : simpl nomatch.


(** ** Reading quoted SQL tokens

    A reference lexer for PostgreSQL's quoted tokens (string constants
    in single quotes, delimited identifiers in double quotes, standard
    conforming strings): inside the token a doubled quote character denotes
    one quote character and a single one ends the token. *)

Module Sql.

(** Reads the body of a token after its opening quote [q]; returns the
    denoted text and the input that follows the closing quote. *)
Fixpoint read_quoted (q : ascii) (s : string) : option (string * string) :=
  match s with
  | EmptyString => None
  | String c rest =>
      if Ascii.eqb c q then
        match rest with
        | String c' rest' =>
            if Ascii.eqb c' q then
              match read_quoted q rest' with
              | Some (body, tail) => Some (String q body, tail)
              | None => None
              end
            else Some (EmptyString, rest)
        | EmptyString => Some (EmptyString, EmptyString)
        end
      else
        match read_quoted q rest with
        | Some (body, tail) => Some (String c body, tail)
        | None => None
        end
  end.

Definition read_token (q : ascii) (s : string) : option (string * string) :=
  match s with
  | String c rest => if Ascii.eqb c q then read_quoted q rest else None
  | EmptyString => None
  end.

(** [occurs c s]: the character [c] appears in [s]. *)
Fixpoint occurs (c : ascii) (s : string) : bool :=
  match s with
  | EmptyString => false
  | String x rest => Ascii.eqb x c || occurs c rest
  end.

Definition starts_with (c : ascii) (s : string) : bool :=
  match s with
  | String x _ => Ascii.eqb x c
  | EmptyString => false
  end.

(** Runs over a fragment of SQL text, tracking whether the position is
    inside a string constant; the fragment has no unescaped single quote
    when every constant it opens is closed by its end. *)
Fixpoint quotes_closed_from (inside : bool) (s : string) : bool :=
  match s with
  | EmptyString => negb inside
  | String c rest =>
      if Ascii.eqb c "'" then
        if inside then
          match rest with
          | String c' rest' =>
              if Ascii.eqb c' "'" then quotes_closed_from true rest'
              else quotes_closed_from false rest
          | EmptyString => true
          end
        else quotes_closed_from true rest
      else quotes_closed_from inside rest
  end.

Definition no_unescaped_quote (s : string) : bool := quotes_closed_from false s.

End Sql.
(** ** JavaScript runtime values *)

Module Js.

(** Thrown exceptions, by constructor.  [Untyped] is not a JavaScript
    exception: it ends a run whose input does not have the type that the
    source declares for it, where the embedding stops. *)
Inductive error :=
| Error (msg : string)
| TypeError (msg : string)
| RangeError (msg : string)
| SyntaxError (msg : string)
| Untyped (what : string).

Inductive result (A : Type) :=
| Ok (a : A)
| Throw (e : error).
Arguments Ok {A} a.
Arguments Throw {A} e.

Definition bind {A B} (m : result A) (k : A -> result B) : result B :=
  match m with
  | Ok a => k a
  | Throw e => Throw e
  end.

Notation "'do' x <- m ; k" := (bind m (fun x => k))
  (at level 10, x name, m at level 100, k at level 200).

(** [xs.map(f)] for a callback that may throw: elements are visited in
    order and the first exception aborts the traversal. *)
Definition mapM {A B} (f : A -> result B) : list A -> result (list B) :=
  fix go (xs : list A) : result (list B) :=
    match xs with
    | [] => Ok []
    | x :: rest =>
        match f x with
        | Ok y => match go rest with
                  | Ok ys => Ok (y :: ys)
                  | Throw e => Throw e
                  end
        | Throw e => Throw e
        end
    end.

#[global] Arguments mapM : simpl never.

(** The double-quote character and the one-character string holding it. *)
Definition dquote : ascii := "034"%char.
Definition dq : string := String dquote "".

(** [Array.prototype.join]. *)
Definition join (sep : string) (parts : list string) : string :=
  String.concat sep parts.

(** A JavaScript Number.  A finite non-zero double is identified by the
    triple of ECMA-262 [Number::toString]: its sign, the digits [s] of its
    shortest round-trip decimal and the exponent [n], the value being
    [s * 10^(n - k)] for [k] the number of digits of [s]. *)
Inductive number :=
| NaN
| Infinity (negative : bool)
| Zero (negative : bool)
| Finite (negative : bool) (s : Decimal.uint) (n : Z).

Definition Number_isFinite (x : number) : bool :=
  match x with
  | NaN | Infinity _ => false
  | Zero _ | Finite _ _ _ => true
  end.

Fixpoint zeros (n : nat) : string :=
  match n with
  | O => ""
  | S m => String "0" (zeros m)
  end.

Definition Z_toString (z : Z) : string := NilZero.string_of_int (Z.to_int z).

(** ECMA-262 [Number::toString] (radix 10). *)
Definition Number_toString (x : number) : string :=
  match x with
  | NaN => "NaN"
  | Infinity neg => (if neg then "-" else "") +:+ "Infinity"
  | Zero _ => "0"
  | Finite neg s n =>
      let ds := NilZero.string_of_uint s in
      let k := Z.of_nat (String.length ds) in
      let e := n - 1 in
      let exponent := (if e <? 0 then "-" else "+") +:+ Z_toString (Z.abs e) in
      let body :=
        if (k <=? n) && (n <=? 21) then ds +:+ zeros (Z.to_nat (n - k))
        else if (0 <? n) && (n <=? 21) then
          substring 0 (Z.to_nat n) ds +:+ "." +:+
          substring (Z.to_nat n) (Z.to_nat (k - n)) ds
        else if (-6 <? n) && (n <=? 0) then
          "0." +:+ zeros (Z.to_nat (- n)) +:+ ds
        else if k =? 1 then ds +:+ "e" +:+ exponent
        else substring 0 1 ds +:+ "." +:+ substring 1 (Z.to_nat (k - 1)) ds
             +:+ "e" +:+ exponent in
      (if neg then "-" else "") +:+ body
  end.

(** The Number whose value is a natural number (array and string
    [length]): trailing zeros of the decimal move into the exponent. *)
Definition Number_of_nat (i : nat) : number :=
  match i with
  | O => Zero false
  | _ =>
      let d := Nat.to_uint i in
      Finite false (Decimal.rev (Decimal.nzhead (Decimal.rev d)))
             (Z.of_nat (Decimal.nb_digits d))
  end.

(** A Date object, modelled by the two renderings the programs observe:
    [toISOString()] (absent for an invalid date, where the method throws a
    RangeError) and [toString()]. *)
Record date := Date {
  date_toISOString : option string;
  date_toString : string
}.

Inductive value :=
| VUndefined
| VNull
| VBool (b : bool)
| VNumber (x : number)
| VBigInt (z : Z)
| VString (s : string)
| VDate (d : date)
| VArray (items : list value)
| VObject (props : list (string * value)).

(** Objects list their own enumerable string-keyed properties in
    [Object.keys] order. *)
Definition object := list (string * value).

Definition Object_keys (o : object) : list string := map fst o.

Fixpoint lookup_prop (o : object) (key : string) : option value :=
  match o with
  | [] => None
  | (k, v) :: rest => if String.eqb k key then Some v else lookup_prop rest key
  end.

(** [o[key]] on a plain object. *)
Definition get_prop (o : object) (key : string) : value :=
  match lookup_prop o key with
  | Some v => v
  | None => VUndefined
  end.

Definition nat_toString (i : nat) : string := NilZero.string_of_uint (Nat.to_uint i).

(** The element whose property name is the canonical rendering of its index. *)
Fixpoint index_get {A} (items : list A) (i : nat) (key : string) : option A :=
  match items with
  | [] => None
  | x :: rest => if String.eqb (nat_toString i) key then Some x
                 else index_get rest (S i) key
  end.

Definition chars (s : string) : list string :=
  map (fun c => String c "") (list_ascii_of_string s).

(** [v[key]] restricted to own properties ([length] and indices of arrays
    and strings included); members inherited from prototypes are outside
    the model and read as [undefined].  Reading a property of [null] or
    [undefined] is a TypeError, which callers guard against. *)
Definition get (v : value) (key : string) : value :=
  match v with
  | VObject o => get_prop o key
  | VArray items =>
      if String.eqb key "length" then VNumber (Number_of_nat (length items))
      else default VUndefined (index_get items 0 key)
  | VString s =>
      if String.eqb key "length" then VNumber (Number_of_nat (String.length s))
      else default VUndefined (VString <$> index_get (chars s) 0 key)
  | _ => VUndefined
  end.

(** [typeof v]. *)
Definition typeof (v : value) : string :=
  match v with
  | VUndefined => "undefined"
  | VNull => "object"
  | VBool _ => "boolean"
  | VNumber _ => "number"
  | VBigInt _ => "bigint"
  | VString _ => "string"
  | VDate _ | VArray _ | VObject _ => "object"
  end.

(** [ToBoolean]. *)
Definition truthy (v : value) : bool :=
  match v with
  | VUndefined | VNull => false
  | VBool b => b
  | VNumber NaN | VNumber (Zero _) => false
  | VNumber _ => true
  | VBigInt z => negb (z =? 0)
  | VString s => negb (String.eqb s "")
  | VDate _ | VArray _ | VObject _ => true
  end.

(** [v && typeof v === 'object'] *)
Definition is_object (v : value) : bool :=
  match v with
  | VDate _ | VArray _ | VObject _ => true
  | _ => false
  end.

(** [Object.entries(v)] for an object value. *)
Definition Object_entries (v : value) : object :=
  match v with
  | VObject o => o
  | VArray items => imap (fun i x => (nat_toString i, x)) items
  | VString s => imap (fun i c => (nat_toString i, VString c)) (chars s)
  | _ => []
  end.

(** [String(v)]: [ToString], with [Array.prototype.toString] joining the
    elements by commas and rendering [null] and [undefined] elements as
    empty. *)
Fixpoint String_ (v : value) : string :=
  match v with
  | VUndefined => "undefined"
  | VNull => "null"
  | VBool b => if b then "true" else "false"
  | VNumber x => Number_toString x
  | VBigInt z => Z_toString z
  | VString s => s
  | VDate d => date_toString d
  | VArray items =>
      join "," (map (fun item =>
                       match item with
                       | VUndefined | VNull => ""
                       | _ => String_ item
                       end) items)
  | VObject _ => "[object Object]"
  end.

(** ECMA-262 [QuoteJSONString] on byte strings: the quote, the backslash
    and control characters are escaped. *)
Definition hex_digit (n : N) : ascii :=
  match n with
  | 0%N => "0" | 1%N => "1" | 2%N => "2" | 3%N => "3" | 4%N => "4"
  | 5%N => "5" | 6%N => "6" | 7%N => "7" | 8%N => "8" | 9%N => "9"
  | 10%N => "a" | 11%N => "b" | 12%N => "c" | 13%N => "d" | 14%N => "e"
  | _ => "f"
  end%char.

Definition json_escape_char (c : ascii) : string :=
  let n := N_of_ascii c in
  if Ascii.eqb c dquote then String "\" dq
  else if Ascii.eqb c "\" then "\\"
  else if (n =? 8)%N then "\b"
  else if (n =? 9)%N then "\t"
  else if (n =? 10)%N then "\n"
  else if (n =? 12)%N then "\f"
  else if (n =? 13)%N then "\r"
  else if (n <? 32)%N then
    "\u00" +:+ String (hex_digit (n / 16)) (String (hex_digit (n mod 16)) "")
  else String c "".

Fixpoint json_escape (s : string) : string :=
  match s with
  | EmptyString => ""
  | String c rest => json_escape_char c +:+ json_escape rest
  end.

Definition QuoteJSONString (s : string) : string := dq +:+ json_escape s +:+ dq.

(** [JSON.stringify(v)]: [None] is the [undefined] result; a BigInt anywhere
    in the value is a TypeError; members whose value serialises to
    [undefined] are omitted from objects and written [null] in arrays; a
    Date serialises through [toJSON]. *)
Fixpoint JSON_stringify (v : value) : result (option string) :=
  match v with
  | VUndefined => Ok None
  | VNull => Ok (Some "null")
  | VBool b => Ok (Some (if b then "true" else "false"))
  | VNumber x => Ok (Some (if Number_isFinite x then Number_toString x else "null"))
  | VBigInt _ => Throw (TypeError "Do not know how to serialize a BigInt")
  | VString s => Ok (Some (QuoteJSONString s))
  | VDate d =>
      Ok (Some (match date_toISOString d with
                | Some iso => QuoteJSONString iso
                | None => "null"
                end))
  | VArray items =>
      do parts <- mapM (fun item =>
                          do s <- JSON_stringify item;
                          Ok (default "null" s)) items;
      Ok (Some ("[" +:+ join "," parts +:+ "]"))
  | VObject props =>
      do parts <- mapM (fun kv =>
                          let '(k, item) := kv in
                          do s <- JSON_stringify item;
                          Ok ((fun str => QuoteJSONString k +:+ ":" +:+ str) <$> s))
                       props;
      Ok (Some ("{" +:+ join "," (omap id parts) +:+ "}"))
  end.

(** [s.replace(/c/g, by)] for a one-character pattern. *)
Fixpoint replace_char (c : ascii) (by_ : string) (s : string) : string :=
  match s with
  | EmptyString => ""
  | String x rest =>
      if Ascii.eqb x c then by_ +:+ replace_char c by_ rest
      else String x (replace_char c by_ rest)
  end.

(** *** Regular expressions

    The patterns of the programs are embedded as matchers at a position:
    a matcher takes the input from the position on and returns the captured
    group with the input that follows the match.  In each pattern a
    quantified class is followed by a character outside the class, so the
    backtracking matcher of JavaScript succeeds exactly when the greedy
    left-to-right one does, with the same capture.  Strings are byte
    strings: the class [\s] is its ASCII part. *)

Definition is_space (c : ascii) : bool :=
  let n := N_of_ascii c in
  ((9 <=? n) && (n <=? 13))%N || (n =? 32)%N.

Fixpoint strip_prefix (p s : string) : option string :=
  match p with
  | EmptyString => Some s
  | String x p' =>
      match s with
      | String y s' => if Ascii.eqb x y then strip_prefix p' s' else None
      | EmptyString => None
      end
  end.

(** Longest prefix of characters of a class, and the rest: [c*], greedy. *)
Fixpoint span (cls : ascii -> bool) (s : string) : string * string :=
  match s with
  | EmptyString => (EmptyString, EmptyString)
  | String c rest =>
      if cls c then let '(run, tail) := span cls rest in (String c run, tail)
      else (EmptyString, s)
  end.

Definition skip_spaces (s : string) : string := snd (span is_space s).

(** Every character of [s] is in the class. *)
Fixpoint all_of (cls : ascii -> bool) (s : string) : bool :=
  match s with
  | EmptyString => true
  | String c rest => cls c && all_of cls rest
  end.

(** The first character of [s], if any, is outside the class. *)
Definition stops (cls : ascii -> bool) (s : string) : bool :=
  match s with
  | EmptyString => true
  | String c _ => negb (cls c)
  end.

(** [s.replace(re, f)] for a global pattern whose matches are not empty:
    the input is scanned left to right; at a match the callback's result is
    written and the scan goes on after the match, otherwise one character
    is copied.  The fuel is the number of positions to visit. *)
Fixpoint replace_from (at_ : string -> option (string * string))
    (f : string -> string) (fuel : nat) (s : string) : string :=
  match fuel with
  | O => s
  | S fuel' =>
      match at_ s with
      | Some (group, rest) => f group +:+ replace_from at_ f fuel' rest
      | None =>
          match s with
          | EmptyString => EmptyString
          | String c rest => String c (replace_from at_ f fuel' rest)
          end
      end
  end.

#[global] Arguments replace_from : simpl never.

Definition String_replace (at_ : string -> option (string * string))
    (f : string -> string) (s : string) : string :=
  replace_from at_ f (S (String.length s)) s.

(** [s.trim()], on ASCII white space. *)
Fixpoint trim_end (s : string) : string :=
  match s with
  | EmptyString => EmptyString
  | String c rest =>
      match trim_end rest with
      | EmptyString => if is_space c then EmptyString else String c EmptyString
      | kept => String c kept
      end
  end.

Definition trim (s : string) : string := trim_end (skip_spaces s).

Definition is_digit (c : ascii) : bool :=
  let n := N_of_ascii c in ((48 <=? n) && (n <=? 57))%N.

(** [/^-?\d+$/.test(s)] *)
Definition is_integer_text (s : string) : bool :=
  let digits := match s with
                | String "-" rest => rest
                | _ => s
                end in
  all_of is_digit digits && negb (String.eqb digits "").

Fixpoint digits_value (acc : Z) (s : string) : Z :=
  match s with
  | EmptyString => acc
  | String c rest => digits_value (10 * acc + (Z.of_N (N_of_ascii c) - 48)) rest
  end.

(** [BigInt(s)] on text accepted by [is_integer_text]. *)
Definition BigInt_of_text (s : string) : Z :=
  match s with
  | String "-" rest => - digits_value 0 rest
  | _ => digits_value 0 s
  end.

Definition toLowerCase_char (c : ascii) : ascii :=
  let n := N_of_ascii c in
  if ((65 <=? n) && (n <=? 90))%N then ascii_of_N (n + 32) else c.

(** [s.toLowerCase()], on ASCII letters. *)
Fixpoint toLowerCase (s : string) : string :=
  match s with
  | EmptyString => EmptyString
  | String c rest => String (toLowerCase_char c) (toLowerCase rest)
  end.

(** [a ?? b] on optional values. *)
Definition orElse {A} (a b : option A) : option A :=
  match a with
  | Some x => Some x
  | None => b
  end.
Infix "??" := orElse (at level 60, right associativity).

(** [o[key] = item]: an own property keeps its place, a new one is added
    last. *)
Fixpoint set_prop (o : object) (key : string) (item : value) : object :=
  match o with
  | [] => [(key, item)]
  | (k, v) :: rest =>
      if String.eqb k key then (k, item) :: rest
      else (k, v) :: set_prop rest key item
  end.

(** [delete o[key]] *)
Definition delete_prop (o : object) (key : string) : object :=
  List.filter (fun entry => negb (String.eqb (fst entry) key)) o.

(** The characters a rendered number is made of. *)
Definition is_number_char (c : ascii) : bool :=
  is_digit c || Sql.occurs c ".e+-NaInfinity".

(** [s.split(sep)] for a one-character separator. *)
Fixpoint split (sep : ascii) (s : string) : list string :=
  match s with
  | EmptyString => [EmptyString]
  | String c rest =>
      if Ascii.eqb c sep then EmptyString :: split sep rest
      else match split sep rest with
           | part :: parts => String c part :: parts
           | [] => [String c EmptyString]
           end
  end.

End Js.

(** ** The Postgres seed-yaml subsystem (commands/postgres.ts) *)

Module PgSeed.
Import Js.

Definition quoteIdentifier (value : string) : string :=
  dq +:+ replace_char dquote (dq +:+ dq) value +:+ dq.

(** The single-key [{sql: "..."}] object whose text is spliced verbatim. *)
Definition is_raw_sql (v : value) : bool :=
  is_object v
  && Nat.eqb (length (Object_keys (Object_entries v))) 1
  && String.eqb (typeof (get v "sql")) "string".

Definition quote_literal (s : string) : string :=
  "'" +:+ replace_char "'" "''" s +:+ "'".

Definition toSqlValue (v : value) : result string :=
  match v with
  | VNull | VUndefined => Ok "NULL"
  | VNumber x =>
      if negb (Number_isFinite x)
      then Throw (Error "Invalid number value in seed YAML.")
      else Ok (String_ v)
  | VBigInt z => Ok (Z_toString z)
  | VBool b => Ok (if b then "TRUE" else "FALSE")
  | VDate d =>
      match date_toISOString d with
      | Some iso => Ok (quote_literal iso)
      | None => Throw (RangeError "Invalid time value")
      end
  | VArray _ | VObject _ =>
      if is_raw_sql v then Ok (String_ (get v "sql"))
      else
        do json <- JSON_stringify v;
        match json with
        | Some json => Ok (quote_literal json +:+ "::jsonb")
        | None => Throw (TypeError "Cannot read properties of undefined (reading 'replace')")
        end
  | VString s => Ok (quote_literal s)
  end.

(** [upsertBy.includes(col)] *)
Definition includes (xs : list string) (x : string) : bool :=
  existsb (String.eqb x) xs.

Definition buildInsertSql (table : string) (row : object)
    (upsertBy : option (list string)) : result string :=
  let columns := Object_keys row in
  if Nat.eqb (length columns) 0 then
    Throw (Error ("Seed row for table " +:+ dq +:+ table +:+ dq +:+ " has no columns."))
  else
    let columnSql := join ", " (map quoteIdentifier columns) in
    do values <- mapM (fun col => toSqlValue (get_prop row col)) columns;
    let valuesSql := join ", " values in
    let sql := "INSERT INTO " +:+ quoteIdentifier table +:+ " (" +:+ columnSql
               +:+ ") VALUES (" +:+ valuesSql +:+ ")" in
    match upsertBy with
    | None => Ok (sql +:+ ";")
    | Some upsertBy =>
        if Nat.eqb (length upsertBy) 0 then Ok (sql +:+ ";")
        else
          let conflictCols := join ", " (map quoteIdentifier upsertBy) in
          let updateCols := List.filter (fun col => negb (includes upsertBy col)) columns in
          if Nat.eqb (length updateCols) 0 then
            Ok (sql +:+ " ON CONFLICT (" +:+ conflictCols +:+ ") DO NOTHING;")
          else
            let updateSql :=
              join ", " (map (fun col => quoteIdentifier col +:+ " = EXCLUDED."
                                         +:+ quoteIdentifier col) updateCols) in
            Ok (sql +:+ " ON CONFLICT (" +:+ conflictCols +:+ ") DO UPDATE SET "
                +:+ updateSql +:+ ";")
    end.

Definition buildWhereSql (table : string) (where_ : object) : result string :=
  let entries := where_ in
  if Nat.eqb (length entries) 0 then
    Throw (Error ("Operation on table " +:+ dq +:+ table +:+ dq
                  +:+ " requires a non-empty " +:+ dq +:+ "where" +:+ dq +:+ " clause."))
  else
    do predicates <- mapM (fun entry : string * value =>
                             let '(field, value) := entry in
                             match value with
                             | VNull => Ok (quoteIdentifier field +:+ " IS NULL")
                             | _ => do rendered <- toSqlValue value;
                                    Ok (quoteIdentifier field +:+ " = " +:+ rendered)
                             end) entries;
    Ok (join " AND " predicates).

Definition buildUpdateSql (table : string) (set where_ : object) : result string :=
  let setEntries := set in
  if Nat.eqb (length setEntries) 0 then
    Throw (Error ("Update operation for " +:+ dq +:+ table +:+ dq
                  +:+ " requires a non-empty " +:+ dq +:+ "set" +:+ dq +:+ " object."))
  else
    do assignments <- mapM (fun entry : string * value =>
                              let '(col, value) := entry in
                              do rendered <- toSqlValue value;
                              Ok (quoteIdentifier col +:+ " = " +:+ rendered))
                           setEntries;
    let setSql := join ", " assignments in
    do whereSql <- buildWhereSql table where_;
    Ok ("UPDATE " +:+ quoteIdentifier table +:+ " SET " +:+ setSql
        +:+ " WHERE " +:+ whereSql +:+ ";").

Definition buildDeleteSql (table : string) (where_ : object) : result string :=
  do whereSql <- buildWhereSql table where_;
  Ok ("DELETE FROM " +:+ quoteIdentifier table +:+ " WHERE " +:+ whereSql +:+ ";").

(** *** Variable interpolation *)

Definition resolveVarByPath (variables : object) (keyPath : string) : value :=
  fold_left (fun acc key =>
               if negb (truthy acc) || negb (String.eqb (typeof acc) "object")
               then VUndefined
               else get acc key)
            (split "." keyPath) (VObject variables).

(** The class [[a-zA-Z0-9_.-]]. *)
Definition is_token_char (c : ascii) : bool :=
  let n := N_of_ascii c in
  ((97 <=? n) && (n <=? 122))%N || ((65 <=? n) && (n <=? 90))%N
  || ((48 <=? n) && (n <=? 57))%N
  || Ascii.eqb c "_" || Ascii.eqb c "." || Ascii.eqb c "-".

(** [{{\s*vars\.([a-zA-Z0-9_.-]+)\s*}}] at a position. *)
Definition handlebars_at (s : string) : option (string * string) :=
  match strip_prefix "{{" s with
  | None => None
  | Some s1 =>
      match strip_prefix "vars." (skip_spaces s1) with
      | None => None
      | Some s2 =>
          let '(token, s3) := span is_token_char s2 in
          if String.eqb token "" then None
          else match strip_prefix "}}" (skip_spaces s3) with
               | None => None
               | Some rest => Some (token, rest)
               end
      end
  end.

(** [\$\{([a-zA-Z0-9_.-]+)\}] at a position. *)
Definition legacy_at (s : string) : option (string * string) :=
  match strip_prefix "${" s with
  | None => None
  | Some s1 =>
      let '(token, s2) := span is_token_char s1 in
      if String.eqb token "" then None
      else match strip_prefix "}" s2 with
           | None => None
           | Some rest => Some (token, rest)
           end
  end.

(** [value.match(/^...$/)]: the pattern has to cover the whole string. *)
Definition exact_match (at_ : string -> option (string * string)) (s : string)
    : option string :=
  match at_ s with
  | Some (token, EmptyString) => Some token
  | _ => None
  end.

Definition resolved_or_empty (resolved : value) : value :=
  match resolved with
  | VUndefined => VString ""
  | _ => resolved
  end.

Definition render_var (variables : object) (token : string) : string :=
  match resolveVarByPath variables token with
  | VUndefined => ""
  | resolved => String_ resolved
  end.

Fixpoint applySeedVariables (val : value) (variables : object) : value :=
  match val with
  | VString s =>
      match exact_match handlebars_at s with
      | Some token => resolved_or_empty (resolveVarByPath variables token)
      | None =>
          match exact_match legacy_at s with
          | Some token => resolved_or_empty (resolveVarByPath variables token)
          | None =>
              VString (String_replace legacy_at (render_var variables)
                         (String_replace handlebars_at (render_var variables) s))
          end
      end
  | VArray items => VArray (map (fun item => applySeedVariables item variables) items)
  | VObject props =>
      VObject (fold_left (fun result entry =>
                            let '(key, item) := entry in
                            set_prop result key (applySeedVariables item variables))
                         props [])
  | VDate _ => VObject []
  | _ => val
  end.

(** A template in the words of the specification: literal text with
    placeholders of the two forms embedded in it. *)
Inductive segment :=
| Text (t : string)
| Handlebars (before key after : string)
| Legacy (key : string).

Definition source (seg : segment) : string :=
  match seg with
  | Text t => t
  | Handlebars before key after =>
      "{{" +:+ before +:+ "vars." +:+ key +:+ after +:+ "}}"
  | Legacy key => "${" +:+ key +:+ "}"
  end.



Definition template (segs : list segment) : string :=
  String.concat "" (map source segs).



(** The parts of an INSERT statement, in the words of the specification:
    the head lists the columns and the values in row order, and an upsert
    assigns [EXCLUDED.col] to a column. *)
Definition insert_head (table : string) (columns values : list string) : string :=
  "INSERT INTO " +:+ quoteIdentifier table +:+ " ("
  +:+ join ", " (map quoteIdentifier columns)
  +:+ ") VALUES (" +:+ join ", " values +:+ ")".

Definition on_conflict (keys : list string) : string :=
  " ON CONFLICT (" +:+ join ", " (map quoteIdentifier keys) +:+ ")".

Definition excluded_assignment (col : string) : string :=
  quoteIdentifier col +:+ " = EXCLUDED." +:+ quoteIdentifier col.

(** [bigint_free v]: no BigInt occurs in [v], which is what
    [JSON.stringify] needs in order not to throw. *)
Fixpoint bigint_free (v : value) : bool :=
  match v with
  | VBigInt _ => false
  | VArray items => forallb bigint_free items
  | VObject props => forallb (fun kv => bigint_free (snd kv)) props
  | _ => true
  end.

(** The values the seed pipeline hands to [toSqlValue]: data parsed from
    YAML (numbers, strings, booleans, null, valid timestamps, sequences and
    mappings of such) or, at the top level of a row, the BigInt that
    [resolveSeedRef] returns. *)
Definition seed_value (v : value) : bool :=
  match v with
  | VBigInt _ => true
  | VDate d => bool_decide (is_Some (date_toISOString d))
  | _ => bigint_free v
  end.

(** What the literal written for a value has to be: keywords for null and
    booleans, a bare rendering for numbers, and for text a quoted token
    that reads back as exactly that text. *)
Definition literal_of (v : value) (lit : string) : Prop :=
  match v with
  | VNull | VUndefined => lit = "NULL"
  | VBool b => lit = if b then "TRUE" else "FALSE"
  | VNumber x => lit = Number_toString x /\ Sql.occurs "'" lit = false
  | VBigInt z => lit = Z_toString z /\ Sql.occurs "'" lit = false
  | VString s => Sql.read_token "'" lit = Some (s, "")
  | VDate d =>
      exists iso, date_toISOString d = Some iso
                  /\ Sql.read_token "'" lit = Some (iso, "")
  | VArray _ | VObject _ =>
      exists json, JSON_stringify v = Ok (Some json)
                   /\ Sql.read_token "'" lit = Some (json, "::jsonb")
  end.


(** *** Runtime resolution *)

Inductive runtime_mode := compose | direct.

Record PostgresRuntime := {
  mode : runtime_mode;
  service : string;
  user : string;
  password : option string;
  host : option string;
  port : option number;
  adminDb : string;
  composeDir : string;
  ssl : option bool
}.

(** [PostgresConfig] of config.ts. *)
Record PostgresConfig := {
  cfg_mode : option string;
  cfg_service : option string;
  cfg_user : option string;
  cfg_password : option string;
  cfg_host : option string;
  cfg_port : option number;
  cfg_adminDb : option string;
  cfg_composeDir : option string;
  cfg_ssl : option bool
}.

(** What [resolvePostgresRuntime] reads from its surroundings:
    [resolveEnvironment().env] and [process.env]. *)
Record Environment := {
  env_postgres : option PostgresConfig;
  env_databases : option (list (string * PostgresConfig));
  process_env : string -> option string;
  DEFAULT_COMPOSE_DIR : string
}.

Record PostgresBaseOptions := {
  opt_service : option string;
  opt_user : option string;
  opt_composeDir : option string;
  opt_target : option string;
  opt_adminDb : option string
}.

Fixpoint lookup_key {A} (o : list (string * A)) (key : string) : option A :=
  match o with
  | [] => None
  | (k, v) :: rest => if String.eqb k key then Some v else lookup_key rest key
  end.

(** [text ? f(text) : undefined] *)
Definition if_nonempty {A} (text : option string) (f : string -> A) : option A :=
  match text with
  | Some t => if String.eqb t "" then None else Some (f t)
  | None => None
  end.

(** One executed [psql] subprocess: with or without captured output,
    through the runtime, on a database. *)
Record event := Psql {
  captured : bool;
  ev_runtime : PostgresRuntime;
  ev_db : string;
  ev_sql : string
}.

Section world.

(** [Number(text)] of the JavaScript runtime. *)
Variable Number_of_text : string -> number.
Variable environment : Environment.
(** The outcome of a subprocess, which may depend on everything executed
    before it: its captured output, or the error of a failed process. *)
Variable psql : list event -> event -> result string.

Definition resolvePostgresRuntime (options : PostgresBaseOptions)
    (fallbackTarget : option string) : PostgresRuntime :=
  let env := process_env environment in
  let cfg := env_postgres environment in
  let targetName := opt_target options ?? fallbackTarget in
  let dbTarget :=
    match targetName, env_databases environment with
    | Some name, Some databases =>
        if String.eqb name "" then None else lookup_key databases name
    | _, _ => None
    end in
  let mode_ :=
    default "compose"
      ((dbTarget ≫= cfg_mode) ?? (cfg ≫= cfg_mode) ?? env "PG_MODE"
       ?? env "POSTGRES_MODE") in
  let service_ :=
    default "postgres"
      (opt_service options ?? (dbTarget ≫= cfg_service) ?? (cfg ≫= cfg_service)
       ?? env "POSTGRES_SERVICE") in
  let user_ :=
    default "postgres"
      (opt_user options ?? (dbTarget ≫= cfg_user) ?? (cfg ≫= cfg_user)
       ?? env "POSTGRES_USER") in
  let password_ :=
    (dbTarget ≫= cfg_password) ?? (cfg ≫= cfg_password)
    ?? env "POSTGRES_PASSWORD" ?? env "PG_PASSWORD" in
  let host_ :=
    (dbTarget ≫= cfg_host) ?? (cfg ≫= cfg_host) ?? env "POSTGRES_HOST"
    ?? env "PG_HOST" in
  let port_ :=
    default (Finite false (D5 (D4 (D3 (D2 Nil)))) 4)
      ((dbTarget ≫= cfg_port) ?? (cfg ≫= cfg_port)
       ?? if_nonempty (env "POSTGRES_PORT") Number_of_text
       ?? if_nonempty (env "PG_PORT") Number_of_text) in
  let adminDb_ :=
    default "postgres"
      (opt_adminDb options ?? (dbTarget ≫= cfg_adminDb) ?? (cfg ≫= cfg_adminDb)
       ?? env "POSTGRES_ADMIN_DB") in
  let composeDir_ :=
    default (DEFAULT_COMPOSE_DIR environment)
      (opt_composeDir options ?? (dbTarget ≫= cfg_composeDir)
       ?? (cfg ≫= cfg_composeDir)) in
  let ssl_ :=
    (dbTarget ≫= cfg_ssl) ?? (cfg ≫= cfg_ssl)
    ?? if_nonempty (env "POSTGRES_SSL")
         (fun text => String.eqb (toLowerCase text) "true") in
  {| mode := if String.eqb mode_ "direct" then direct else compose;
     service := service_;
     user := user_;
     password := password_;
     host := host_;
     port := Some port_;
     adminDb := adminDb_;
     composeDir := composeDir_;
     ssl := ssl_ |}.

(** *** Effects: the trace of executed subprocesses, and exceptions *)

Definition M (A : Type) : Type := list event -> result A * list event.

Definition ret {A} (a : A) : M A := fun trace => (Ok a, trace).
Definition throw {A} (e : error) : M A := fun trace => (Throw e, trace).
Definition lift {A} (r : result A) : M A := fun trace => (r, trace).

Definition bindM {A B} (m : M A) (k : A -> M B) : M B :=
  fun trace =>
    match m trace with
    | (Ok a, trace') => k a trace'
    | (Throw e, trace') => (Throw e, trace')
    end.

Notation "'run' x <- m ; k" := (bindM m (fun x => k))
  (at level 10, x name, m at level 100, k at level 200).

(** [for (const x of xs) { await body(x) }] *)
Definition forM_ {A} (body : A -> M unit) : list A -> M unit :=
  fix go (xs : list A) : M unit :=
    match xs with
    | [] => ret tt
    | x :: rest => run _ <- body x; go rest
    end.

(** The subprocess is spawned, recorded, and its outcome returned. *)
Definition spawn_psql (ev : event) : M string :=
  fun trace => (psql trace ev, trace ++ [ev]).

Definition missing_host (runtime : PostgresRuntime) : bool :=
  match host runtime with
  | Some h => String.eqb h ""
  | None => true
  end.

Definition runPsqlWithRuntime (runtime : PostgresRuntime) (db sql : string) : M unit :=
  match mode runtime with
  | direct =>
      if missing_host runtime
      then throw (Error "Missing Postgres host for direct mode.")
      else run _ <- spawn_psql (Psql false runtime db sql); ret tt
  | compose => run _ <- spawn_psql (Psql false runtime db sql); ret tt
  end.

Definition runPsqlWithRuntimeCapture (runtime : PostgresRuntime) (db sql : string)
    : M string :=
  match mode runtime with
  | direct =>
      if missing_host runtime
      then throw (Error "Missing Postgres host for direct mode.")
      else spawn_psql (Psql true runtime db sql)
  | compose => spawn_psql (Psql true runtime db sql)
  end.

(** *** Cross-row references *)

(** [SeedRef['ref']], read from a value of that type. *)
Record SeedRefTarget := {
  ref_table : string;
  ref_where : object;
  ref_column : option string
}.

Definition as_string (v : value) : option (option string) :=
  match v with
  | VUndefined | VNull => Some None
  | VString s => Some (Some s)
  | _ => None
  end.

Definition as_object (v : value) : option (option object) :=
  match v with
  | VUndefined | VNull => Some None
  | VObject o => Some (Some o)
  | _ => None
  end.

Definition decode_ref (ref : value) : option SeedRefTarget :=
  match ref with
  | VObject o =>
      match get_prop o "table", get_prop o "where", as_string (get_prop o "column") with
      | VString table, VObject where_, Some column =>
          Some {| ref_table := table; ref_where := where_; ref_column := column |}
      | _, _, _ => None
      end
  | _ => None
  end.

Definition isSeedRef (v : value) : bool :=
  if negb (truthy v) || negb (String.eqb (typeof v) "object") then false
  else
    let ref := get v "ref" in
    truthy ref && truthy (get ref "table") && truthy (get ref "where").

Definition resolveSeedRef (runtime : PostgresRuntime) (db : string)
    (ref : SeedRefTarget) : M value :=
  let column := default "id" (ref_column ref) in
  run whereClauses <-
    lift (mapM (fun entry : string * value =>
                  let '(field, v) := entry in
                  do rendered <- toSqlValue v;
                  Ok (quoteIdentifier field +:+ " = " +:+ rendered))
               (ref_where ref));
  let whereSql :=
    if Nat.eqb (length whereClauses) 0 then ""
    else " WHERE " +:+ join " AND " whereClauses in
  let sql := "SELECT " +:+ quoteIdentifier column +:+ " FROM "
             +:+ quoteIdentifier (ref_table ref) +:+ whereSql +:+ " LIMIT 1;" in
  run output <- runPsqlWithRuntimeCapture runtime db sql;
  let text := trim output in
  if String.eqb text "" then
    let filter := join ", " whereClauses in
    throw (Error ("Seed ref not found: " +:+ ref_table ref +:+ "("
                  +:+ (if String.eqb filter "" then "no filter" else filter)
                  +:+ ")"))
  else if is_integer_text text then ret (VBigInt (BigInt_of_text text))
  else ret (VString text).

Definition resolveSeedRow (runtime : PostgresRuntime) (db : string) (row : object)
    : M object :=
  (fix go (entries : object) (resolved : object) : M object :=
     match entries with
     | [] => ret resolved
     | (key, v) :: rest =>
         if isSeedRef v then
           match decode_ref (get v "ref") with
           | Some ref =>
               run found <- resolveSeedRef runtime db ref;
               go rest (set_prop resolved key found)
           | None => throw (Untyped "SeedRef")
           end
         else go rest (set_prop resolved key v)
     end) row [].

(** *** Tables and operations *)

(** [SeedTable] and [SeedOperation], read from interpolated values of
    those types; an absent field and a null one read alike. *)
Record SeedTable := {
  t_action : option string;
  t_upsertBy : option (list string);
  t_rows : option (list object)
}.

Record SeedOperation := {
  op_type : value;
  op_table : option string;
  op_rows : option (list object);
  op_upsertBy : option (list string);
  op_where : option object;
  op_set : option object
}.

Fixpoint all_strings (items : list value) : option (list string) :=
  match items with
  | [] => Some []
  | VString s :: rest =>
      match all_strings rest with
      | Some ss => Some (s :: ss)
      | None => None
      end
  | _ => None
  end.

Fixpoint all_objects (items : list value) : option (list object) :=
  match items with
  | [] => Some []
  | VObject o :: rest =>
      match all_objects rest with
      | Some os => Some (o :: os)
      | None => None
      end
  | _ => None
  end.

Definition as_string_list (v : value) : option (option (list string)) :=
  match v with
  | VUndefined | VNull => Some None
  | VArray items => Some <$> all_strings items
  | _ => None
  end.

Definition as_rows (v : value) : option (option (list object)) :=
  match v with
  | VUndefined | VNull => Some None
  | VArray items => Some <$> all_objects items
  | _ => None
  end.

Definition decode_table (config : value) : option SeedTable :=
  match config with
  | VUndefined | VNull =>
      Some {| t_action := None; t_upsertBy := None; t_rows := None |}
  | VObject o =>
      match as_string (get_prop o "action"), as_string_list (get_prop o "upsertBy"),
            as_rows (get_prop o "rows") with
      | Some action, Some upsertBy, Some rows =>
          Some {| t_action := action; t_upsertBy := upsertBy; t_rows := rows |}
      | _, _, _ => None
      end
  | _ => None
  end.

Definition decode_operation (operation : value) : option SeedOperation :=
  match operation with
  | VObject o =>
      match as_string (get_prop o "type"), as_string (get_prop o "table"),
            as_rows (get_prop o "rows"), as_string_list (get_prop o "upsertBy"),
            as_object (get_prop o "where"), as_object (get_prop o "set") with
      | Some _, Some table, Some rows, Some upsertBy, Some where_, Some set =>
          Some {| op_type := get_prop o "type"; op_table := table; op_rows := rows;
                  op_upsertBy := upsertBy; op_where := where_; op_set := set |}
      | _, _, _, _, _, _ => None
      end
  | _ => None
  end.

(** The body of the loop over the rows of a table or of an insert. *)
Definition insertRow (runtime : PostgresRuntime) (db table : string)
    (upsertBy : list string) (row : object) : M unit :=
  run resolvedRow <- resolveSeedRow runtime db row;
  run sql <- lift (buildInsertSql table resolvedRow (Some upsertBy));
  runPsqlWithRuntime runtime db sql.

Definition insertRows (runtime : PostgresRuntime) (db table : string)
    (upsertBy : list string) (rows : list object) : M unit :=
  forM_ (insertRow runtime db table upsertBy) rows.

Definition applyTableSeed (runtime : PostgresRuntime) (db : string)
    (entry : string * value) : M unit :=
  let '(table, config) := entry in
  match decode_table config with
  | None => throw (Untyped "SeedTable")
  | Some config =>
      let rows := default [] (t_rows config) in
      if Nat.eqb (length rows) 0 then ret tt
      else
        let action :=
          default (if negb (Nat.eqb (length (default [] (t_upsertBy config))) 0)
                   then "upsert" else "insert")
                  (t_action config) in
        if negb (includes ["insert"; "upsert"] action) then
          throw (Error ("Invalid table action " +:+ dq +:+ action +:+ dq
                        +:+ " in table " +:+ dq +:+ table +:+ dq
                        +:+ ". Use insert or upsert."))
        else
          let upsertBy :=
            if String.eqb action "upsert" then default [] (t_upsertBy config)
            else [] in
          insertRows runtime db table upsertBy rows
  end.

Definition applyTableSeeds (runtime : PostgresRuntime) (db : string)
    (tables : object) : M unit :=
  forM_ (applyTableSeed runtime db) tables.

Definition applySeedOperation (runtime : PostgresRuntime) (db : string)
    (operation : value) : M unit :=
  match decode_operation operation with
  | None => throw (Untyped "SeedOperation")
  | Some operation =>
      match op_table operation with
      | None => throw (Error ("Seed operation requires " +:+ dq +:+ "table" +:+ dq +:+ "."))
      | Some table =>
          if String.eqb table "" then
            throw (Error ("Seed operation requires " +:+ dq +:+ "table" +:+ dq +:+ "."))
          else
            let type := String_ (op_type operation) in
            if String.eqb type "insert" || String.eqb type "upsert" then
              let rows := default [] (op_rows operation) in
              if Nat.eqb (length rows) 0 then
                throw (Error ("Operation " +:+ dq +:+ type +:+ dq +:+ " on " +:+ table
                              +:+ " requires " +:+ dq +:+ "rows" +:+ dq +:+ "."))
              else
                let upsertBy :=
                  if String.eqb type "upsert" then default [] (op_upsertBy operation)
                  else [] in
                insertRows runtime db table upsertBy rows
            else if String.eqb type "update" then
              match op_where operation, op_set operation with
              | Some where_, Some set =>
                  run resolvedWhere <- resolveSeedRow runtime db where_;
                  run resolvedSet <- resolveSeedRow runtime db set;
                  run sql <- lift (buildUpdateSql table resolvedSet resolvedWhere);
                  runPsqlWithRuntime runtime db sql
              | _, _ =>
                  throw (Error ("Operation " +:+ dq +:+ "update" +:+ dq +:+ " on "
                                +:+ table +:+ " requires " +:+ dq +:+ "where" +:+ dq
                                +:+ " and " +:+ dq +:+ "set" +:+ dq +:+ "."))
              end
            else if String.eqb type "delete" then
              match op_where operation with
              | Some where_ =>
                  run resolvedWhere <- resolveSeedRow runtime db where_;
                  run sql <- lift (buildDeleteSql table resolvedWhere);
                  runPsqlWithRuntime runtime db sql
              | None =>
                  throw (Error ("Operation " +:+ dq +:+ "delete" +:+ dq +:+ " on "
                                +:+ table +:+ " requires " +:+ dq +:+ "where" +:+ dq
                                +:+ "."))
              end
            else
              throw (Error ("Unsupported seed operation type " +:+ dq +:+ type
                            +:+ dq +:+ "."))
      end
  end.

Definition applySeedOperations (runtime : PostgresRuntime) (db : string)
    (operations : list value) : M unit :=
  forM_ (applySeedOperation runtime db) operations.

Definition applyYamlSeedForDatabase (runtime : PostgresRuntime) (db : string)
    (tables : option object) (operations : option (list value)) : M unit :=
  let operations := default [] operations in
  let no_tables :=
    match tables with
    | Some t => Nat.eqb (length (Object_keys t)) 0
    | None => true
    end in
  if no_tables && Nat.eqb (length operations) 0 then ret tt
  else
    run _ <- (if negb no_tables then applyTableSeeds runtime db (default [] tables)
              else ret tt);
    if negb (Nat.eqb (length operations) 0)
    then applySeedOperations runtime db operations
    else ret tt.

(** *** Documents *)

(** [SeedDatabase] and [SeedYaml]: the sections of the parsed document.
    The tables and operations stay untyped until they are interpolated. *)
Record SeedDatabase := {
  dbc_db : option string;
  dbc_target : option string;
  dbc_variables : option object;
  dbc_tables : option object;
  dbc_operations : option (list value)
}.

Record SeedYaml := {
  seed_variables : option object;
  seed_tables : option object;
  seed_operations : option (list value);
  seed_databases : option (list (string * SeedDatabase))
}.

Record PostgresSeedYamlOptions := {
  base : PostgresBaseOptions;
  opt_db : option string
}.

(** [{...a, ...b}] *)
Definition spread (a b : object) : object :=
  fold_left (fun merged entry => let '(key, v) := entry in set_prop merged key v) b a.

(** [applySeedVariables(tables, variables) as Record<string, SeedTable>] *)
Definition interpolate_tables (tables : object) (variables : object) : object :=
  match applySeedVariables (VObject tables) variables with
  | VObject o => o
  | _ => []
  end.

(** [applySeedVariables(operations, variables) as SeedOperation[]] *)
Definition interpolate_operations (operations : list value) (variables : object)
    : list value :=
  match applySeedVariables (VArray operations) variables with
  | VArray items => items
  | _ => []
  end.

Definition nonempty {A} (section_ : option (list A)) : bool :=
  match section_ with
  | Some entries => negb (Nat.eqb (length entries) 0)
  | None => false
  end.

(** The body of the loop over [Object.entries(seed.databases)]. *)
Definition applyDatabaseEntry (options : PostgresSeedYamlOptions)
    (globalVariables : object) (entry : string * SeedDatabase) : M unit :=
  let '(databaseKey, dbConfig) := entry in
  let dbName := default databaseKey (dbc_db dbConfig) in
  let target := default databaseKey (dbc_target dbConfig) in
  let runtime :=
    resolvePostgresRuntime
      {| opt_service := opt_service (base options);
         opt_user := opt_user (base options);
         opt_composeDir := opt_composeDir (base options);
         opt_target := Some target;
         opt_adminDb := None |}
      (Some target) in
  let mergedVariables := spread globalVariables (default [] (dbc_variables dbConfig)) in
  let scopedTables :=
    interpolate_tables (default [] (dbc_tables dbConfig)) mergedVariables in
  let scopedOperations :=
    interpolate_operations (default [] (dbc_operations dbConfig)) mergedVariables in
  applyYamlSeedForDatabase runtime dbName (Some scopedTables) (Some scopedOperations).

(** [applyYamlSeed], from the parsed document on. *)
Definition applyYamlSeed (options : PostgresSeedYamlOptions) (seed : SeedYaml)
    : M unit :=
  let defaultDb := default "postgres" (opt_db options) in
  let globalVariables := default [] (seed_variables seed) in
  let hasDefaultPayload :=
    nonempty (seed_tables seed) || nonempty (seed_operations seed) in
  let hasDatabasesPayload := nonempty (seed_databases seed) in
  if negb hasDefaultPayload && negb hasDatabasesPayload then ret tt
  else
    run _ <-
      (if hasDefaultPayload then
         let runtime := resolvePostgresRuntime (base options) (Some defaultDb) in
         let defaultTables :=
           interpolate_tables (default [] (seed_tables seed)) globalVariables in
         let defaultOperations :=
           interpolate_operations (default [] (seed_operations seed)) globalVariables in
         applyYamlSeedForDatabase runtime defaultDb
           (Some defaultTables) (Some defaultOperations)
       else ret tt);
    if hasDatabasesPayload then
      forM_ (applyDatabaseEntry options globalVariables)
            (default [] (seed_databases seed))
    else ret tt.

(** *** The run as one sequence of steps

    The order of execution in the words of the specification: the steps of
    the top-level payload, then those of each database entry in entry
    order; in a scope the rows of each table, table after table, then the
    operations in listed order.  A step is one row, one update or delete,
    or the exception that ends the run at that place. *)

Definition seq (steps : list (M unit)) : M unit := forM_ (fun step => step) steps.

Definition table_steps (runtime : PostgresRuntime) (db : string)
    (entry : string * value) : list (M unit) :=
  let '(table, config) := entry in
  match decode_table config with
  | None => [throw (Untyped "SeedTable")]
  | Some config =>
      let rows := default [] (t_rows config) in
      let upsertKeys := default [] (t_upsertBy config) in
      let action :=
        default (match upsertKeys with [] => "insert" | _ => "upsert" end)
                (t_action config) in
      match rows with
      | [] => []
      | _ =>
          if String.eqb action "insert" then
            map (insertRow runtime db table []) rows
          else if String.eqb action "upsert" then
            map (insertRow runtime db table upsertKeys) rows
          else
            [throw (Error ("Invalid table action " +:+ dq +:+ action +:+ dq
                           +:+ " in table " +:+ dq +:+ table +:+ dq
                           +:+ ". Use insert or upsert."))]
      end
  end.

Definition operation_steps (runtime : PostgresRuntime) (db : string)
    (operation : value) : list (M unit) :=
  let whole := [applySeedOperation runtime db operation] in
  match decode_operation operation with
  | Some op =>
      match op_table op, op_rows op with
      | Some table, Some (row :: rows) =>
          let type := String_ (op_type op) in
          if String.eqb table "" then whole
          else if String.eqb type "insert" then
            map (insertRow runtime db table []) (row :: rows)
          else if String.eqb type "upsert" then
            map (insertRow runtime db table (default [] (op_upsertBy op)))
                (row :: rows)
          else whole
      | _, _ => whole
      end
  | None => whole
  end.

Definition scope_steps (runtime : PostgresRuntime) (db : string)
    (tables : object) (operations : list value) : list (M unit) :=
  concat (map (table_steps runtime db) tables)
  ++ concat (map (operation_steps runtime db) operations).

(** What a database entry is run with: its database, the runtime of its
    target, and its tables and operations interpolated with the global
    variables overridden by its own. *)
Definition entry_db (entry : string * SeedDatabase) : string :=
  default (fst entry) (dbc_db (snd entry)).

Definition entry_target (entry : string * SeedDatabase) : string :=
  default (fst entry) (dbc_target (snd entry)).

Definition entry_runtime (options : PostgresSeedYamlOptions)
    (entry : string * SeedDatabase) : PostgresRuntime :=
  resolvePostgresRuntime
    {| opt_service := opt_service (base options);
       opt_user := opt_user (base options);
       opt_composeDir := opt_composeDir (base options);
       opt_target := Some (entry_target entry);
       opt_adminDb := None |}
    (Some (entry_target entry)).

Definition entry_variables (globalVariables : object)
    (entry : string * SeedDatabase) : object :=
  spread globalVariables (default [] (dbc_variables (snd entry))).

Definition database_steps (options : PostgresSeedYamlOptions)
    (globalVariables : object) (entry : string * SeedDatabase) : list (M unit) :=
  scope_steps (entry_runtime options entry) (entry_db entry)
    (interpolate_tables (default [] (dbc_tables (snd entry)))
       (entry_variables globalVariables entry))
    (interpolate_operations (default [] (dbc_operations (snd entry)))
       (entry_variables globalVariables entry)).

Definition plan (options : PostgresSeedYamlOptions) (seed : SeedYaml)
    : list (M unit) :=
  let globalVariables := default [] (seed_variables seed) in
  let defaultDb := default "postgres" (opt_db options) in
  scope_steps (resolvePostgresRuntime (base options) (Some defaultDb)) defaultDb
    (interpolate_tables (default [] (seed_tables seed)) globalVariables)
    (interpolate_operations (default [] (seed_operations seed)) globalVariables)
  ++ concat (map (database_steps options globalVariables)
                 (default [] (seed_databases seed))).

(** The events each step of a sequence adds to the trace, step by step,
    up to and including the step that throws. *)
Fixpoint segments (steps : list (M unit)) (trace : list event)
    : list (list event) :=
  match steps with
  | [] => []
  | step :: rest =>
      let '(outcome, trace') := step trace in
      drop (length trace) trace'
      :: match outcome with
         | Ok _ => segments rest trace'
         | Throw _ => []
         end
  end.

(** An effectful computation only appends to the trace, and what it
    appends satisfies [P]. *)
Definition emits {A} (P : event -> Prop) (m : M A) : Prop :=
  forall trace, exists added,
    snd (m trace) = trace ++ added /\ List.Forall P added.

Definition on_database (runtime : PostgresRuntime) (db : string) (ev : event) : Prop :=
  ev_runtime ev = runtime /\ ev_db ev = db.

End world.
End PgSeed.

(** ** The mock server (api-virtual) *)

Module ApiVirtual.
Import Js.

(** *** Body templates *)

Definition last_char (s : string) : string :=
  match list_ascii_of_string s with
  | [] => EmptyString
  | c :: rest => String (List.last rest c) EmptyString
  end.

(** [{{\s*([^}]+)\s*}}] at a position.  Between the braces lies the longest
    run of characters other than [}].  The first [\s*] takes the white
    space that leads the run and the greedy group takes all the rest of it,
    white space at its end included, which leaves the second [\s*] empty;
    when the run is white space only, the first [\s*] gives back its last
    character to the group. *)
Definition placeholder_at (s : string) : option (string * string) :=
  match strip_prefix "{{" s with
  | None => None
  | Some s1 =>
      let '(run, s2) := span (fun c => negb (Ascii.eqb c "}")) s1 in
      match strip_prefix "}}" s2 with
      | None => None
      | Some rest =>
          if String.eqb run "" then None
          else
            let token := skip_spaces run in
            if String.eqb token "" then Some (last_char run, rest)
            else Some (token, rest)
      end
  end.

(** [acc?.[part]] *)
Definition get_optional (acc : value) (part : string) : value :=
  match acc with
  | VUndefined | VNull => VUndefined
  | _ => get acc part
  end.

Definition resolve_token (context : object) (token : string) : string :=
  match fold_left get_optional (split "." token) (VObject context) with
  | VUndefined => ""
  | found => String_ found
  end.

Definition interpolateString (template : string) (context : object) : string :=
  String_replace placeholder_at (resolve_token context) template.

Fixpoint applyTemplate (template : value) (context : object) : value :=
  match template with
  | VString s => VString (interpolateString s context)
  | VArray items => VArray (map (fun item => applyTemplate item context) items)
  | VObject props =>
      VObject (fold_left (fun result entry =>
                            let '(key, item) := entry in
                            set_prop result key (applyTemplate item context))
                         props [])
  | VDate _ => VObject []
  | _ => template
  end.

(** *** Hot reload *)

(** [fs.Stats], as far as the fingerprint reads it. *)
Record Stats := {
  mtimeMs : number;
  size : number
}.

(** A directory entry: a file with the outcome of [statSync] on it (absent
    when it throws), a directory, or something that is neither. *)
Inductive dirent :=
| File (name : string) (stat : option Stats)
| Directory (name : string) (entries : list dirent)
| Special (name : string).

Fixpoint ends_with_from (suffix s : string) (fuel : nat) : bool :=
  match fuel with
  | O => String.eqb s suffix
  | S fuel' =>
      match s with
      | EmptyString => String.eqb s suffix
      | String _ rest => String.eqb s suffix || ends_with_from suffix rest fuel'
      end
  end.

(** [s.endsWith(suffix)] *)
Definition endsWith (s suffix : string) : bool :=
  ends_with_from suffix s (String.length s).

(** [path.join(dir, name)] for a directory and the name of one of its
    entries. *)
Definition path_join (dir name : string) : string := dir +:+ "/" +:+ name.

(** What the body of the [forEach] of [collectYamlFiles(dir)] pushes for
    one entry; a directory is collected in turn, entry by entry. *)
Fixpoint collect_entry (dir : string) (entry : dirent)
    : list (string * option Stats) :=
  match entry with
  | Directory name children =>
      (fix collect (entries : list dirent) : list (string * option Stats) :=
         match entries with
         | [] => []
         | child :: rest => collect_entry (path_join dir name) child ++ collect rest
         end) children
  | File name stat =>
      if endsWith name ".yaml" || endsWith name ".yml"
      then [(path_join dir name, stat)]
      else []
  | Special _ => []
  end.

(** [collectYamlFiles(dir)] over the entries read from an existing
    directory; each file comes with the outcome of [statSync]. *)
Definition collectYamlFiles (dir : string) (entries : list dirent)
    : list (string * option Stats) :=
  flat_map (collect_entry dir) entries.

(** The resources root: [None] when the directory does not exist. *)
Definition filesystem := option (list dirent).

Definition describe (file : string * option Stats) : string :=
  match snd file with
  | Some stat =>
      fst file +:+ ":" +:+ Number_toString (mtimeMs stat) +:+ ":"
      +:+ Number_toString (size stat)
  | None => ""
  end.

(** [Array.prototype.sort()] on strings: ascending by code units. *)
Definition sort (xs : list string) : list string := merge_sort String.le xs.

Definition fingerprintResources (root : string) (fs : filesystem) : string :=
  let files :=
    match fs with
    | Some entries => collectYamlFiles root entries
    | None => []
    end in
  join "|" (sort (map describe files)).

Section server.

(** The router state built from the resources, and its construction, which
    throws on resources that do not load. *)
Variable AppState : Type.
Variable buildAppState : filesystem -> result AppState.
Variable resourcesRoot : string.

Record Server := {
  currentState : AppState;
  lastResourcesFingerprint : string;
  reloads : nat
}.

(** [reloadResources(trigger)] on the file system as it is at the call;
    [reloads] counts the rebuilt states, for the statements below. *)
Definition reloadResources (fs : filesystem) (server : Server) : bool * Server :=
  match buildAppState fs with
  | Ok nextState =>
      (true, {| currentState := nextState;
                lastResourcesFingerprint := fingerprintResources resourcesRoot fs;
                reloads := S (reloads server) |})
  | Throw _ => (false, server)
  end.

(** The callback given to [setInterval]. *)
Definition poll (fs : filesystem) (server : Server) : Server :=
  let nextFingerprint := fingerprintResources resourcesRoot fs in
  if negb (String.eqb nextFingerprint (lastResourcesFingerprint server))
  then snd (reloadResources fs server)
  else server.

(** A registered interval timer. *)
Record interval := {
  callback : filesystem -> Server -> Server;
  period : number
}.

(** Start-up: with hot reload enabled the fingerprint is recorded and
    [poll] is registered with period [HOT_RELOAD_INTERVAL_MS]. *)
Definition start (HOT_RELOAD_ENABLED : bool) (HOT_RELOAD_INTERVAL_MS : number)
    (fs : filesystem) (initial : AppState) : Server * list interval :=
  if HOT_RELOAD_ENABLED then
    ({| currentState := initial;
        lastResourcesFingerprint := fingerprintResources resourcesRoot fs;
        reloads := 0 |},
     [{| callback := poll; period := HOT_RELOAD_INTERVAL_MS |}])
  else
    ({| currentState := initial; lastResourcesFingerprint := ""; reloads := 0 |}, []).

(** What happens to the server: the timer fires, or POST /virtual/reload
    arrives, each on the file system of that moment. *)
Inductive happening :=
| Tick (fs : filesystem)
| ManualReload (fs : filesystem).

Definition step (server : Server) (h : happening) : Server :=
  match h with
  | Tick fs => poll fs server
  | ManualReload fs => snd (reloadResources fs server)
  end.

Definition run (server : Server) (hs : list happening) : Server :=
  fold_left step hs server.

End server.

End ApiVirtual.

(** ** Bulk payloads (commands/opensearch.ts) *)

Module OpenSearch.
Import Js.

Definition newline : ascii := "010"%char.
Definition nl : string := String newline "".

Record NormalizeOptions := {
  dynamicIds : bool;
  dynamicTimestamps : bool;
  indexOverride : option string
}.

Definition isBulkMeta (doc : value) : bool :=
  match doc with
  | VObject o =>
      match Object_keys o with
      | [key] =>
          String.eqb key "index" || String.eqb key "create"
          || String.eqb key "update" || String.eqb key "delete"
      | _ => false
      end
  | _ => false
  end.

Definition is_millis_suffix (s : string) : bool :=
  match s with
  | String "." (String a (String b (String c (String "Z" EmptyString)))) =>
      is_digit a && is_digit b && is_digit c
  | _ => false
  end.

(** [s.replace(/\.\d{3}Z$/, 'Z')] *)
Fixpoint strip_millis (s : string) : string :=
  match s with
  | EmptyString => EmptyString
  | String c rest =>
      if is_millis_suffix s then "Z" else String c (strip_millis rest)
  end.

(** Data as [JSON.parse] returns it: null, booleans, numbers, strings,
    arrays and objects of such. *)
Fixpoint json_data (v : value) : bool :=
  match v with
  | VNull | VBool _ | VNumber _ | VString _ => true
  | VArray items => forallb json_data items
  | VObject props => forallb (fun entry => json_data (snd entry)) props
  | VUndefined | VBigInt _ | VDate _ => false
  end.

Definition nonblank (line : string) : bool := negb (String.eqb (trim line) "").

(** [visible s]: the text starts with a character other than white space. *)
Definition visible (s : string) : bool :=
  match s with
  | String c _ => negb (is_space c)
  | EmptyString => false
  end.

(** A line of output: not blank and free of line feeds. *)
Definition proper_line (text : string) : bool :=
  nonblank text && negb (Sql.occurs newline text).

(** The text ends with a line feed. *)
Fixpoint ends_with_newline (s : string) : bool :=
  match s with
  | EmptyString => false
  | String c EmptyString => Ascii.eqb c newline
  | String _ rest => ends_with_newline rest
  end.

Definition with_dynamicIds (enabled : bool) (options : NormalizeOptions)
    : NormalizeOptions :=
  {| dynamicIds := enabled;
     dynamicTimestamps := dynamicTimestamps options;
     indexOverride := indexOverride options |}.

(** [meta._index = options.indexOverride], when one is given. *)
Definition override_index (options : NormalizeOptions) (meta : object) : object :=
  match indexOverride options with
  | Some index =>
      if String.eqb index "" then meta else set_prop meta "_index" (VString index)
  | None => meta
  end.

Section runtime.

(** [JSON.parse], which throws a SyntaxError on text that is not JSON. *)
Variable JSON_parse : string -> result value.
(** [new Date(ms).toISOString()], for the times a payload is stamped with. *)
Variable toISOString : Z -> string.

(** [doc.createdAt = timestamp; doc.updatedAt = timestamp]: properties of an
    object, and of no consequence for the serialisation of an array. *)
Definition stamp (doc : value) (timestamp : string) : value :=
  match doc with
  | VObject o =>
      VObject (set_prop (set_prop o "createdAt" (VString timestamp))
                        "updatedAt" (VString timestamp))
  | _ => doc
  end.

(** What is pushed for the serialisation of a document: [undefined] is
    written as the empty string by the final [join]. *)
Definition pushed (serialised : result (option string)) : result string :=
  do text <- serialised; Ok (default "" text).

(** The body of the [try] for one line: the text pushed, or the exception
    that the [catch] answers by pushing the line itself, and the value of
    [payloadIndex] afterwards. *)
Definition normalize_doc (options : NormalizeOptions) (baseDate : Z)
    (payloadIndex : Z) (line : string) : result string * Z :=
  match JSON_parse line with
  | Throw e => (Throw e, payloadIndex)
  | Ok doc =>
      if isBulkMeta doc then
        let action := default "" (head (Object_keys (Object_entries doc))) in
        let meta := Object_entries (get doc action) in
        let meta := if dynamicIds options then delete_prop meta "_id" else meta in
        let meta := override_index options meta in
        (pushed (JSON_stringify (VObject [(action, VObject meta)])), payloadIndex)
      else if dynamicTimestamps options && is_object doc then
        let current := baseDate + payloadIndex * 1000 in
        let timestamp := strip_millis (toISOString current) in
        (pushed (JSON_stringify (stamp doc timestamp)), payloadIndex + 1)
      else (pushed (JSON_stringify doc), payloadIndex)
  end.

(** One iteration of the loop over the lines. *)
Definition normalize_line (options : NormalizeOptions) (baseDate : Z)
    (state : list string * Z) (line : string) : list string * Z :=
  let '(output, payloadIndex) := state in
  if negb (nonblank line) then state
  else
    match normalize_doc options baseDate payloadIndex line with
    | (Ok text, payloadIndex') => (output ++ [text], payloadIndex')
    | (Throw _, payloadIndex') => (output ++ [line], payloadIndex')
    end.

(** A non-blank line that parses to a JSON object which is not a bulk
    action, and a line that parses to a JSON array. *)
Definition is_document (line : string) : bool :=
  nonblank line
  && match JSON_parse line with
     | Ok (VObject o) => negb (isBulkMeta (VObject o))
     | _ => false
     end.

Definition is_array_line (line : string) : bool :=
  match JSON_parse line with
  | Ok (VArray _) => true
  | _ => false
  end.

Definition normalizeBulkPayload (raw : string) (options : NormalizeOptions)
    (baseDate : Z) : string :=
  let lines := split newline raw in
  let '(output, _) := fold_left (normalize_line options baseDate) lines ([], 0) in
  join nl output +:+ nl.

End runtime.

(** A reader of a few JSON texts, which agrees with [JSON.parse] on them
    and stands for it on any other text by throwing. *)
Definition sample_parse (text : string) : result value :=
  if String.eqb text "5" then Ok (VNumber (Finite false (D5 Nil) 1))
  else if String.eqb text "[1]" then Ok (VArray [VNumber (Finite false (D1 Nil) 1)])
  else if String.eqb text ("{" +:+ dq +:+ "a" +:+ dq +:+ ":1}") then
    Ok (VObject [("a", VNumber (Finite false (D1 Nil) 1))])
  else if String.eqb text ("{" +:+ dq +:+ "b" +:+ dq +:+ ":2}") then
    Ok (VObject [("b", VNumber (Finite false (D2 Nil) 1))])
  else if String.eqb text ("{" +:+ dq +:+ "index" +:+ dq +:+ ":{" +:+ dq +:+ "_id"
                           +:+ dq +:+ ":" +:+ dq +:+ "7" +:+ dq +:+ "}}") then
    Ok (VObject [("index", VObject [("_id", VString "7")])])
  else Throw (SyntaxError "Unexpected token").

(** Renders the time 1700000000000 ms and the seconds after it. *)
Definition sample_toISOString (ms : Z) : string :=
  "2023-11-14T22:13:" +:+ Z_toString (20 + (ms - 1700000000000) / 1000) +:+ ".000Z".

End OpenSearch.

(** ** Parties reset (commands/parties.ts) *)

Module Parties.

(** [orgId?: string | null] *)
Inductive orgref :=
| Absent
| Null
| Org (parent : string).

Record PartyDTO := {
  id : string;
  shortId : string;
  name : string;
  orgId : orgref
}.

(** [if (party.orgId)]: the parent, when the field holds a non-empty
    string. *)
Definition parent (party : PartyDTO) : option string :=
  match orgId party with
  | Org p => if String.eqb p "" then None else Some p
  | _ => None
  end.

(** [party.orgId !== null] *)
Definition not_null (party : PartyDTO) : bool :=
  match orgId party with
  | Null => false
  | _ => true
  end.

Definition removable (removeRoots : bool) (parties : list PartyDTO) : list PartyDTO :=
  List.filter (fun party => removeRoots || not_null party) parties.

(** [new Map(parties.map(item => [item.id, item]))]: a later entry
    replaces an earlier one with the same key. *)
Definition partyById (parties : list PartyDTO) : gmap string PartyDTO :=
  fold_left (fun m item => <[id item := item]> m) parties ∅.

Definition deletableIds (removable : list PartyDTO) : gset string :=
  list_to_set (map id removable).

Definition childrenMap (parties : list PartyDTO) : gmap string (gset string) :=
  fold_left (fun m party =>
               match parent party with
               | Some org => <[org := default ∅ (m !! org) ∪ {[id party]}]> m
               | None => m
               end) parties ∅.

Definition initialChildCount (children : gmap string (gset string))
    (deletable : gset string) (removable : list PartyDTO) : gmap string Z :=
  fold_left (fun m party =>
               match children !! id party with
               | None => <[id party := 0]> m
               | Some cs =>
                   <[id party := Z.of_nat (size (filter (fun c => c ∈ deletable) cs))]> m
               end) removable ∅.

(** The work list; its head is the element that [queue.pop()] returns. *)
Definition initialQueue (childCount : gmap string Z) (removable : list PartyDTO)
    : list string :=
  rev (map id (List.filter
                 (fun party => Z.eqb (default 0 (childCount !! id party)) 0)
                 removable)).

Record state := {
  queue : list string;
  processed : gset string;
  childCount : gmap string Z;
  deleted : nat;
  (** the DELETE requests sent so far, each with its success *)
  requests : list (string * bool)
}.

Inductive status := Running | Finished | Failed | OutOfFuel.

Section api.

(** The outcome of [client.delete] on a party, which may depend on the
    requests made before: [false] when the promise rejects. *)
Variable api_delete : list (string * bool) -> string -> bool.
Variable parties : list PartyDTO.
Variable removeRoots : bool.

Definition byId := partyById parties.
Definition deletable := deletableIds (removable removeRoots parties).
Definition children := childrenMap parties.

(** One iteration of the [while] loop. *)
Definition iteration (st : state) : state * status :=
  match queue st with
  | [] => (st, Finished)
  | currentId :: rest =>
      if decide (currentId ∈ processed st) then
        ({| queue := rest; processed := processed st; childCount := childCount st;
            deleted := deleted st; requests := requests st |}, Running)
      else
        let seen := processed st ∪ {[currentId]} in
        match byId !! currentId with
        | None =>
            ({| queue := rest; processed := seen; childCount := childCount st;
                deleted := deleted st; requests := requests st |}, Running)
        | Some party =>
            if negb (api_delete (requests st) (id party)) then
              ({| queue := rest; processed := seen; childCount := childCount st;
                  deleted := deleted st;
                  requests := requests st ++ [(id party, false)] |}, Failed)
            else
              let sent := requests st ++ [(id party, true)] in
              match parent party with
              | Some org =>
                  if decide (org ∈ deletable) then
                    let remaining := default 0 (childCount st !! org) - 1 in
                    let counts := <[org := Z.max remaining 0]> (childCount st) in
                    ({| queue := if remaining <=? 0 then org :: rest else rest;
                        processed := seen; childCount := counts;
                        deleted := S (deleted st); requests := sent |}, Running)
                  else
                    ({| queue := rest; processed := seen; childCount := childCount st;
                        deleted := S (deleted st); requests := sent |}, Running)
              | None =>
                  ({| queue := rest; processed := seen; childCount := childCount st;
                      deleted := S (deleted st); requests := sent |}, Running)
              end
        end
  end.

(** [while (queue.length > 0) { ... }], for at most [fuel] iterations. *)
Fixpoint loop (fuel : nat) (st : state) : state * status :=
  match fuel with
  | O => (st, OutOfFuel)
  | S fuel' =>
      match iteration st with
      | (st', Running) => loop fuel' st'
      | finished => finished
      end
  end.

Definition initial : state :=
  let counts := initialChildCount children deletable (removable removeRoots parties) in
  {| queue := initialQueue counts (removable removeRoots parties);
     processed := ∅;
     childCount := counts;
     deleted := 0;
     requests := [] |}.

(** [resetParties], from the fetched parties on: nothing is requested when
    there is no party or none is removable. *)
Definition resetParties (fuel : nat) : state * status :=
  match parties, removable removeRoots parties with
  | [], _ | _, [] =>
      ({| queue := []; processed := ∅; childCount := ∅; deleted := 0;
          requests := [] |}, Finished)
  | _, _ => loop fuel initial
  end.

(** The children of a party that are up for deletion, in the words of the
    specification: the deletable parties whose [orgId] names it. *)
Definition deletable_child (org child : string) : Prop :=
  child ∈ deletable
  /\ exists party, In party parties /\ id party = child /\ parent party = Some org.

(** The same as a set, as the program computes it, and the parent that
    the loop reads for a party. *)
Definition deletable_children (org : string) : gset string :=
  filter (fun c => c ∈ deletable) (default ∅ (children !! org)).

Definition parent_of (child : string) : option string := byId !! child ≫= parent.

(** The parties processed so far for which the loop has decremented the
    count of [org]. *)
Definition counted (org : string) (seen : gset string) : gset string :=
  filter (fun c => parent_of c = Some org) seen.

(** What holds of the state before every iteration. *)
Record invariant (st : state) : Prop := {
  inv_queue :
    forall q, In q (queue st) ->
              q ∈ deletable /\ deletable_children q ⊆ counted q (processed st);
  inv_processed : processed st ⊆ deletable;
  inv_counts :
    forall org, org ∈ deletable ->
      childCount st !! org
      = Some (Z.of_nat (size (deletable_children org ∖ counted org (processed st))));
  inv_requests : forall c, c ∈ processed st <-> In c (map fst (requests st));
  inv_success : forall c ok, In (c, ok) (requests st) -> ok = true;
  inv_nodup : List.NoDup (map fst (requests st));
  inv_order :
    forall before p ok after,
      requests st = before ++ (p, ok) :: after ->
      forall c, c ∈ deletable_children p -> In (c, true) before
}.

(** The states the loop goes through. *)
Inductive reachable : state -> Prop :=
| reachable_initial : reachable initial
| reachable_iteration st st' :
    reachable st -> iteration st = (st', Running) -> reachable st'.

(** The number of iterations left is bounded by this measure. *)
Definition work_left (st : state) : nat :=
  length (queue st) + 2 * size (deletable ∖ processed st).

(** What holds of the requests whenever the loop stops. *)
Record outcome (st : state) : Prop := {
  out_nodup : List.NoDup (map fst (requests st));
  out_order :
    forall before p ok after,
      requests st = before ++ (p, ok) :: after ->
      forall c, c ∈ deletable_children p -> In (c, true) before;
  out_deletable : forall p ok, In (p, ok) (requests st) -> p ∈ deletable
}.

End api.
End Parties.

(** ** OpenSearch: bulk endpoint and bulk payload (commands/opensearch.ts) *)

Module OpenSearchBulk.
Import Js.

(** [endpoint.replace(/\/$/, '')]: a slash that ends the text is dropped. *)
Fixpoint drop_trailing_slash (s : string) : string :=
  match s with
  | EmptyString => EmptyString
  | String c rest =>
      match rest with
      | EmptyString => if Ascii.eqb c "/" then EmptyString else s
      | String _ _ => String c (drop_trailing_slash rest)
      end
  end.

Definition normalizeBulkEndpoint (endpoint : string) : string :=
  let trimmed := drop_trailing_slash endpoint in
  if ApiVirtual.endsWith trimmed "/_bulk" then trimmed else trimmed +:+ "/_bulk".

(** [JSON.stringify({ index: { _index: index } })] *)
Definition index_action (index : string) : value :=
  VObject [("index", VObject [("_index", VString index)])].

(** The two lines pushed for one document. *)
Definition bulk_lines (index : string) (item : value) : result (list string) :=
  if negb (truthy item) || negb (String.eqb (typeof item) "object") then
    Throw (Error "Each document must be an object.")
  else
    do action <- JSON_stringify (index_action index);
    do document <- JSON_stringify item;
    Ok [default "" action; default "" document].

(** [buildBulkPayload(docs, index)]: the payload and the count. *)
Definition buildBulkPayload (docs : value) (index : option string)
    : result (string * nat) :=
  match index ≫= (fun i => if String.eqb i "" then None else Some i) with
  | None => Throw (Error "Missing required --index for JSON/YAML inputs.")
  | Some index =>
      let list := match docs with
                  | VArray items => items
                  | _ => [docs]
                  end in
      do lines <- mapM (bulk_lines index) list;
      Ok (join OpenSearch.nl (concat lines) +:+ OpenSearch.nl, length list)
  end.

End OpenSearchBulk.

(** ** Mock server: helpers of the router (api-virtual) *)

Module ApiHelpers.
Import Js.

(** The callback of [escapeHtml]: the entity written for an ampersand, an
    angle bracket, a double quote or an apostrophe. *)
Definition entity (c : ascii) : string :=
  if Ascii.eqb c "&" then "&amp;"
  else if Ascii.eqb c "<" then "&lt;"
  else if Ascii.eqb c ">" then "&gt;"
  else if Ascii.eqb c dquote then "&quot;"
  else "&#39;".

Definition is_html_special (c : ascii) : bool :=
  Ascii.eqb c "&" || Ascii.eqb c "<" || Ascii.eqb c ">" || Ascii.eqb c dquote
  || Ascii.eqb c "'".

(** [input.replace(re, char => ...)] for the global pattern of those five
    characters. *)
Fixpoint escapeHtml (input : string) : string :=
  match input with
  | EmptyString => EmptyString
  | String c rest =>
      if is_html_special c then entity c +:+ escapeHtml rest
      else String c (escapeHtml rest)
  end.

(** A reference reader of the five entities, as a browser decodes them in
    text and in attribute values. *)
Fixpoint decode_from (fuel : nat) (s : string) : string :=
  match fuel with
  | O => s
  | S fuel' =>
      match strip_prefix "&amp;" s, strip_prefix "&lt;" s, strip_prefix "&gt;" s,
            strip_prefix "&quot;" s, strip_prefix "&#39;" s with
      | Some rest, _, _, _, _ => String "&" (decode_from fuel' rest)
      | _, Some rest, _, _, _ => String "<" (decode_from fuel' rest)
      | _, _, Some rest, _, _ => String ">" (decode_from fuel' rest)
      | _, _, _, Some rest, _ => String dquote (decode_from fuel' rest)
      | _, _, _, _, Some rest => String "'" (decode_from fuel' rest)
      | None, None, None, None, None =>
          match s with
          | EmptyString => EmptyString
          | String c rest => String c (decode_from fuel' rest)
          end
      end
  end.

Definition decode_entities (s : string) : string := decode_from (String.length s) s.

(** [parseCsvEnv(value)] *)
Definition parseCsvEnv (value : option string) : list string :=
  match value with
  | None => []
  | Some text =>
      if String.eqb text "" then []
      else List.filter (fun item => negb (String.eqb item ""))
                       (map trim (split "," text))
  end.

(** [.] of a regular expression: any character but a line terminator. *)
Definition is_line_terminator (c : ascii) : bool :=
  Ascii.eqb c "010" || Ascii.eqb c "013".

(** [{(.*?)}] at a position: the lazy group stops at the first [}], and
    there is no match when a line terminator comes before it. *)
Definition brace_at (s : string) : option (string * string) :=
  match strip_prefix "{" s with
  | None => None
  | Some s1 =>
      let '(name, s2) :=
        span (fun c => negb (Ascii.eqb c "}") && negb (is_line_terminator c)) s1 in
      match strip_prefix "}" s2 with
      | Some rest => Some (name, rest)
      | None => None
      end
  end.

(** [openApiPath.replace(/{(.*?)}/g, ':$1')] *)
Definition toExpressPath (openApiPath : string) : string :=
  String_replace brace_at (fun name => ":" +:+ name) openApiPath.

(** A path template in the words of OpenAPI: literal text and parameters
    in braces. *)
Inductive path_part :=
| Literal (text : string)
| PathParameter (name : string).

Definition openapi_part (part : path_part) : string :=
  match part with
  | Literal text => text
  | PathParameter name => "{" +:+ name +:+ "}"
  end.

Definition express_part (part : path_part) : string :=
  match part with
  | Literal text => text
  | PathParameter name => ":" +:+ name
  end.

Definition proper_part (part : path_part) : bool :=
  match part with
  | Literal text => negb (Sql.occurs "{" text)
  | PathParameter name =>
      all_of (fun c => negb (Ascii.eqb c "}") && negb (is_line_terminator c)) name
  end.

(** [key in v], on own properties. *)
Definition has_key (v : value) (key : string) : bool :=
  match v with
  | VObject o => bool_decide (is_Some (lookup_prop o key))
  | _ => false
  end.

Definition normalizeHandlerResult (result : value) : value :=
  if truthy result && String.eqb (typeof result) "object" then
    if has_key result "status" || has_key result "headers" || has_key result "body"
    then result
    else VObject [("body", result)]
  else VObject [("body", result)].

(** No key occurs twice. *)
Fixpoint distinct (keys : list string) : bool :=
  match keys with
  | [] => true
  | key :: rest => negb (existsb (String.eqb key) rest) && distinct rest
  end.

(** A template that holds no brace, with distinct keys in each of its
    objects as an object literal has them. *)
Fixpoint placeholder_free (template : value) : bool :=
  match template with
  | VString s => negb (Sql.occurs "{" s)
  | VArray items => forallb placeholder_free items
  | VObject props =>
      distinct (Object_keys props)
      && forallb (fun entry => placeholder_free (snd entry)) props
  | VDate _ => false
  | _ => true
  end.

(** The parts of a body template string: literal text, and placeholders
    written with white space before the path only. *)
Inductive template_part :=
| TemplateText (text : string)
| Placeholder (spaces path : string).

Definition template_source (part : template_part) : string :=
  match part with
  | TemplateText text => text
  | Placeholder spaces path => "{{" +:+ spaces +:+ path +:+ "}}"
  end.

Definition template_value (context : object) (part : template_part) : string :=
  match part with
  | TemplateText text => text
  | Placeholder _ path => ApiVirtual.resolve_token context path
  end.

Definition proper_template_part (part : template_part) : bool :=
  match part with
  | TemplateText text => negb (Sql.occurs "{" text)
  | Placeholder spaces path =>
      all_of is_space spaces
      && all_of (fun c => negb (Ascii.eqb c "}")) path
      && match path with
         | String c _ => negb (is_space c)
         | EmptyString => false
         end
  end.

End ApiHelpers.

(** ** The quoted tokens of a generated statement

    A reference reader for the quoted tokens of a statement: delimited
    identifiers and string constants, each read by [Sql.read_quoted]; the
    text between them is passed over.  The statements of the seed
    interpreter hold no comment, no dollar quote and no escape string. *)

Module SqlTokens.
Import Js PgSeed.

Inductive token :=
| Identifier (name : string)
| Constant (text : string).

Fixpoint tokens_from (fuel : nat) (s : string) : option (list token) :=
  match fuel with
  | O =>
      match s with
      | EmptyString => Some []
      | String _ _ => None
      end
  | S fuel' =>
      match s with
      | EmptyString => Some []
      | String c rest =>
          if Ascii.eqb c "'" then
            match Sql.read_quoted "'" rest with
            | Some (body, tail) => cons (Constant body) <$> tokens_from fuel' tail
            | None => None
            end
          else if Ascii.eqb c dquote then
            match Sql.read_quoted dquote rest with
            | Some (body, tail) => cons (Identifier body) <$> tokens_from fuel' tail
            | None => None
            end
          else tokens_from fuel' rest
      end
  end.

(** The quoted tokens of a statement, in order; [None] when a token is
    left open. *)
Definition quoted_tokens (s : string) : option (list token) :=
  tokens_from (String.length s) s.

(** The token that stands for a value in a statement: the text of a
    string, the ISO text of a date, the JSON text of an array or object;
    numbers, booleans and null are written bare. *)
Definition value_tokens (v : value) : list token :=
  match v with
  | VString s => [Constant s]
  | VDate d =>
      match date_toISOString d with
      | Some iso => [Constant iso]
      | None => []
      end
  | VArray _ | VObject _ =>
      match JSON_stringify v with
      | Ok (Some json) => [Constant json]
      | _ => []
      end
  | _ => []
  end.

(** The tokens of a comparison or assignment of a column. *)
Definition entry_tokens (entry : string * value) : list token :=
  Identifier (fst entry) :: value_tokens (snd entry).

(** The tokens of the ON CONFLICT clause of an upsert. *)
Definition conflict_tokens (columns : list string) (upsertBy : option (list string))
    : list token :=
  match upsertBy with
  | None | Some [] => []
  | Some keys =>
      map Identifier keys
      ++ flat_map (fun col => [Identifier col; Identifier col])
           (List.filter (fun col => negb (includes keys col)) columns)
  end.

(** [plain_start s]: the text does not start with a quote character. *)
Definition plain_start (s : string) : Prop :=
  Sql.starts_with "'" s = false /\ Sql.starts_with dquote s = false.

(** [reads p ts]: wherever the fragment [p] is followed by text that does
    not start with a quote, its quoted tokens are [ts], and the reading
    goes on after it. *)
Definition reads (p : string) (ts : list token) : Prop :=
  forall rest, plain_start rest ->
    quoted_tokens (p +:+ rest) = (fun us => ts ++ us) <$> quoted_tokens rest.

End SqlTokens.

(** ** Seed runs: what is executed for rows, tables and operations *)

Module SeedRun.
Import Js PgSeed.

(** A runtime through which a subprocess can be started: compose mode, or
    direct mode with a host. *)
Definition usable (runtime : PostgresRuntime) : bool :=
  match mode runtime with
  | compose => true
  | direct => negb (missing_host runtime)
  end.

(** A row that holds no cross-row reference, with distinct columns. *)
Definition plain_row (row : object) : bool :=
  forallb (fun entry => negb (isSeedRef (snd entry))) row
  && ApiHelpers.distinct (Object_keys row).



(** The query executed for a reference. *)
Definition ref_query (ref : SeedRefTarget) (clauses : list string) : string :=
  "SELECT " +:+ quoteIdentifier (default "id" (ref_column ref)) +:+ " FROM "
  +:+ quoteIdentifier (ref_table ref)
  +:+ (match clauses with
       | [] => ""
       | _ => " WHERE " +:+ join " AND " clauses
       end)
  +:+ " LIMIT 1;".

(** The comparison written for one entry of the filter of a reference. *)
Definition ref_clause (entry : string * value) : result string :=
  do rendered <- toSqlValue (snd entry);
  Ok (quoteIdentifier (fst entry) +:+ " = " +:+ rendered).

(** Integer text as [BigInt.prototype.toString] writes it: digits without
    a leading zero, with a sign for negative integers only. *)
Definition canonical_integer (text : string) : bool :=
  match text with
  | String "-" (String c rest) =>
      is_digit c && negb (Ascii.eqb c "0") && all_of is_digit rest
  | String c rest =>
      is_digit c && all_of is_digit rest
      && (negb (Ascii.eqb c "0") || String.eqb rest "")
  | EmptyString => false
  end.

End SeedRun.

(** ** The base address of the API (utils/file-utils.ts) *)

Module FileUtils.
Import Js.

(** [s.slice(0, -1)]: the text without its last character. *)
Fixpoint slice_0_minus_1 (s : string) : string :=
  match s with
  | EmptyString => EmptyString
  | String c rest =>
      match rest with
      | EmptyString => EmptyString
      | String _ _ => String c (slice_0_minus_1 rest)
      end
  end.

Section environment.
(** [process.env.API_URL] *)
Variable API_URL : option string.

(** [a || b] on optional strings. *)
Definition or_else (a : option string) (b : string) : string :=
  match a with
  | Some text => if String.eqb text "" then b else text
  | None => b
  end.

Definition DEFAULT_API_URL : string := or_else API_URL "http://localhost:4000".

Definition resolveApiBaseUrl (explicit : option string) : string :=
  let base := trim (or_else explicit DEFAULT_API_URL) in
  if ApiVirtual.endsWith base "/" then slice_0_minus_1 base else base.

End environment.
End FileUtils.

(** ** Parties: pagination, trees, loading and identifiers (commands/parties.ts) *)

Module PartyTools.
Import Js.

(** *** Pagination *)

(** [PaginatedResult<T>], as far as the loop reads it; page numbers are
    integers. *)
Record PaginatedResult (T : Type) := {
  data : list T;
  currentPage : Z;
  totalPages : Z
}.
Arguments data {T}.
Arguments currentPage {T}.
Arguments totalPages {T}.

(** How the loop ends: with the items, with the error of a request, or
    not within the iterations allowed. *)
Inductive fetched (T : Type) :=
| Fetched (items : list T)
| Failed (e : error)
| Unfinished.
Arguments Fetched {T}.
Arguments Failed {T}.
Arguments Unfinished {T}.

Section paginated.
Variable T : Type.
(** [client.get(url, { params: { ...params, page, pageSize } })]: the
    answer may depend on the pages requested before. *)
Variable client_get : list Z -> Z -> result (PaginatedResult T).

(** The [while (true)] loop of [fetchAllPaginated], for at most [fuel]
    requests; also returns the pages requested, in order. *)
Fixpoint fetch_loop (fuel : nat) (items : list T) (page : Z) (requested : list Z)
    : fetched T * list Z :=
  match fuel with
  | O => (Unfinished, requested)
  | S fuel' =>
      match client_get requested page with
      | Throw e => (Failed e, requested ++ [page])
      | Ok answer =>
          let items := items ++ data answer in
          if (totalPages answer =? 0) || (currentPage answer >=? totalPages answer)
          then (Fetched items, requested ++ [page])
          else fetch_loop fuel' items (currentPage answer + 1) (requested ++ [page])
      end
  end.

Definition fetchAllPaginated (fuel : nat) : fetched T * list Z :=
  fetch_loop fuel [] 1 [].

End paginated.

(** *** Trees *)

Inductive PartyTreeNode :=
| TreeNode (node : Parties.PartyDTO) (children : list PartyTreeNode).

(** [buildTree(parentId, childrenMap, depth, currentDepth)]; the recursion
    goes one level down at each call, for at most [fuel] levels. *)
Fixpoint buildTree (fuel : nat) (parentId : string)
    (childrenMap : gmap string (list Parties.PartyDTO)) (depth currentDepth : Z)
    : list PartyTreeNode :=
  match fuel with
  | O => []
  | S fuel' =>
      if currentDepth >? depth then []
      else
        map (fun child =>
               TreeNode child
                 (buildTree fuel' (Parties.id child) childrenMap depth
                    (currentDepth + 1)))
            (default [] (childrenMap !! parentId))
  end.

(** The number of levels of a forest. *)
Fixpoint height (tree : PartyTreeNode) : nat :=
  match tree with
  | TreeNode _ children => S (fold_right (fun child h => Nat.max (height child) h) O children)
  end.

Definition forest_height (trees : list PartyTreeNode) : nat :=
  fold_right (fun child h => Nat.max (height child) h) O trees.

(** *** Loading a party file *)

(** [PartyYamlInput]: the fields of a node and its children (none when the
    field is absent). *)
Inductive PartyYamlInput :=
| PartyInput (fields : object) (children : list PartyYamlInput).

Definition optional_fields : list string :=
  ["alias"; "aliases"; "metadata"; "utm"; "qrIdentifier"; "externalIdentifier";
   "status"; "balance"; "currency"].

Definition buildPartyPayload (fields : object) (parentId : string) : object :=
  fold_left (fun payload key =>
               match get_prop fields key with
               | VUndefined => payload
               | v => set_prop payload key v
               end)
            optional_fields
            [("name", get_prop fields "name"); ("type", get_prop fields "type");
             ("orgId", VString parentId)].

(** One POST /parties: the payload and the answer. *)
Definition exchange : Type := object * result Parties.PartyDTO.

Section loading.
(** [client.post('/parties', payload)]: the answer may depend on the
    exchanges before. *)
Variable client_post : list exchange -> object -> result Parties.PartyDTO.
Variable dryRun : bool.

(** [processNode(parentId, node, level)], on the log of exchanges. *)
Fixpoint processNode (parentId : string) (node : PartyYamlInput) (log : list exchange)
    : result unit * list exchange :=
  match node with
  | PartyInput fields children =>
      let each :=
        fix each (currentParentId : string) (nodes : list PartyYamlInput)
            (log : list exchange) : result unit * list exchange :=
          match nodes with
          | [] => (Ok tt, log)
          | child :: rest =>
              match processNode currentParentId child log with
              | (Ok _, log') => each currentParentId rest log'
              | (Throw e, log') => (Throw e, log')
              end
          end in
      if dryRun then each parentId children log
      else
        let payload := buildPartyPayload fields parentId in
        let answer := client_post log payload in
        match answer with
        | Throw e => (Throw e, log ++ [(payload, answer)])
        | Ok createdParty =>
            each (Parties.id createdParty) children (log ++ [(payload, answer)])
        end
  end.

(** [for (const node of document.parties) await processNode(parent.id, node, 0)] *)
Fixpoint processNodes (parentId : string) (nodes : list PartyYamlInput)
    (log : list exchange) : result unit * list exchange :=
  match nodes with
  | [] => (Ok tt, log)
  | node :: rest =>
      match processNode parentId node log with
      | (Ok _, log') => processNodes parentId rest log'
      | (Throw e, log') => (Throw e, log')
      end
  end.

End loading.

(** The names of the nodes of a forest, parents before children, and the
    number of its nodes. *)
Fixpoint node_names (node : PartyYamlInput) : list value :=
  match node with
  | PartyInput fields children =>
      get_prop fields "name" :: flat_map node_names children
  end.

(** The identifiers of the parties created by the exchanges. *)
Definition created_ids (log : list exchange) : list string :=
  flat_map (fun entry : exchange =>
              match snd entry with
              | Ok party => [Parties.id party]
              | Throw _ => []
              end) log.

(** Every payload of a log names as [orgId] one of the parties known: those
    given, and those created by the exchanges before it. *)
Fixpoint parents_known (known : list string) (log : list exchange) : Prop :=
  match log with
  | [] => True
  | entry :: rest =>
      (exists parent, In parent known /\ get_prop (fst entry) "orgId" = VString parent)
      /\ parents_known (created_ids [entry] ++ known) rest
  end.

(** *** Identifiers *)

Definition is_hex_or_dash (c : ascii) : bool :=
  let n := N_of_ascii c in
  ((48 <=? n) && (n <=? 57))%N || ((97 <=? n) && (n <=? 102))%N
  || ((65 <=? n) && (n <=? 70))%N || Ascii.eqb c "-".

Definition is_upper (c : ascii) : bool :=
  let n := N_of_ascii c in ((65 <=? n) && (n <=? 90))%N.

(** The class [[A-Za-z0-9_-]]. *)
Definition is_word_or_dash (c : ascii) : bool :=
  let n := N_of_ascii c in
  ((97 <=? n) && (n <=? 122))%N || ((65 <=? n) && (n <=? 90))%N
  || ((48 <=? n) && (n <=? 57))%N || Ascii.eqb c "_" || Ascii.eqb c "-".

(** [/^[0-9a-fA-F-]{36}$/.test(value)] *)
Definition uuidRegex (value : string) : bool :=
  Nat.eqb (String.length value) 36 && all_of is_hex_or_dash value.

(** [/^[A-Z]{3,}-[A-Za-z0-9_-]{6,}$/.test(value)]: the prefix is the whole
    run of capital letters, which a dash has to follow. *)
Definition shortRegex (value : string) : bool :=
  let '(prefix, rest) := span is_upper value in
  Nat.leb 3 (String.length prefix)
  && match rest with
     | String "-" suffix =>
         Nat.leb 6 (String.length suffix) && all_of is_word_or_dash suffix
     | _ => false
     end.

Definition validateIdentifier (label value : string) : result unit :=
  if negb (uuidRegex value) && negb (shortRegex value) then
    Throw (Error (label +:+ " must be a valid UUID or shortId (prefix-XXXXXXXX)."))
  else Ok tt.

End PartyTools.

(** ** Postgres: waiting for the server (commands/postgres.ts) *)

Module PgWait.
Import Js.

Section waiting.
(** The probe of an attempt: [pg_isready] through docker compose in
    [waitForPostgresCompose], [select 1] through psql in
    [waitForPostgresDirect]. *)
Variable probe : nat -> result unit.
Variable attempts : nat.

(** The [for] loop both functions share, from attempt [i] on, [remaining]
    being [attempts - i]; returns the outcome with the numbers of probes
    run and of pauses taken. *)
Fixpoint wait_from (remaining i : nat) (probes sleeps : nat)
    : result unit * nat * nat :=
  match remaining with
  | O => (Ok tt, probes, sleeps)
  | S remaining' =>
      match probe i with
      | Ok _ => (Ok tt, S probes, sleeps)
      | Throw e =>
          if Nat.eqb i (attempts - 1) then (Throw e, S probes, sleeps)
          else wait_from remaining' (S i) (S probes) (S sleeps)
      end
  end.

Definition waitForPostgresCompose : result unit * nat * nat :=
  wait_from attempts 0 0 0.

Definition waitForPostgresDirect : result unit * nat * nat :=
  wait_from attempts 0 0 0.

End waiting.
End PgWait.

(** ** OpenSearch: waiting, the operations index, file contents
    (commands/opensearch.ts) *)

From Stdlib Require QArith.

Module OpenSearchIndex.
Import Js.

(** *** The operations index *)

Inductive http_method := HEAD | DELETE | PUT.

Record request := {
  req_method : http_method;
  req_url : string
}.

(** The error of a failed request, as far as it is read:
    [error?.response?.status]. *)
Record http_error := {
  response_status : option Z
}.

(** What happened to the one index of a server after requests: HEAD asks,
    DELETE removes, PUT creates. *)
Definition index_after (present : bool) (sent : request) : bool :=
  match req_method sent with
  | HEAD => present
  | DELETE => false
  | PUT => true
  end.

(** A server with one index, answering as OpenSearch does: HEAD and DELETE
    fail with 404 when the index is missing, PUT fails with 400 when it is
    there. *)
Definition index_server (initial : bool) (sent : list request) (next : request)
    : option http_error :=
  let present := fold_left index_after sent initial in
  match req_method next with
  | HEAD | DELETE =>
      if present then None else Some {| response_status := Some 404 |}
  | PUT =>
      if present then Some {| response_status := Some 400 |} else None
  end.

Section index.
(** [encodeURIComponent] of the JavaScript runtime. *)
Variable encodeURIComponent : string -> string.
(** A request of axios: [None] when it succeeds, the error it throws
    otherwise; the answer may depend on the requests sent before. *)
Variable axios : list request -> request -> option http_error.

Definition ensureOperationsIndex (endpoint index : string) (reset : bool)
    (sent : list request) : option http_error * list request :=
  let base := OpenSearchBulk.drop_trailing_slash endpoint in
  let indexUrl := base +:+ "/" +:+ encodeURIComponent index in
  let head := {| req_method := HEAD; req_url := indexUrl |} in
  let delete := {| req_method := DELETE; req_url := indexUrl |} in
  let put := {| req_method := PUT; req_url := indexUrl |} in
  let create (sent : list request) := (axios sent put, sent ++ [put]) in
  let found (exists_ : bool) (sent : list request) :=
    if reset && exists_ then
      match axios sent delete with
      | Some e => (Some e, sent ++ [delete])
      | None => create (sent ++ [delete])
      end
    else if exists_ then (None, sent)
    else create sent in
  match axios sent head with
  | None => found true (sent ++ [head])
  | Some e =>
      match response_status e with
      | Some 404 => found false (sent ++ [head])
      | _ => (Some e, sent ++ [head])
      end
  end.

End index.

(** *** Waiting for the server *)

Inductive waited :=
| Responded
| TimedOut (message : string)
| Unfinished.

Section waiting.
(** [String(seconds)] of the JavaScript runtime. *)
Variable Number_toString : Z -> string.
(** The readings of [Date.now()], in the order they are taken. *)
Variable now : nat -> Z.
(** Whether the request of an iteration succeeds. *)
Variable get : nat -> bool.

(** The [while] loop of [waitForOpenSearch] from iteration [k] on, for at
    most [fuel] iterations; also returns the number of requests made.
    Reading 0 of the clock is [start]; iteration [k] takes reading
    [k + 1]. *)
Fixpoint wait_loop (fuel : nat) (start timeoutMs : Z) (k : nat) : option bool * nat :=
  match fuel with
  | O => (None, k)
  | S fuel' =>
      if now (S k) - start <? timeoutMs then
        if get k then (Some true, S k)
        else wait_loop fuel' start timeoutMs (S k)
      else (Some false, k)
  end.

(** [seconds] is a whole number of seconds. *)
Definition waitForOpenSearch (endpoint : string) (seconds : Z) (fuel : nat)
    : waited * nat :=
  let start := now 0 in
  let timeoutMs := seconds * 1000 in
  match wait_loop fuel start timeoutMs 0 with
  | (Some true, requests) => (Responded, requests)
  | (Some false, requests) =>
      (TimedOut ("OpenSearch did not respond within " +:+ Number_toString seconds
                 +:+ "s at " +:+ endpoint), requests)
  | (None, requests) => (Unfinished, requests)
  end.

End waiting.

(** *** The content of a file to load *)

Section loading.
(** [JSON.parse] and [YAML.parse]. *)
Variable JSON_parse : string -> result value.
Variable YAML_parse : string -> result value.

(** [loadFileContent], given the lower-case extension of the path and the
    text of the file; the count is a JavaScript number, here a rational. *)
Definition loadFileContent (ext raw : string) (index : option string)
    : result (string * QArith_base.Q) :=
  let counted (built : result (string * nat)) :=
    do built <- built;
    Ok (fst built, QArith_base.inject_Z (Z.of_nat (snd built))) in
  if PgSeed.includes [".ndjson"; ".jsonl"] ext then
    let payload := if ApiVirtual.endsWith raw OpenSearch.nl then raw
                   else raw +:+ OpenSearch.nl in
    let lines := List.filter OpenSearch.nonblank (split OpenSearch.newline payload) in
    Ok (payload, QArith_base.Qmake (Z.of_nat (length lines)) 2)
  else if String.eqb ext ".json" then
    counted (do parsed <- JSON_parse raw; OpenSearchBulk.buildBulkPayload parsed index)
  else if PgSeed.includes [".yaml"; ".yml"] ext then
    counted (do parsed <- YAML_parse raw; OpenSearchBulk.buildBulkPayload parsed index)
  else
    Throw (Error "Unsupported file type. Use .ndjson, .jsonl, .json, .yaml, or .yml.").

End loading.

End OpenSearchIndex.

(** * Properties *)

(** ** Strings, rendering of numbers, quoted tokens *)

Module JsFacts.
Import Js.

(** Induction over values, through the lists nested in arrays and objects. *)
Section value_induction.
Variable P : value -> Prop.
Hypothesis Hundefined : P VUndefined.
Hypothesis Hnull : P VNull.
Hypothesis Hbool : forall b, P (VBool b).
Hypothesis Hnumber : forall x, P (VNumber x).
Hypothesis Hbigint : forall z, P (VBigInt z).
Hypothesis Hstring : forall s, P (VString s).
Hypothesis Hdate : forall d, P (VDate d).
Hypothesis Harray : forall items, Forall P items -> P (VArray items).
Hypothesis Hobject :
  forall props, Forall (fun kv => P (snd kv)) props -> P (VObject props).

Fixpoint value_nested_ind (v : value) : P v :=
  match v with
  | VUndefined => Hundefined
  | VNull => Hnull
  | VBool b => Hbool b
  | VNumber x => Hnumber x
  | VBigInt z => Hbigint z
  | VString s => Hstring s
  | VDate d => Hdate d
  | VArray items =>
      Harray items
        ((fix go (l : list value) : Forall P l :=
            match l with
            | [] => @List.Forall_nil _ P
            | x :: rest => @List.Forall_cons _ P x rest (value_nested_ind x) (go rest)
            end) items)
  | VObject props =>
      Hobject props
        ((fix go (l : list (string * value)) : Forall (fun kv => P (snd kv)) l :=
            match l with
            | [] => @List.Forall_nil _ _
            | kv :: rest =>
                @List.Forall_cons _ (fun kv => P (snd kv)) kv rest
                  (match kv return P (snd kv) with
                   | (_, x) => value_nested_ind x
                   end)
                  (go rest)
            end) props)
  end.
End value_induction.

Lemma mapM_cons {A B} (f : A -> result B) x (xs : list A) :
  mapM f (x :: xs) =
  match f x with
  | Ok y => match mapM f xs with Ok ys => Ok (y :: ys) | Throw e => Throw e end
  | Throw e => Throw e
  end.
Proof. reflexivity. Qed.

Lemma mapM_Ok {A B} (f : A -> result B) (xs : list A) :
  Forall (fun x => exists y, f x = Ok y) xs -> exists ys, mapM f xs = Ok ys.
Proof.
  induction 1 as [|x xs [y Hy] _ [ys Hys]].
  - now exists [].
  - rewrite mapM_cons, Hy, Hys. now exists (y :: ys).
Qed.

Lemma mapM_length {A B} (f : A -> result B) (xs : list A) ys :
  mapM f xs = Ok ys -> length ys = length xs.
Proof.
  revert ys. induction xs as [|x xs IH]; intros ys; rewrite ?mapM_cons.
  - now intros [= <-].
  - destruct (f x); [|discriminate]. destruct (mapM f xs); [|discriminate].
    intros [= <-]. simpl. f_equal. now apply IH.
Qed.

Lemma app_assoc (a b c : string) : (a +:+ b) +:+ c = a +:+ (b +:+ c).
Proof. induction a as [|x a IH]; simpl; [reflexivity | now rewrite IH]. Qed.

Lemma app_nil_r (a : string) : a +:+ "" = a.
Proof. induction a as [|x a IH]; simpl; [reflexivity | now rewrite IH]. Qed.

Lemma occurs_app c (a b : string) :
  Sql.occurs c (a +:+ b) = Sql.occurs c a || Sql.occurs c b.
Proof.
  induction a as [|x a IH]; simpl; [reflexivity|].
  rewrite IH. now rewrite orb_assoc.
Qed.

Lemma occurs_substring c (s : string) n m :
  Sql.occurs c s = false -> Sql.occurs c (substring n m s) = false.
Proof.
  revert n m. induction s as [|x s IH]; intros n m H.
  - destruct n, m; reflexivity.
  - simpl in H. apply orb_false_iff in H as [Hx Hs].
    destruct n as [|n]; simpl.
    + destruct m as [|m]; simpl; [reflexivity|].
      rewrite Hx. simpl. now apply IH.
    + now apply IH.
Qed.

Lemma occurs_cons c x (s : string) :
  Sql.occurs c (String x s) = Ascii.eqb x c || Sql.occurs c s.
Proof. reflexivity. Qed.

Lemma all_of_app cls (a b : string) :
  all_of cls (a +:+ b) = all_of cls a && all_of cls b.
Proof.
  induction a as [|x a IH]; simpl; [reflexivity|].
  rewrite IH. now rewrite andb_assoc.
Qed.

Lemma all_of_substring cls (s : string) n m :
  all_of cls s = true -> all_of cls (substring n m s) = true.
Proof.
  revert n m. induction s as [|x s IH]; intros n m H.
  - destruct n, m; reflexivity.
  - simpl in H. apply andb_true_iff in H as [Hx Hs].
    destruct n as [|n]; simpl.
    + destruct m as [|m]; simpl; [reflexivity|].
      rewrite Hx. simpl. now apply IH.
    + now apply IH.
Qed.

Lemma all_of_occurs cls (s : string) c :
  all_of cls s = true -> cls c = false -> Sql.occurs c s = false.
Proof.
  intros Hs Hc. induction s as [|x s IH]; simpl in *; [reflexivity|].
  apply andb_true_iff in Hs as [Hx Hs]. rewrite (IH Hs), orb_false_r.
  destruct (Ascii.eqb_spec x c) as [->|]; congruence.
Qed.

Lemma number_chars_zeros n : all_of is_number_char (zeros n) = true.
Proof. induction n; simpl; auto. Qed.

Lemma number_chars_uint d : all_of is_number_char (NilEmpty.string_of_uint d) = true.
Proof. induction d; simpl; auto. Qed.

Lemma number_chars_uint_zero d :
  all_of is_number_char (NilZero.string_of_uint d) = true.
Proof. destruct d; simpl; auto using number_chars_uint. Qed.

Lemma number_chars_Z_toString z : all_of is_number_char (Z_toString z) = true.
Proof.
  unfold Z_toString. destruct (Z.to_int z) as [d|d]; simpl.
  - apply number_chars_uint_zero.
  - apply number_chars_uint_zero.
Qed.

Lemma all_of_cons cls x (s : string) :
  all_of cls (String x s) = cls x && all_of cls s.
Proof. reflexivity. Qed.

Ltac number_chars :=
  repeat (rewrite ?all_of_app, ?all_of_cons, ?number_chars_zeros,
            ?number_chars_uint_zero, ?number_chars_Z_toString;
          rewrite ?all_of_substring by apply number_chars_uint_zero);
  reflexivity.

(** A number is rendered with digits, sign, point and exponent mark, or as
    one of the names NaN and Infinity. *)
Lemma number_chars_Number_toString x :
  all_of is_number_char (Number_toString x) = true.
Proof.
  destruct x as [|neg|neg|neg s n].
  - reflexivity.
  - now destruct neg.
  - reflexivity.
  - unfold Number_toString.
    repeat match goal with
           | |- context [if ?b then _ else _] => destruct b
           end; number_chars.
Qed.

Lemma occurs_Number_toString c x :
  is_number_char c = false -> Sql.occurs c (Number_toString x) = false.
Proof. apply all_of_occurs, number_chars_Number_toString. Qed.

Lemma occurs_Z_toString c z :
  is_number_char c = false -> Sql.occurs c (Z_toString z) = false.
Proof. apply all_of_occurs, number_chars_Z_toString. Qed.

Lemma quotes_closed_no_quote (s : string) :
  Sql.occurs "'" s = false -> Sql.quotes_closed_from false s = true.
Proof.
  induction s as [|c s IH]; simpl; [reflexivity|].
  intros H. apply orb_false_iff in H as [-> Hs]. auto.
Qed.

(** Reading a token body written by doubling its quotes gives back the
    text, and stops at the closing quote. *)
Lemma read_quoted_escaped q (s tail : string) :
  Sql.starts_with q tail = false ->
  Sql.read_quoted q (replace_char q (String q (String q "")) s +:+ String q tail)
  = Some (s, tail).
Proof.
  intros Htail. induction s as [|x s IH]; simpl.
  - rewrite Ascii.eqb_refl. destruct tail as [|c t]; [reflexivity|].
    simpl in Htail. now rewrite Htail.
  - destruct (Ascii.eqb x q) eqn:E.
    + apply Ascii.eqb_eq in E as ->. simpl.
      rewrite !Ascii.eqb_refl, IH. reflexivity.
    + simpl. rewrite E, IH. reflexivity.
Qed.

Lemma read_token_escaped q (s tail : string) :
  Sql.starts_with q tail = false ->
  Sql.read_token q (String q (replace_char q (String q (String q "")) s
                              +:+ String q tail)) = Some (s, tail).
Proof.
  intros H. simpl. rewrite Ascii.eqb_refl. now apply read_quoted_escaped.
Qed.

(** After a complete string constant the scan is outside again. *)
Lemma quotes_closed_escaped (s tail : string) :
  Sql.starts_with "'" tail = false ->
  Sql.quotes_closed_from true (replace_char "'" "''" s +:+ String "'" tail)
  = match tail with
    | EmptyString => true
    | _ => Sql.quotes_closed_from false tail
    end.
Proof.
  intros Htail. induction s as [|x s IH]; simpl.
  - destruct tail as [|c t]; [reflexivity|]. simpl in Htail. now rewrite Htail.
  - destruct (Ascii.eqb x "'") eqn:E; simpl.
    + exact IH.
    + rewrite E. exact IH.
Qed.

(** *** Matchers and global replacement *)

Lemma length_app (a b : string) :
  String.length (a +:+ b) = (String.length a + String.length b)%nat.
Proof. induction a as [|x a IH]; simpl; [reflexivity | now rewrite IH]. Qed.

Lemma strip_prefix_app (p s : string) : strip_prefix p (p +:+ s) = Some s.
Proof.
  induction p as [|x p IH]; simpl; [reflexivity|].
  now rewrite Ascii.eqb_refl.
Qed.

Lemma strip_prefix_length (p s r : string) :
  strip_prefix p s = Some r ->
  String.length s = (String.length p + String.length r)%nat.
Proof.
  revert s. induction p as [|x p IH]; intros s; simpl.
  - now intros [= ->].
  - destruct s as [|y s]; [discriminate|].
    destruct (Ascii.eqb x y); [|discriminate].
    intros H. simpl. f_equal. now apply IH.
Qed.

Lemma strip_prefix_Some (p s r : string) :
  strip_prefix p s = Some r -> s = p +:+ r.
Proof.
  revert s. induction p as [|x p IH]; intros s; simpl.
  - now intros [= ->].
  - destruct s as [|y s]; [discriminate|].
    destruct (Ascii.eqb_spec x y) as [->|]; [|discriminate].
    intros H. f_equal. now apply IH.
Qed.

Lemma span_app cls (run rest : string) :
  all_of cls run = true -> stops cls rest = true ->
  span cls (run +:+ rest) = (run, rest).
Proof.
  intros Hrun Hrest. induction run as [|c run IH]; simpl in *.
  - destruct rest as [|c rest]; [reflexivity|]. simpl in *.
    apply negb_true_iff in Hrest. now rewrite Hrest.
  - apply andb_true_iff in Hrun as [-> Hrun]. now rewrite IH.
Qed.

Lemma span_length cls (s : string) :
  (String.length (snd (span cls s)) <= String.length s)%nat.
Proof.
  induction s as [|c s IH]; simpl; [lia|].
  destruct (cls c); [|simpl; lia].
  destruct (span cls s) as [run tail]. simpl in *. lia.
Qed.

Lemma span_source cls (s : string) :
  s = fst (span cls s) +:+ snd (span cls s).
Proof.
  induction s as [|c s IH]; simpl; [reflexivity|].
  destruct (cls c); [|reflexivity].
  destruct (span cls s) as [run tail]. simpl in *. now f_equal.
Qed.

Lemma span_all cls (s : string) : all_of cls (fst (span cls s)) = true.
Proof.
  induction s as [|c s IH]; simpl; [reflexivity|].
  destruct (cls c) eqn:E; [|reflexivity].
  destruct (span cls s) as [run tail]. simpl in *. now rewrite E.
Qed.

Lemma span_stops cls (s : string) : stops cls (snd (span cls s)) = true.
Proof.
  induction s as [|c s IH]; simpl; [reflexivity|].
  destruct (cls c) eqn:E.
  - destruct (span cls s) as [run tail]. exact IH.
  - simpl. now rewrite E.
Qed.

Lemma skip_spaces_app (ws rest : string) :
  all_of is_space ws = true -> stops is_space rest = true ->
  skip_spaces (ws +:+ rest) = rest.
Proof. intros. unfold skip_spaces. now rewrite span_app. Qed.


Lemma split_app sep (a b : string) :
  Sql.occurs sep a = false ->
  split sep (a +:+ String sep b) = a :: split sep b.
Proof.
  induction a as [|c a IH]; simpl.
  - intros _. now rewrite Ascii.eqb_refl.
  - intros H. apply orb_false_iff in H as [Hc Ha].
    rewrite Hc. now rewrite IH.
Qed.

Lemma split_plain sep (a : string) :
  Sql.occurs sep a = false -> split sep a = [a].
Proof.
  induction a as [|c a IH]; simpl; [reflexivity|].
  intros H. apply orb_false_iff in H as [Hc Ha].
  rewrite Hc. now rewrite IH.
Qed.

Lemma split_no_sep sep (s : string) :
  List.Forall (fun part => Sql.occurs sep part = false) (split sep s).
Proof.
  induction s as [|c s IH]; simpl.
  - repeat constructor.
  - destruct (Ascii.eqb c sep) eqn:E.
    + constructor; [reflexivity | assumption].
    + destruct (split sep s) as [|part parts]; [repeat constructor; simpl; now rewrite E|].
      inversion IH; subst. constructor; [|assumption]. simpl. now rewrite E.
Qed.

Lemma concat_cons2 sep (x y : string) (rest : list string) :
  String.concat sep (x :: y :: rest) = x +:+ sep +:+ String.concat sep (y :: rest).
Proof. reflexivity. Qed.

(** Splitting joined parts that are free of the separator gives the parts
    back. *)
Lemma split_join sep (parts : list string) :
  parts <> [] ->
  List.Forall (fun part => Sql.occurs sep part = false) parts ->
  split sep (join (String sep "") parts) = parts.
Proof.
  intros Hne H. unfold join. induction H as [|x parts Hx Hparts IH]; [congruence|].
  destruct parts as [|y rest].
  - simpl. now apply split_plain.
  - rewrite concat_cons2.
    change (x +:+ String sep "" +:+ String.concat (String sep "") (y :: rest))
      with (x +:+ String sep (String.concat (String sep "") (y :: rest))).
    rewrite split_app by assumption. f_equal. now apply IH.
Qed.

Lemma split_snoc sep (s : string) :
  split sep (s +:+ String sep "") = split sep s ++ [""].
Proof.
  induction s as [|c s IH]; simpl.
  - now rewrite Ascii.eqb_refl.
  - destruct (Ascii.eqb c sep); rewrite IH; [reflexivity|].
    destruct (split sep s) as [|part parts] eqn:E; [|reflexivity].
    exfalso. clear -E. destruct s as [|x s]; simpl in E; [discriminate|].
    destruct (Ascii.eqb x sep); [discriminate|]. now destruct (split sep s).
Qed.

Lemma occurs_join c sep (parts : list string) :
  Sql.occurs c sep = false ->
  List.Forall (fun part => Sql.occurs c part = false) parts ->
  Sql.occurs c (join sep parts) = false.
Proof.
  intros Hsep H. unfold join. induction H as [|x parts Hx Hparts IH]; [reflexivity|].
  destruct parts as [|y rest]; [exact Hx|].
  rewrite concat_cons2, !occurs_app, Hx, Hsep. exact IH.
Qed.

Lemma mapM_Forall2 {A B} (f : A -> result B) (xs : list A) ys :
  mapM f xs = Ok ys -> List.Forall2 (fun x y => f x = Ok y) xs ys.
Proof.
  revert ys. induction xs as [|x xs IH]; intros ys; rewrite ?mapM_cons.
  - intros [= <-]. constructor.
  - destruct (f x) as [y|] eqn:E; [|discriminate].
    destruct (mapM f xs) as [ys'|]; [|discriminate].
    intros [= <-]. constructor; auto.
Qed.

(** Global replacement with a matcher that consumes input. *)
Section replace.
Variable at_ : string -> option (string * string).
Variable f : string -> string.
Hypothesis consumes :
  forall s group rest, at_ s = Some (group, rest) ->
                       (String.length rest < String.length s)%nat.

Lemma replace_from_S (n : nat) (s : string) :
  replace_from at_ f (S n) s =
  match at_ s with
  | Some (group, rest) => f group +:+ replace_from at_ f n rest
  | None =>
      match s with
      | EmptyString => EmptyString
      | String c rest => String c (replace_from at_ f n rest)
      end
  end.
Proof. reflexivity. Qed.

Lemma replace_from_fuel (n m : nat) (s : string) :
  (String.length s < n)%nat -> (String.length s < m)%nat ->
  replace_from at_ f n s = replace_from at_ f m s.
Proof.
  revert m s. induction n as [|n IH]; intros m s Hn Hm; [lia|].
  destruct m as [|m]; [lia|]. rewrite !replace_from_S.
  destruct (at_ s) as [[group rest]|] eqn:E.
  - apply consumes in E. f_equal. apply IH; lia.
  - destruct s as [|c s]; [reflexivity|]. simpl in *. f_equal. apply IH; lia.
Qed.

Lemma String_replace_match (s group rest : string) :
  at_ s = Some (group, rest) ->
  String_replace at_ f s = f group +:+ String_replace at_ f rest.
Proof.
  intros E. unfold String_replace. rewrite replace_from_S, E. f_equal.
  apply consumes in E. apply replace_from_fuel; lia.
Qed.

Lemma String_replace_char (c : ascii) (s : string) :
  at_ (String c s) = None ->
  String_replace at_ f (String c s) = String c (String_replace at_ f s).
Proof.
  intros E. unfold String_replace. rewrite replace_from_S, E. reflexivity.
Qed.

Lemma String_replace_empty : String_replace at_ f "" = "".
Proof.
  unfold String_replace. rewrite replace_from_S.
  destruct (at_ "") as [[group rest]|] eqn:E.
  - apply consumes in E. simpl in E. lia.
  - reflexivity.
Qed.

(** Text without the character that every match starts with is copied. *)
Lemma String_replace_text (trigger : ascii) (t rest : string) :
  (forall c s, Ascii.eqb c trigger = false -> at_ (String c s) = None) ->
  Sql.occurs trigger t = false ->
  String_replace at_ f (t +:+ rest) = t +:+ String_replace at_ f rest.
Proof.
  intros Htrig. induction t as [|c t IH]; simpl; [reflexivity|].
  intros H. apply orb_false_iff in H as [Hc Ht].
  rewrite String_replace_char by now apply Htrig.
  now rewrite IH.
Qed.
End replace.

End JsFacts.

(** ** SQL rendering of seed values and rows *)

Module PgSeedFacts.
Import Js PgSeed JsFacts.

Lemma JSON_stringify_array items :
  JSON_stringify (VArray items) =
  do parts <- mapM (fun item => do s <- JSON_stringify item;
                                Ok (default "null" s)) items;
  Ok (Some ("[" +:+ join "," parts +:+ "]")).
Proof. reflexivity. Qed.

Lemma JSON_stringify_object props :
  JSON_stringify (VObject props) =
  do parts <- mapM (fun kv : string * value =>
                      let '(k, item) := kv in
                      do s <- JSON_stringify item;
                      Ok ((fun str => QuoteJSONString k +:+ ":" +:+ str) <$> s))
                   props;
  Ok (Some ("{" +:+ join "," (omap id parts) +:+ "}")).
Proof. reflexivity. Qed.

(** [JSON.stringify] does not throw on a value without BigInt. *)
Lemma JSON_stringify_total (v : value) :
  bigint_free v = true -> exists o, JSON_stringify v = Ok o.
Proof.
  induction v as [ | | b | x | z | s | d | items IH | props IH ]
    using value_nested_ind; intros Hfree;
    try (simpl; eauto; discriminate).
  - simpl in Hfree. rewrite JSON_stringify_array.
    destruct (mapM_Ok (fun item => do s <- JSON_stringify item; Ok (default "null" s))
                items) as [parts ->]; simpl; eauto.
    rewrite List.forallb_forall in Hfree.
    rewrite List.Forall_forall in *. intros x Hx.
    destruct (IH x Hx) as [o Ho]; [now apply Hfree|].
    rewrite Ho. simpl. eauto.
  - simpl in Hfree. rewrite JSON_stringify_object.
    destruct (mapM_Ok (fun kv : string * value =>
                let '(k, item) := kv in
                do s <- JSON_stringify item;
                Ok ((fun str => QuoteJSONString k +:+ ":" +:+ str) <$> s))
                props) as [parts ->]; simpl; eauto.
    rewrite List.forallb_forall in Hfree.
    rewrite List.Forall_forall in *. intros [k x] Hx.
    destruct (IH _ Hx) as [o Ho]; [exact (Hfree _ Hx)|].
    simpl in Ho. rewrite Ho. simpl. eauto.
Qed.

(** On arrays and objects the result is a string, never [undefined]. *)
Lemma JSON_stringify_container (v : value) :
  bigint_free v = true ->
  (exists items, v = VArray items) \/ (exists props, v = VObject props) ->
  exists json, JSON_stringify v = Ok (Some json).
Proof.
  intros Hfree Hshape. destruct (JSON_stringify_total v Hfree) as [o Ho].
  destruct Hshape as [[items ->]|[props ->]].
  - rewrite JSON_stringify_array in *.
    destruct (mapM _ items); simpl in *; [|discriminate]. eauto.
  - rewrite JSON_stringify_object in *.
    destruct (mapM _ props); simpl in *; [|discriminate]. eauto.
Qed.

Lemma quote_literal_read (s tail : string) :
  Sql.starts_with "'" tail = false ->
  Sql.read_token "'" (quote_literal s +:+ tail) = Some (s, tail).
Proof.
  intros H. unfold quote_literal.
  change ("'" +:+ replace_char "'" "''" s +:+ "'")
    with (String "'" (replace_char "'" "''" s +:+ "'")).
  change (String "'" (replace_char "'" "''" s +:+ "'") +:+ tail)
    with (String "'" ((replace_char "'" "''" s +:+ "'") +:+ tail)).
  rewrite app_assoc. now apply read_token_escaped.
Qed.

Lemma quote_literal_closed (s tail : string) :
  Sql.occurs "'" tail = false ->
  Sql.no_unescaped_quote (quote_literal s +:+ tail) = true.
Proof.
  intros H. unfold quote_literal, Sql.no_unescaped_quote.
  change ("'" +:+ replace_char "'" "''" s +:+ "'")
    with (String "'" (replace_char "'" "''" s +:+ "'")).
  change (String "'" (replace_char "'" "''" s +:+ "'") +:+ tail)
    with (String "'" ((replace_char "'" "''" s +:+ "'") +:+ tail)).
  rewrite app_assoc.
  change (Sql.quotes_closed_from true
            (replace_char "'" "''" s +:+ String "'" tail) = true).
  rewrite quotes_closed_escaped.
  - destruct tail; [reflexivity|]. now apply quotes_closed_no_quote.
  - destruct tail as [|c t]; [reflexivity|]. simpl in *.
    now apply orb_false_iff in H as [-> _].
Qed.

Lemma quoteIdentifier_read (ident : string) :
  Sql.read_token dquote (quoteIdentifier ident) = Some (ident, "").
Proof.
  unfold quoteIdentifier.
  change (dq +:+ replace_char dquote (dq +:+ dq) ident +:+ dq)
    with (String dquote (replace_char dquote (String dquote (String dquote "")) ident
                         +:+ String dquote "")).
  now apply read_token_escaped.
Qed.

(** Whatever [toSqlValue] returns is the literal of its argument, and has
    no unescaped quote. *)
Lemma toSqlValue_literal (v : value) (lit : string) :
  is_raw_sql v = false -> toSqlValue v = Ok lit ->
  literal_of v lit /\ Sql.no_unescaped_quote lit = true.
Proof.
  intros Hraw H.
  destruct v as [ | | b | x | z | s | d | items | props ].
  - injection H as <-. now split.
  - injection H as <-. now split.
  - destruct b; injection H as <-; now split.
  - simpl in H. destruct (Number_isFinite x) eqn:Hfin; simpl in H; [|discriminate].
    injection H as <-.
    pose proof (occurs_Number_toString "'" x eq_refl) as Hq.
    repeat split; auto. now apply quotes_closed_no_quote.
  - injection H as <-. pose proof (occurs_Z_toString "'" z eq_refl) as Hq.
    repeat split; auto. now apply quotes_closed_no_quote.
  - injection H as <-. unfold literal_of. split.
    + rewrite <- (app_nil_r (quote_literal s)). now apply quote_literal_read.
    + rewrite <- (app_nil_r (quote_literal s)). now apply quote_literal_closed.
  - unfold toSqlValue in H. unfold literal_of.
    destruct (date_toISOString d) as [iso|]; [|discriminate].
    injection H as <-. split.
    + exists iso. split; [reflexivity|].
      rewrite <- (app_nil_r (quote_literal iso)). now apply quote_literal_read.
    + rewrite <- (app_nil_r (quote_literal iso)). now apply quote_literal_closed.
  - unfold toSqlValue in H. rewrite Hraw in H.
    destruct (JSON_stringify (VArray items)) as [[json|]|e] eqn:Hjson;
      cbn [bind] in H; try discriminate.
    injection H as <-. split.
    + exists json. split; [exact Hjson|]. now apply quote_literal_read.
    + now apply quote_literal_closed.
  - unfold toSqlValue in H. rewrite Hraw in H.
    destruct (JSON_stringify (VObject props)) as [[json|]|e] eqn:Hjson;
      cbn [bind] in H; try discriminate.
    injection H as <-. split.
    + exists json. split; [exact Hjson|]. now apply quote_literal_read.
    + now apply quote_literal_closed.
Qed.

(** C8.  On every value other than the [{sql: ...}] escape hatch, what
    [toSqlValue] returns is a literal without unescaped single quote: NULL
    for null and undefined, TRUE/FALSE for booleans, the bare rendering of
    finite numbers and bigints, and for strings, dates and JSON-serialised
    containers a quoted constant whose quotes are doubled, so that it reads
    back as exactly the source text.  On the values the seed pipeline can
    hand over it does return one, the only exception it raises being the
    one for non-finite numbers.  [quoteIdentifier] writes a delimited
    identifier that reads back as the identifier. *)
Theorem toSqlValue_quotes_safe :
  (forall v lit, is_raw_sql v = false -> toSqlValue v = Ok lit ->
     literal_of v lit /\ Sql.no_unescaped_quote lit = true)
  /\ (forall v, seed_value v = true -> is_raw_sql v = false ->
     match toSqlValue v with
     | Ok lit => literal_of v lit /\ Sql.no_unescaped_quote lit = true
     | Throw e => exists x, v = VNumber x /\ Number_isFinite x = false
                            /\ e = Error "Invalid number value in seed YAML."
     end)
  /\ (forall x, Number_isFinite x = false ->
        toSqlValue (VNumber x) = Throw (Error "Invalid number value in seed YAML."))
  /\ (forall ident, Sql.read_token dquote (quoteIdentifier ident) = Some (ident, "")).
Proof.
  split; [exact toSqlValue_literal|]. split; [|split].
  - intros v Hseed Hraw.
    destruct v as [ | | b | x | z | s | d | items | props ].
    + now split.
    + now split.
    + destruct b; now split.
    + simpl. destruct (Number_isFinite x) eqn:Hfin; simpl.
      * pose proof (occurs_Number_toString "'" x eq_refl) as Hq.
        repeat split; auto. now apply quotes_closed_no_quote.
      * eauto.
    + simpl. pose proof (occurs_Z_toString "'" z eq_refl) as Hq.
      repeat split; auto. now apply quotes_closed_no_quote.
    + unfold toSqlValue, literal_of. split.
      * rewrite <- (app_nil_r (quote_literal s)). now apply quote_literal_read.
      * rewrite <- (app_nil_r (quote_literal s)). now apply quote_literal_closed.
    + unfold toSqlValue, literal_of, seed_value in *.
      destruct (date_toISOString d) as [iso|] eqn:Hiso.
      * split.
        -- exists iso. split; [reflexivity|].
           rewrite <- (app_nil_r (quote_literal iso)). now apply quote_literal_read.
        -- rewrite <- (app_nil_r (quote_literal iso)). now apply quote_literal_closed.
      * apply bool_decide_eq_true in Hseed. now destruct Hseed.
    + destruct (JSON_stringify_container (VArray items)) as [json Hjson]; eauto.
      unfold toSqlValue. rewrite Hraw, Hjson. simpl. split.
      * exists json. split; [exact Hjson|]. now apply quote_literal_read.
      * now apply quote_literal_closed.
    + destruct (JSON_stringify_container (VObject props)) as [json Hjson]; eauto.
      unfold toSqlValue. rewrite Hraw, Hjson. simpl. split.
      * exists json. split; [exact Hjson|]. now apply quote_literal_read.
      * now apply quote_literal_closed.
  - intros x Hx. simpl. now rewrite Hx.
  - apply quoteIdentifier_read.
Qed.

(** The theorem at a string that holds a quote. *)
Lemma toSqlValue_quotes_safe_witness :
  seed_value (VString "O'Brien") = true
  /\ is_raw_sql (VString "O'Brien") = false
  /\ match toSqlValue (VString "O'Brien") with
     | Ok lit =>
         literal_of (VString "O'Brien") lit /\ Sql.no_unescaped_quote lit = true
     | Throw e =>
         exists x, VString "O'Brien" = VNumber x /\ Number_isFinite x = false
                   /\ e = Error "Invalid number value in seed YAML."
     end.
Proof.
  split; [reflexivity|]. split; [reflexivity|].
  exact (proj1 (proj2 toSqlValue_quotes_safe) (VString "O'Brien") eq_refl eq_refl).
Defined.

(** *** Rows *)

Lemma includes_In (xs : list string) (x : string) :
  includes xs x = true <-> In x xs.
Proof.
  unfold includes. rewrite List.existsb_exists. split.
  - intros (y & Hy & E). apply String.eqb_eq in E. now subst.
  - intros H. exists x. split; [assumption | apply String.eqb_refl].
Qed.

Lemma lookup_prop_NoDup (o : object) k v :
  List.NoDup (Object_keys o) -> In (k, v) o -> lookup_prop o k = Some v.
Proof.
  induction o as [|[k' v'] o IH]; simpl; [tauto|].
  intros Hnd [E|Hin].
  - inversion E; subst. now rewrite String.eqb_refl.
  - apply List.NoDup_cons_iff in Hnd as [Hnotin Hnd].
    destruct (String.eqb_spec k' k) as [->|_].
    + exfalso. apply Hnotin. unfold Object_keys.
      change k with (fst (k, v)). now apply List.in_map.
    + now apply IH.
Qed.

(** Reading every key of an object gives its values in order. *)
Lemma get_prop_keys (o : object) :
  List.NoDup (Object_keys o) -> map (get_prop o) (Object_keys o) = map snd o.
Proof.
  intros Hnd. unfold Object_keys. rewrite List.map_map.
  apply List.map_ext_in. intros [k v] Hin. unfold get_prop. simpl.
  now rewrite (lookup_prop_NoDup o k v Hnd Hin).
Qed.

Lemma mapM_map {A B C} (f : B -> result C) (g : A -> B) (xs : list A) :
  mapM (fun x => f (g x)) xs = mapM f (map g xs).
Proof.
  induction xs as [|x xs IH]; [reflexivity|].
  simpl map. rewrite !mapM_cons, IH. reflexivity.
Qed.

Lemma sublist_filter_bool {A} (f : A -> bool) (l : list A) :
  sublist (List.filter f l) l.
Proof.
  induction l as [|x l IH]; simpl; [constructor|].
  destruct (f x); now constructor.
Qed.

Lemma filter_nil_iff {A} (f : A -> bool) (l : list A) :
  List.filter f l = [] <-> List.Forall (fun x => f x = false) l.
Proof.
  induction l as [|x l IH]; simpl.
  - split; constructor.
  - destruct (f x) eqn:E; split.
    + discriminate.
    + intros H. inversion H; congruence.
    + intros H. constructor; [assumption | now apply IH].
    + intros H. inversion H; subst. now apply IH.
Qed.

Lemma length_zero {A} (l : list A) : Nat.eqb (length l) 0 = true <-> l = [].
Proof. destruct l; simpl; split; congruence. Qed.

(** C1 (as amended).  For a row with at least one column whose values
    [toSqlValue] renders, [buildInsertSql] returns an INSERT statement
    listing the row's keys and the renderings of its values in row order;
    without upsert keys the statement ends there; with upsert keys it goes
    on with ON CONFLICT over exactly those keys, followed by DO NOTHING
    when every column is an upsert key and otherwise by DO UPDATE SET
    col = EXCLUDED.col for exactly the columns that are not upsert keys, in
    row order.  A row without columns raises, and so does a row one of
    whose values [toSqlValue] rejects (a non-finite number). *)
Theorem buildInsertSql_statement (table : string) (row : object)
    (upsertBy : option (list string)) :
  List.NoDup (Object_keys row) ->
  (row = [] ->
     buildInsertSql table row upsertBy =
     Throw (Error ("Seed row for table " +:+ dq +:+ table +:+ dq
                   +:+ " has no columns.")))
  /\ (forall e, row <> [] -> mapM toSqlValue (map snd row) = Throw e ->
        buildInsertSql table row upsertBy = Throw e)
  /\ (forall values, row <> [] -> mapM toSqlValue (map snd row) = Ok values ->
        exists tail,
          buildInsertSql table row upsertBy =
          Ok (insert_head table (Object_keys row) values +:+ tail)
          /\ match upsertBy with
             | None | Some [] => tail = ";"
             | Some keys =>
                 (List.Forall (fun col => In col keys) (Object_keys row) ->
                    tail = on_conflict keys +:+ " DO NOTHING;")
                 /\ (~ List.Forall (fun col => In col keys) (Object_keys row) ->
                       exists updates,
                         sublist updates (Object_keys row)
                         /\ (forall col, In col updates <->
                                          In col (Object_keys row) /\ ~ In col keys)
                         /\ tail = on_conflict keys +:+ " DO UPDATE SET "
                                   +:+ join ", " (map excluded_assignment updates)
                                   +:+ ";")
             end).
Proof.
  intros Hnd.
  assert (Hvals : mapM (fun col => toSqlValue (get_prop row col)) (Object_keys row)
                  = mapM toSqlValue (map snd row)).
  { rewrite (mapM_map toSqlValue (get_prop row)). now rewrite get_prop_keys. }
  assert (Hlen : row <> [] -> Nat.eqb (length (Object_keys row)) 0 = false).
  { destruct row; [congruence | reflexivity]. }
  split; [|split].
  - intros ->. reflexivity.
  - intros e Hne He. unfold buildInsertSql.
    rewrite (Hlen Hne), Hvals, He. reflexivity.
  - intros values Hne Hok. unfold buildInsertSql.
    rewrite (Hlen Hne), Hvals, Hok. cbn [bind].
    destruct upsertBy as [[|key keys]|].
    + exists ";". split; reflexivity.
    + cbn [length Nat.eqb].
      set (ks := key :: keys).
      set (updates := List.filter (fun col => negb (includes ks col)) (Object_keys row)).
      destruct (Nat.eqb (length updates) 0) eqn:Hupd.
      * exists (on_conflict ks +:+ " DO NOTHING;"). split.
        -- unfold insert_head, on_conflict. now rewrite !app_assoc.
        -- split; [reflexivity|]. intros Hnot. exfalso. apply Hnot.
           apply length_zero, filter_nil_iff in Hupd.
           eapply List.Forall_impl; [|exact Hupd]. intros col Hcol. cbv beta in Hcol.
           apply negb_false_iff in Hcol. now apply includes_In.
      * exists (on_conflict ks +:+ " DO UPDATE SET "
                +:+ join ", " (map excluded_assignment updates) +:+ ";").
        split; [|split].
        -- unfold insert_head, on_conflict, excluded_assignment.
           now rewrite !app_assoc.
        -- intros Hall. exfalso.
           assert (Hnil : updates = []).
           { apply filter_nil_iff. eapply List.Forall_impl; [|exact Hall].
             intros col Hcol. cbv beta. apply negb_false_iff. now apply includes_In. }
           rewrite Hnil in Hupd. discriminate.
        -- intros _. exists updates. split; [apply sublist_filter_bool|].
           split; [|reflexivity].
           intros col. unfold updates. rewrite List.filter_In.
           rewrite negb_true_iff, <- not_true_iff_false, includes_In. tauto.
    + exists ";". split; reflexivity.
Qed.

(** The theorem at a row of two columns upserted by the first. *)
Lemma buildInsertSql_statement_witness :
  List.NoDup (Object_keys [("id", VString "u1"); ("name", VString "Ann")])
  /\ exists tail,
       buildInsertSql "User" [("id", VString "u1"); ("name", VString "Ann")]
         (Some ["id"])
       = Ok (insert_head "User" ["id"; "name"] ["'u1'"; "'Ann'"] +:+ tail)
       /\ exists updates,
            (forall col, In col updates <->
                         In col ["id"; "name"] /\ ~ In col ["id"])
            /\ tail = on_conflict ["id"] +:+ " DO UPDATE SET "
                      +:+ join ", " (map excluded_assignment updates) +:+ ";".
Proof.
  assert (Hnd : List.NoDup (Object_keys [("id", VString "u1"); ("name", VString "Ann")])).
  { repeat constructor; simpl; intuition discriminate. }
  split; [exact Hnd|].
  destruct (buildInsertSql_statement "User" _ (Some ["id"]) Hnd) as (_ & _ & H).
  destruct (H ["'u1'"; "'Ann'"]) as (tail & E & _ & Hupdate);
    [discriminate | reflexivity |].
  exists tail. split; [exact E|].
  destruct Hupdate as (updates & _ & Hcols & Htail).
  - intros Hall. apply List.Forall_cons_iff in Hall as [_ Hall].
    apply List.Forall_cons_iff in Hall as [[Heq|[]] _]. discriminate Heq.
  - exists updates. split; assumption.
Defined.

(** A row holding a non-finite number has a column, yet no INSERT
    statement is produced for it. *)
Lemma buildInsertSql_nan_row :
  [("amount", VNumber NaN)] <> @nil (string * value)
  /\ buildInsertSql "Account" [("amount", VNumber NaN)] (Some ["id"])
     = Throw (Error "Invalid number value in seed YAML.")
  /\ ~ exists sql, buildInsertSql "Account" [("amount", VNumber NaN)] (Some ["id"])
                   = Ok sql.
Proof.
  split; [discriminate|]. split; [reflexivity|]. intros [sql H]. discriminate H.
Qed.

End PgSeedFacts.

(** ** Variable interpolation of seed documents *)

Module SeedVarsFacts.
Import Js PgSeed JsFacts.













Lemma concat_cons (x : string) (xs : list string) :
  String.concat "" (x :: xs) = x +:+ String.concat "" xs.
Proof. destruct xs; simpl; [now rewrite app_nil_r | reflexivity]. Qed.



(** *** Paths and objects *)

Lemma set_prop_fresh (o : object) key item :
  ~ In key (Object_keys o) -> set_prop o key item = o ++ [(key, item)].
Proof.
  induction o as [|[k v] o IH]; simpl; [reflexivity|].
  intros H. destruct (String.eqb_spec k key) as [->|]; [tauto|].
  f_equal. apply IH. tauto.
Qed.

(** Assigning the entries of an object to a fresh object, in order,
    rebuilds the entries with the new items. *)
Lemma assign_entries (g : value -> value) (props acc : object) :
  List.NoDup (Object_keys acc ++ Object_keys props) ->
  fold_left (fun result entry => let '(key, item) := entry in
                                 set_prop result key (g item)) props acc
  = acc ++ map (fun entry => (fst entry, g (snd entry))) props.
Proof.
  revert acc. induction props as [|[k v] props IH]; intros acc Hnd; simpl.
  - now rewrite List.app_nil_r.
  - assert (Hfresh : ~ In k (Object_keys acc)).
    { apply List.NoDup_remove_2 in Hnd. intros Hin. apply Hnd.
      apply List.in_or_app. now left. }
    rewrite set_prop_fresh by assumption. rewrite IH.
    + now rewrite <- List.app_assoc.
    + unfold Object_keys in *. rewrite List.map_app. simpl.
      rewrite <- List.app_assoc. exact Hnd.
Qed.









End SeedVarsFacts.

(** ** The seed run: order of execution, references, scoping *)

Module PgRunFacts.
Import Js PgSeed JsFacts.

Section world.
Variable Number_of_text : string -> number.
Variable environment : Environment.
Variable psql : list event -> event -> result string.

Abbreviation M := PgSeed.M.
Abbreviation spawn_psql := (PgSeed.spawn_psql psql).
Abbreviation runPsqlWithRuntime := (PgSeed.runPsqlWithRuntime psql).
Abbreviation runPsqlWithRuntimeCapture := (PgSeed.runPsqlWithRuntimeCapture psql).
Abbreviation resolveSeedRef := (PgSeed.resolveSeedRef psql).
Abbreviation resolveSeedRow := (PgSeed.resolveSeedRow psql).
Abbreviation insertRow := (PgSeed.insertRow psql).
Abbreviation insertRows := (PgSeed.insertRows psql).
Abbreviation applyTableSeed := (PgSeed.applyTableSeed psql).
Abbreviation applyTableSeeds := (PgSeed.applyTableSeeds psql).
Abbreviation applySeedOperation := (PgSeed.applySeedOperation psql).
Abbreviation applySeedOperations := (PgSeed.applySeedOperations psql).
Abbreviation applyYamlSeedForDatabase := (PgSeed.applyYamlSeedForDatabase psql).
Abbreviation resolvePostgresRuntime :=
  (PgSeed.resolvePostgresRuntime Number_of_text environment).
Abbreviation applyDatabaseEntry :=
  (PgSeed.applyDatabaseEntry Number_of_text environment psql).
Abbreviation applyYamlSeed := (PgSeed.applyYamlSeed Number_of_text environment psql).
Abbreviation table_steps := (PgSeed.table_steps psql).
Abbreviation operation_steps := (PgSeed.operation_steps psql).
Abbreviation scope_steps := (PgSeed.scope_steps psql).
Abbreviation database_steps := (PgSeed.database_steps Number_of_text environment psql).
Abbreviation plan := (PgSeed.plan Number_of_text environment psql).
Abbreviation entry_runtime := (PgSeed.entry_runtime Number_of_text environment).

(** *** Sequencing *)

Lemma bindM_eq {A B} (m : M A) (k : A -> M B) trace :
  bindM m k trace =
  match m trace with
  | (Ok a, trace') => k a trace'
  | (Throw e, trace') => (Throw e, trace')
  end.
Proof. reflexivity. Qed.

Lemma forM__cons {A} (body : A -> M unit) x xs :
  forM_ body (x :: xs) = bindM (body x) (fun _ => forM_ body xs).
Proof. reflexivity. Qed.

Lemma seq_cons (step : M unit) steps trace :
  seq (step :: steps) trace =
  match step trace with
  | (Ok _, trace') => seq steps trace'
  | (Throw e, trace') => (Throw e, trace')
  end.
Proof. reflexivity. Qed.

Lemma seq_one (step : M unit) trace : seq [step] trace = step trace.
Proof.
  rewrite seq_cons. destruct (step trace) as [[[]|e] trace']; reflexivity.
Qed.

Lemma seq_app (xs ys : list (M unit)) trace :
  seq (xs ++ ys) trace =
  match seq xs trace with
  | (Ok _, trace') => seq ys trace'
  | (Throw e, trace') => (Throw e, trace')
  end.
Proof.
  revert trace. induction xs as [|x xs IH]; intros trace; [reflexivity|].
  simpl app. rewrite !seq_cons.
  destruct (x trace) as [[[]|e] trace']; [apply IH | reflexivity].
Qed.

(** A loop whose body is a sequence of steps is the sequence of all the
    steps, iteration after iteration. *)
Lemma forM__steps {A} (body : A -> M unit) (steps : A -> list (M unit)) xs :
  (forall x trace, body x trace = seq (steps x) trace) ->
  forall trace, forM_ body xs trace = seq (concat (map steps xs)) trace.
Proof.
  intros Hbody. induction xs as [|x xs IH]; intros trace; [reflexivity|].
  rewrite forM__cons, bindM_eq. simpl concat. rewrite seq_app, Hbody.
  destruct (seq (steps x) trace) as [[[]|e] trace']; [apply IH | reflexivity].
Qed.

Lemma forM__map {A} (body : A -> M unit) xs trace :
  forM_ body xs trace = seq (map body xs) trace.
Proof.
  revert trace. induction xs as [|x xs IH]; intros trace; [reflexivity|].
  rewrite forM__cons, bindM_eq. simpl map. rewrite seq_cons.
  destruct (body x trace) as [[[]|e] trace']; [apply IH | reflexivity].
Qed.

(** *** What a computation adds to the trace *)

Lemma emits_ret {A} P (a : A) : emits P (ret a).
Proof. intros trace. exists []. split; [symmetry; apply List.app_nil_r | constructor]. Qed.

Lemma emits_throw {A} P e : emits P (@throw A e).
Proof. intros trace. exists []. split; [symmetry; apply List.app_nil_r | constructor]. Qed.

Lemma emits_lift {A} P (r : result A) : emits P (lift r).
Proof. intros trace. exists []. split; [symmetry; apply List.app_nil_r | constructor]. Qed.

Lemma emits_spawn (P : event -> Prop) ev : P ev -> emits P (spawn_psql ev).
Proof. intros H trace. exists [ev]. split; [reflexivity | now repeat constructor]. Qed.

Lemma emits_bind {A B} P (m : M A) (k : A -> M B) :
  emits P m -> (forall a, emits P (k a)) -> emits P (bindM m k).
Proof.
  intros Hm Hk trace. rewrite bindM_eq.
  destruct (Hm trace) as (added & E & HP).
  destruct (m trace) as [[a|e] trace']; simpl in E; subst trace'.
  - destruct (Hk a (trace ++ added)) as (added' & E' & HP').
    exists (added ++ added'). split.
    + now rewrite E', List.app_assoc.
    + now apply List.Forall_app.
  - now exists added.
Qed.

Lemma emits_forM_ {A} P (body : A -> M unit) xs :
  (forall x, emits P (body x)) -> emits P (forM_ body xs).
Proof.
  intros Hbody. induction xs as [|x xs IH].
  - apply emits_ret.
  - rewrite forM__cons. apply emits_bind; auto.
Qed.

Lemma emits_weaken {A} (P Q : event -> Prop) (m : M A) :
  (forall ev, P ev -> Q ev) -> emits P m -> emits Q m.
Proof.
  intros HPQ Hm trace. destruct (Hm trace) as (added & E & HP).
  exists added. split; [assumption|]. eapply List.Forall_impl; eauto.
Qed.


(** The trace after a sequence is the initial trace followed by the
    segments of its steps, in order. *)
Lemma seq_segments (steps : list (M unit)) :
  List.Forall (emits (fun _ => True)) steps ->
  forall trace, snd (seq steps trace) = trace ++ concat (segments steps trace).
Proof.
  induction 1 as [|step steps Hstep _ IH]; intros trace.
  - simpl. now rewrite List.app_nil_r.
  - rewrite seq_cons. simpl segments.
    destruct (Hstep trace) as (added & E & _).
    destruct (step trace) as [[[]|e] trace']; simpl in E; subst trace'.
    + rewrite IH. simpl concat.
      rewrite drop_app_length. now rewrite List.app_assoc.
    + simpl. rewrite drop_app_length. now rewrite List.app_nil_r.
Qed.

(** *** Every subprocess of a scope runs on its database and runtime *)

Section scope.
Variable runtime : PostgresRuntime.
Variable db : string.

Lemma emits_runPsqlWithRuntime sql :
  emits (on_database runtime db) (runPsqlWithRuntime runtime db sql).
Proof.
  unfold PgSeed.runPsqlWithRuntime.
  destruct (mode runtime); [|destruct (missing_host runtime)];
    try apply emits_throw;
    (apply emits_bind; [apply emits_spawn; now split | intros; apply emits_ret]).
Qed.

Lemma emits_runPsqlWithRuntimeCapture sql :
  emits (on_database runtime db) (runPsqlWithRuntimeCapture runtime db sql).
Proof.
  unfold PgSeed.runPsqlWithRuntimeCapture.
  destruct (mode runtime); [|destruct (missing_host runtime)];
    try apply emits_throw; apply emits_spawn; now split.
Qed.

Lemma emits_resolveSeedRef ref :
  emits (on_database runtime db) (resolveSeedRef runtime db ref).
Proof.
  unfold PgSeed.resolveSeedRef.
  apply emits_bind; [apply emits_lift | intros clauses].
  apply emits_bind; [apply emits_runPsqlWithRuntimeCapture | intros output].
  destruct (String.eqb (trim output) ""); [apply emits_throw|].
  destruct (is_integer_text (trim output)); apply emits_ret.
Qed.

Lemma emits_resolveSeedRow row :
  emits (on_database runtime db) (resolveSeedRow runtime db row).
Proof.
  unfold PgSeed.resolveSeedRow. generalize (@nil (string * value)).
  induction row as [|[key v] row IH]; intros resolved.
  - apply emits_ret.
  - destruct (isSeedRef v); [|apply IH].
    destruct (decode_ref (get v "ref")); [|apply emits_throw].
    apply emits_bind; [apply emits_resolveSeedRef | intros found; apply IH].
Qed.

Lemma emits_insertRow table upsertBy row :
  emits (on_database runtime db) (insertRow runtime db table upsertBy row).
Proof.
  unfold PgSeed.insertRow.
  apply emits_bind; [apply emits_resolveSeedRow | intros resolved].
  apply emits_bind; [apply emits_lift | intros sql].
  apply emits_runPsqlWithRuntime.
Qed.

Lemma emits_applySeedOperation operation :
  emits (on_database runtime db) (applySeedOperation runtime db operation).
Proof.
  unfold PgSeed.applySeedOperation.
  repeat first
    [ apply emits_throw
    | apply emits_ret
    | apply emits_lift
    | apply emits_runPsqlWithRuntime
    | apply emits_resolveSeedRow
    | apply emits_forM_; intros; apply emits_insertRow
    | apply emits_bind; [|intros]
    | match goal with
      | |- emits _ (match ?x with _ => _ end) => destruct x
      | |- emits _ (if ?x then _ else _) => destruct x
      end ].
Qed.

(** The rows of a table, and the rows of an insert, are one step each. *)
Lemma applyTableSeed_steps entry trace :
  applyTableSeed runtime db entry trace = seq (table_steps runtime db entry) trace.
Proof.
  destruct entry as [table config].
  unfold PgSeed.applyTableSeed, PgSeed.table_steps.
  destruct (decode_table config) as [cfg|]; [|now rewrite seq_one].
  destruct (default [] (t_rows cfg)) as [|row rows] eqn:Hrows; [reflexivity|].
  cbn [length Nat.eqb].
  set (action := default _ (t_action cfg)).
  assert (Haction : action =
            default (match default [] (t_upsertBy cfg) with
                     | [] => "insert" | _ => "upsert" end) (t_action cfg)).
  { unfold action. now destruct (default [] (t_upsertBy cfg)). }
  rewrite <- Haction. clear Haction.
  unfold includes. cbn [existsb].
  destruct (String.eqb action "insert") eqn:Hi; cbn [orb negb].
  - apply String.eqb_eq in Hi. rewrite Hi. cbn [String.eqb Ascii.eqb].
    apply forM__map.
  - destruct (String.eqb action "upsert") eqn:Hu; cbn [orb negb].
    + apply forM__map.
    + now rewrite seq_one.
Qed.

Lemma applySeedOperation_steps operation trace :
  applySeedOperation runtime db operation trace
  = seq (operation_steps runtime db operation) trace.
Proof.
  unfold PgSeed.operation_steps.
  destruct (decode_operation operation) as [op|] eqn:Hop; [|now rewrite seq_one].
  destruct (op_table op) as [table|] eqn:Htable; [|now rewrite seq_one].
  destruct (op_rows op) as [[|row rows]|] eqn:Hrows; try now rewrite seq_one.
  destruct (String.eqb table "") eqn:Hempty; [now rewrite seq_one|].
  destruct (String.eqb (String_ (op_type op)) "insert") eqn:Hi.
  - unfold PgSeed.applySeedOperation.
    rewrite Hop, Htable, Hempty, Hi, Hrows. cbn [orb default length Nat.eqb].
    apply String.eqb_eq in Hi. rewrite Hi. cbn [String.eqb Ascii.eqb].
    apply forM__map.
  - destruct (String.eqb (String_ (op_type op)) "upsert") eqn:Hu;
      [|now rewrite seq_one].
    unfold PgSeed.applySeedOperation.
    rewrite Hop, Htable, Hempty, Hi, Hu, Hrows. cbn [orb default length Nat.eqb].
    apply forM__map.
Qed.

Lemma applyYamlSeedForDatabase_steps tables operations trace :
  applyYamlSeedForDatabase runtime db (Some tables) (Some operations) trace
  = seq (scope_steps runtime db tables operations) trace.
Proof.
  unfold PgSeed.applyYamlSeedForDatabase, PgSeed.scope_steps.
  assert (Htables : forall t, applyTableSeeds runtime db tables t
                    = seq (concat (map (table_steps runtime db) tables)) t).
  { apply forM__steps. apply applyTableSeed_steps. }
  assert (Hops : forall t, applySeedOperations runtime db operations t
                 = seq (concat (map (operation_steps runtime db) operations)) t).
  { apply forM__steps. apply applySeedOperation_steps. }
  rewrite seq_app, <- Htables.
  unfold Object_keys. rewrite List.length_map.
  change (default [] (Some operations)) with operations.
  change (default [] (Some tables)) with tables.
  destruct tables as [|table tables], operations as [|operation operations];
    cbn [length Nat.eqb andb negb]; rewrite ?bindM_eq.
  - reflexivity.
  - change (applyTableSeeds runtime db [] trace) with (@Ok unit tt, trace).
    change (ret tt trace) with (@Ok unit tt, trace).
    apply Hops.
  - destruct (applyTableSeeds runtime db (table :: tables) trace) as [[[]|e] t];
      reflexivity.
  - destruct (applyTableSeeds runtime db (table :: tables) trace) as [[[]|e] t];
      [apply Hops | reflexivity].
Qed.

Lemma emits_scope_steps tables operations :
  List.Forall (emits (on_database runtime db))
              (scope_steps runtime db tables operations).
Proof.
  unfold PgSeed.scope_steps. apply List.Forall_app. split.
  - apply List.Forall_concat, List.Forall_map, List.Forall_forall.
    intros [table config] _. unfold PgSeed.table_steps.
    repeat match goal with
           | |- List.Forall _ (match ?x with _ => _ end) => destruct x
           | |- List.Forall _ (if ?x then _ else _) => destruct x
           | |- List.Forall _ [] => constructor
           | |- List.Forall _ [_] => constructor; [apply emits_throw | constructor]
           | |- List.Forall _ (map _ _) =>
               apply List.Forall_map, List.Forall_forall; intros;
               apply emits_insertRow
           end.
  - apply List.Forall_concat, List.Forall_map, List.Forall_forall.
    intros operation _. unfold PgSeed.operation_steps.
    repeat match goal with
           | |- List.Forall _ (match ?x with _ => _ end) => destruct x
           | |- List.Forall _ (if ?x then _ else _) => destruct x
           | |- List.Forall _ [_] =>
               constructor; [apply emits_applySeedOperation | constructor]
           | |- List.Forall _ (map _ _) =>
               apply List.Forall_map, List.Forall_forall; intros;
               apply emits_insertRow
           end.
Qed.

End scope.

Lemma nonempty_false {A} (section_ : option (list A)) :
  nonempty section_ = false -> default [] section_ = [].
Proof. destruct section_ as [[|x xs]|]; simpl; congruence. Qed.

Lemma applyDatabaseEntry_steps options globalVariables entry trace :
  applyDatabaseEntry options globalVariables entry trace
  = seq (database_steps options globalVariables entry) trace.
Proof.
  destruct entry as [databaseKey dbConfig].
  unfold PgSeed.applyDatabaseEntry, PgSeed.database_steps.
  apply applyYamlSeedForDatabase_steps.
Qed.

Lemma emits_plan options seed :
  List.Forall (emits (fun _ => True)) (plan options seed).
Proof.
  unfold PgSeed.plan. apply List.Forall_app. split.
  - eapply List.Forall_impl; [|apply emits_scope_steps].
    intros step. now apply emits_weaken.
  - apply List.Forall_concat, List.Forall_map, List.Forall_forall.
    intros entry _. unfold PgSeed.database_steps.
    eapply List.Forall_impl; [|apply emits_scope_steps].
    intros step. now apply emits_weaken.
Qed.

(** C3.  A seed run executes one sequence of steps, in this order and
    without reordering: the rows of the top-level tables, table after table
    in entry order and row after row in listed order, then the top-level
    operations in listed order, then the same for each entry of the
    databases section in entry order; the trace of executed subprocesses is
    the concatenation of what the steps add, in that order, and a step that
    throws ends the sequence. *)
Theorem applyYamlSeed_sequential options seed trace :
  applyYamlSeed options seed trace = seq (plan options seed) trace
  /\ snd (applyYamlSeed options seed trace)
     = trace ++ concat (segments (plan options seed) trace).
Proof.
  assert (Hseq : applyYamlSeed options seed trace = seq (plan options seed) trace).
  { unfold PgSeed.applyYamlSeed, PgSeed.plan.
    set (g := default [] (seed_variables seed)).
    set (defaultDb := default "postgres" (opt_db options)).
    set (rt := resolvePostgresRuntime (base options) (Some defaultDb)).
    set (hasDefault := nonempty (seed_tables seed) || nonempty (seed_operations seed)).
    set (hasDatabases := nonempty (seed_databases seed)).
    assert (Hdefault : forall t,
      (if hasDefault then
         applyYamlSeedForDatabase rt defaultDb
           (Some (interpolate_tables (default [] (seed_tables seed)) g))
           (Some (interpolate_operations (default [] (seed_operations seed)) g))
       else ret tt) t
      = seq (scope_steps rt defaultDb
               (interpolate_tables (default [] (seed_tables seed)) g)
               (interpolate_operations (default [] (seed_operations seed)) g)) t).
    { intros t. destruct hasDefault eqn:E.
      - apply applyYamlSeedForDatabase_steps.
      - apply orb_false_iff in E as [Ht Ho].
        now rewrite (nonempty_false _ Ht), (nonempty_false _ Ho). }
    assert (Hdatabases : forall t,
      (if hasDatabases then
         forM_ (applyDatabaseEntry options g) (default [] (seed_databases seed))
       else ret tt) t
      = seq (concat (map (database_steps options g)
                         (default [] (seed_databases seed)))) t).
    { intros t. destruct hasDatabases eqn:E.
      - apply forM__steps. apply applyDatabaseEntry_steps.
      - now rewrite (nonempty_false _ E). }
    rewrite seq_app, <- Hdefault.
    destruct hasDefault, hasDatabases; cbn [negb andb]; rewrite ?bindM_eq.
    - destruct (applyYamlSeedForDatabase rt defaultDb _ _ trace) as [[[]|e] t];
        [apply (Hdatabases t) | reflexivity].
    - destruct (applyYamlSeedForDatabase rt defaultDb _ _ trace) as [[[]|e] t];
        [apply (Hdatabases t) | reflexivity].
    - apply (Hdatabases trace).
    - apply (Hdatabases trace). }
  split; [exact Hseq|].
  rewrite Hseq. apply seq_segments, emits_plan.
Qed.

(** *** Scoped variables *)

Lemma lookup_set_prop (o : object) key item key' :
  lookup_prop (set_prop o key item) key'
  = if String.eqb key key' then Some item else lookup_prop o key'.
Proof.
  induction o as [|[k v] o IH]; simpl.
  - reflexivity.
  - destruct (String.eqb_spec k key) as [->|Hne]; simpl.
    + now destruct (String.eqb key key').
    + destruct (String.eqb_spec k key') as [->|Hne'].
      * destruct (String.eqb_spec key key'); congruence.
      * apply IH.
Qed.




End world.


(** C4, at a reference whose filter holds a null: the query compares the
    column with [= NULL], where [buildWhereSql] writes [IS NULL] for the
    same filter. *)
Theorem resolveSeedRef_null_filter :
  let runtime :=
    {| mode := compose; service := "postgres"; user := "postgres";
       password := None; host := None; port := None; adminDb := "postgres";
       composeDir := "."; ssl := None |} in
  let filter := [("orgId", VNull)] in
  let row :=
    [("parentId",
      VObject [("ref", VObject [("table", VString "Party");
                                ("where", VObject filter)])])] in
  (forall psql trace,
     snd (PgSeed.resolveSeedRow psql runtime "wallet" row trace)
     = trace ++ [Psql true runtime "wallet"
                   ("SELECT " +:+ quoteIdentifier "id" +:+ " FROM "
                    +:+ quoteIdentifier "Party" +:+ " WHERE "
                    +:+ quoteIdentifier "orgId" +:+ " = NULL LIMIT 1;")])
  /\ buildWhereSql "Party" filter = Ok (quoteIdentifier "orgId" +:+ " IS NULL").
Proof.
  split; [|reflexivity]. intros psql trace.
  unfold PgSeed.resolveSeedRow.
  change (isSeedRef (VObject [("ref", VObject [("table", VString "Party");
                                ("where", VObject [("orgId", VNull)])])]))
    with true.
  cbv beta iota.
  change (decode_ref _)
    with (Some {| ref_table := "Party"; ref_where := [("orgId", VNull)];
                  ref_column := None |}).
  cbv beta iota. rewrite bindM_eq.
  unfold PgSeed.resolveSeedRef. rewrite bindM_eq.
  change (lift (mapM _ _) trace)
    with (@Ok (list string) [quoteIdentifier "orgId" +:+ " = NULL"], trace).
  cbv beta iota. rewrite bindM_eq.
  unfold PgSeed.runPsqlWithRuntimeCapture, PgSeed.spawn_psql.
  cbv beta iota delta [mode].
  destruct (psql trace _) as [output|e]; [|reflexivity].
  destruct (String.eqb (trim output) ""); [reflexivity|].
  destruct (is_integer_text (trim output)); reflexivity.
Qed.

End PgRunFacts.

(** ** Mock server: templates and hot reload *)

Module ApiVirtualFacts.
Import Js ApiVirtual JsFacts.

(** A placeholder written without white space before its closing braces
    is matched, and its path captured without the leading white space. *)
Lemma placeholder_at_path (before path rest : string) c :
  all_of is_space before = true ->
  Sql.occurs "}" path = false ->
  is_space c = false -> Ascii.eqb c "}" = false ->
  placeholder_at ("{{" +:+ before +:+ String c path +:+ "}}" +:+ rest)
  = Some (String c path, rest).
Proof.
  intros Hbefore Hpath Hspace Hbrace.
  unfold placeholder_at. rewrite strip_prefix_app.
  assert (Hrun : all_of (fun c => negb (Ascii.eqb c "}")) (before +:+ String c path)
                 = true).
  { clear -Hbefore Hpath Hbrace.
    induction before as [|x before IH]; simpl in *.
    - rewrite Hbrace. simpl. induction path as [|y path IHp]; simpl in *; auto.
      apply orb_false_iff in Hpath as [-> Hpath]. simpl. auto.
    - apply andb_true_iff in Hbefore as [Hx Hbefore].
      rewrite (IH Hbefore), andb_true_r.
      destruct x as [[] [] [] [] [] [] [] []]; vm_compute in Hx |- *; congruence. }
  rewrite <- (app_assoc before (String c path) ("}}" +:+ rest)).
  rewrite span_app by (auto; reflexivity).
  rewrite strip_prefix_app.
  destruct (String.eqb_spec (before +:+ String c path) "") as [E|_].
  { destruct before; discriminate E. }
  rewrite skip_spaces_app by (auto; simpl; now rewrite Hspace).
  reflexivity.
Qed.

(** C6, at a placeholder written with a space before the closing braces:
    the captured path keeps the space, the lookup of [params["id "]] finds
    nothing, and the placeholder is replaced by the empty string, although
    [params.id] holds a value, which the same placeholder without that
    space is replaced by. *)
Theorem interpolateString_trailing_space :
  let context := [("params", VObject [("id", VString "7")])] in
  placeholder_at "{{ params.id }}" = Some ("params.id ", "")
  /\ interpolateString "{{ params.id }}" context = ""
  /\ applyTemplate (VObject [("id", VString "{{ params.id }}")]) context
     = VObject [("id", VString "")]
  /\ interpolateString "{{ params.id}}" context = "7".
Proof. repeat split; reflexivity. Qed.

(** *** Fingerprints *)





Section server.
Variable AppState : Type.
Variable buildAppState : filesystem -> result AppState.
Variable resourcesRoot : string.

Abbreviation Server := (ApiVirtual.Server AppState).
Abbreviation reloadResources :=
  (ApiVirtual.reloadResources AppState buildAppState resourcesRoot).
Abbreviation poll := (ApiVirtual.poll AppState buildAppState resourcesRoot).
Abbreviation start := (ApiVirtual.start AppState buildAppState resourcesRoot).
Abbreviation step := (ApiVirtual.step AppState buildAppState resourcesRoot).
Abbreviation run := (ApiVirtual.run AppState buildAppState resourcesRoot).
Abbreviation fingerprint := (fingerprintResources resourcesRoot).





End server.

End ApiVirtualFacts.

(** ** Bulk payloads *)

Module OpenSearchFacts.
Import Js OpenSearch JsFacts.

Lemma visible_nonblank (s : string) : visible s = true -> nonblank s = true.
Proof.
  destruct s as [|c s]; [discriminate|]. simpl. intros Hc.
  apply negb_true_iff in Hc. unfold nonblank, trim, skip_spaces.
  simpl. rewrite Hc. simpl.
  destruct (trim_end s); [now rewrite Hc | reflexivity].
Qed.

Lemma visible_app (a b : string) : visible a = true -> visible (a +:+ b) = true.
Proof. destruct a; [discriminate | trivial]. Qed.

Lemma visible_uint_zero d : visible (NilZero.string_of_uint d) = true.
Proof. destruct d; reflexivity. Qed.

Lemma visible_substring (s : string) n :
  visible s = true -> visible (substring 0 (S n) s) = true.
Proof. destruct s; [discriminate | trivial]. Qed.

Lemma visible_Number_toString x : visible (Number_toString x) = true.
Proof.
  destruct x as [|neg|neg|neg s n]; try (now destruct neg); try reflexivity.
  unfold Number_toString. destruct neg; [reflexivity|].
  change ("" +:+ ?b) with b.
  pose proof (visible_uint_zero s) as Hds.
  destruct ((Z.of_nat (String.length (NilZero.string_of_uint s)) <=? n) && (n <=? 21));
    [now apply visible_app|].
  destruct ((0 <? n) && (n <=? 21)) eqn:E.
  - apply andb_true_iff in E as [E _]. apply Z.ltb_lt in E.
    destruct (Z.to_nat n) as [|m] eqn:Hn; [lia|]. now apply visible_app, visible_substring.
  - destruct ((-6 <? n) && (n <=? 0)); [reflexivity|].
    destruct (Z.of_nat (String.length (NilZero.string_of_uint s)) =? 1);
      [now apply visible_app|].
    now apply visible_app, (visible_substring _ 0).
Qed.

Lemma occurs_json_escape (s : string) : Sql.occurs newline (json_escape s) = false.
Proof.
  induction s as [|c s IH]; simpl; [reflexivity|].
  rewrite occurs_app, IH, orb_false_r.
  destruct c as [[] [] [] [] [] [] [] []]; reflexivity.
Qed.

Lemma occurs_QuoteJSONString (s : string) :
  Sql.occurs newline (QuoteJSONString s) = false.
Proof.
  unfold QuoteJSONString. rewrite !occurs_app, occurs_json_escape. reflexivity.
Qed.

(** Serialising JSON data gives one visible line of text. *)
Lemma JSON_stringify_line (v : value) :
  json_data v = true ->
  exists text, JSON_stringify v = Ok (Some text)
               /\ visible text = true /\ Sql.occurs newline text = false.
Proof.
  induction v as [ | | b | x | z | s | d | items IH | props IH ]
    using value_nested_ind; intros Hdata; try discriminate.
  - exists "null". now repeat split.
  - exists (if b then "true" else "false"). now destruct b.
  - eexists. split; [reflexivity|]. split.
    + destruct (Number_isFinite x); [apply visible_Number_toString | reflexivity].
    + destruct (Number_isFinite x); [|reflexivity].
      now apply occurs_Number_toString.
  - eexists. split; [reflexivity|]. split; [reflexivity|].
    apply occurs_QuoteJSONString.
  - simpl in Hdata. rewrite PgSeedFacts.JSON_stringify_array.
    rewrite List.forallb_forall in Hdata. rewrite List.Forall_forall in IH.
    destruct (mapM _ items) as [parts|e] eqn:E.
    + apply mapM_Forall2 in E. simpl.
      eexists. split; [reflexivity|]. split; [reflexivity|].
      rewrite occurs_cons, occurs_app, (occurs_join newline "," parts); auto.
      clear -E IH Hdata. induction E as [|item part items parts Hitem _ IHE].
      * constructor.
      * constructor.
        -- destruct (IH item) as (text & Etext & _ & Hnl);
             [now left | apply Hdata; now left |].
           rewrite Etext in Hitem. simpl in Hitem. injection Hitem as <-.
           exact Hnl.
        -- apply IHE; intros x Hx;
             first [apply Hdata; now right | apply IH; now right].
    + exfalso.
      match type of E with
      | mapM ?f _ = _ => destruct (mapM_Ok f items) as [parts Eparts]
      end; [|congruence].
      apply List.Forall_forall. intros item Hitem.
      destruct (IH item Hitem (Hdata item Hitem)) as (text & -> & _). simpl. eauto.
  - simpl in Hdata. rewrite PgSeedFacts.JSON_stringify_object.
    rewrite List.forallb_forall in Hdata. rewrite List.Forall_forall in IH.
    destruct (mapM _ props) as [parts|e] eqn:E.
    + apply mapM_Forall2 in E. simpl.
      eexists. split; [reflexivity|]. split; [reflexivity|].
      rewrite occurs_cons, occurs_app, (occurs_join newline "," _); auto.
      clear -E IH Hdata. induction E as [|[k item] part props parts Hitem _ IHE].
      * constructor.
      * assert (Hrest : List.Forall (fun part => Sql.occurs newline part = false)
                                    (omap id parts)).
        { apply IHE; intros x Hx;
            first [apply Hdata; now right | apply IH; now right]. }
        destruct (IH (k, item)) as (text & Etext & _ & Hnl);
          [now left | apply (Hdata (k, item)); now left |].
        simpl in Etext. rewrite Etext in Hitem. simpl in Hitem.
        injection Hitem as <-.
        change (omap id (Some (QuoteJSONString k +:+ ":" +:+ text) :: parts))
          with ((QuoteJSONString k +:+ ":" +:+ text) :: omap id parts).
        constructor; [|assumption].
        change (Sql.occurs newline (QuoteJSONString k +:+ ":" +:+ text) = false).
        now rewrite !occurs_app, occurs_QuoteJSONString, Hnl.
    + exfalso.
      match type of E with
      | mapM ?f _ = _ => destruct (mapM_Ok f props) as [parts Eparts]
      end; [|congruence].
      apply List.Forall_forall. intros [k item] Hitem.
      destruct (IH (k, item) Hitem (Hdata (k, item) Hitem)) as (text & Etext & _).
      simpl in Etext. rewrite Etext. simpl. eauto.
Qed.

Lemma json_entries_set (o : object) key text :
  forallb (fun entry => json_data (snd entry)) o = true ->
  forallb (fun entry => json_data (snd entry)) (set_prop o key (VString text)) = true.
Proof.
  induction o as [|[k v] o IH]; simpl; [reflexivity|].
  intros H. apply andb_true_iff in H as [Hv Ho].
  destruct (String.eqb k key); simpl.
  - exact Ho.
  - now rewrite Hv, IH.
Qed.

Lemma json_entries_delete (o : object) key :
  forallb (fun entry => json_data (snd entry)) o = true ->
  forallb (fun entry => json_data (snd entry)) (delete_prop o key) = true.
Proof.
  unfold delete_prop. induction o as [|[k v] o IH]; simpl; [reflexivity|].
  intros H. apply andb_true_iff in H as [Hv Ho].
  destruct (negb (String.eqb k key)); simpl; [now rewrite Hv, IH | auto].
Qed.

Lemma json_entries_imap {A} (g : nat -> string) (f : A -> value) (l : list A) :
  (forall x, json_data (f x) = true) ->
  forallb (fun entry => json_data (snd entry)) (imap (fun i x => (g i, f x)) l) = true.
Proof.
  intros Hf. revert g. induction l as [|x l IH]; intros g; simpl; [reflexivity|].
  rewrite Hf. simpl. apply (IH (g ∘ S)).
Qed.

Lemma json_entries_items (g : nat -> string) (items : list value) :
  forallb json_data items = true ->
  forallb (fun entry => json_data (snd entry)) (imap (fun i x => (g i, x)) items) = true.
Proof.
  revert g. induction items as [|x l IH]; intros g; simpl; [reflexivity|].
  intros H. apply andb_true_iff in H as [-> Hl]. simpl. apply (IH (g ∘ S) Hl).
Qed.

(** The own properties of JSON data are JSON data. *)
Lemma json_Object_entries (v : value) :
  json_data v = true ->
  forallb (fun entry => json_data (snd entry)) (Object_entries v) = true.
Proof.
  destruct v; simpl; try reflexivity; try discriminate.
  - intros _. now apply (json_entries_imap nat_toString VString).
  - apply json_entries_items.
  - trivial.
Qed.

Lemma isBulkMeta_inv (doc : value) :
  isBulkMeta doc = true ->
  exists action inner,
    doc = VObject [(action, inner)]
    /\ (action = "index" \/ action = "create" \/ action = "update"
        \/ action = "delete").
Proof.
  destruct doc as [ | | | | | | | |[|[action inner] [|second rest]]]; try discriminate.
  simpl. intros H. exists action, inner. split; [reflexivity|].
  repeat (apply orb_true_iff in H as [H|H]); apply String.eqb_eq in H; auto.
Qed.

Lemma occurs_ends_with (s : string) :
  Sql.occurs newline s = false -> ends_with_newline s = false.
Proof.
  induction s as [|c s IH]; simpl; [reflexivity|].
  intros H. apply orb_false_iff in H as [Hc Hs].
  destruct s; [exact Hc | now apply IH].
Qed.

Lemma ends_with_newline_app (a b : string) :
  b <> "" -> ends_with_newline (a +:+ b) = ends_with_newline b.
Proof.
  intros Hb. induction a as [|c a IH]; [reflexivity|].
  change (String c a +:+ b) with (String c (a +:+ b)).
  destruct (a +:+ b) eqn:E.
  - destruct a; simpl in E; [congruence | discriminate].
  - rewrite <- E in *. simpl. rewrite E. rewrite <- E. exact IH.
Qed.

Lemma proper_line_inv (text : string) :
  proper_line text = true ->
  nonblank text = true /\ Sql.occurs newline text = false /\ text <> "".
Proof.
  unfold proper_line. intros H. apply andb_true_iff in H as [Hb Hn].
  apply negb_true_iff in Hn. repeat split; auto. intros ->. discriminate.
Qed.

Lemma join_lines_end (outs : list string) :
  List.Forall (fun out => proper_line out = true) outs ->
  ends_with_newline (join nl outs) = false.
Proof.
  unfold join. induction 1 as [|x outs Hx Houts IH]; [reflexivity|].
  apply proper_line_inv in Hx as (_ & Hx & _).
  destruct outs as [|y rest]; [now apply occurs_ends_with|].
  rewrite concat_cons2, ends_with_newline_app; [|discriminate].
  inversion Houts as [|? ? Hy _]; subst.
  apply proper_line_inv in Hy as (_ & _ & Hy).
  rewrite ends_with_newline_app; [exact IH|].
  destruct rest; simpl; [assumption|]. destruct y; [congruence | discriminate].
Qed.

(** The non-blank lines of a payload built from proper lines are those
    lines. *)
Lemma lines_of_payload (outs : list string) :
  List.Forall (fun out => proper_line out = true) outs ->
  List.filter nonblank (split newline (join nl outs +:+ nl)) = outs.
Proof.
  intros H. unfold nl at 2. rewrite split_snoc.
  rewrite List.filter_app. simpl List.filter at 2.
  change (nonblank "") with false. cbv iota. rewrite List.app_nil_r.
  destruct outs as [|x rest]; [reflexivity|].
  rewrite split_join; [| discriminate |].
  - apply List.forallb_filter_id, List.forallb_forall.
    rewrite List.Forall_forall in H. intros y Hy.
    specialize (H y Hy). now apply proper_line_inv in H as (? & _).
  - eapply List.Forall_impl; [|exact H]. intros y Hy.
    now apply proper_line_inv in Hy as (_ & ? & _).
Qed.

Section runtime.
Variable JSON_parse : string -> result value.
Variable toISOString : Z -> string.
Hypothesis JSON_parse_data :
  forall text v, JSON_parse text = Ok v -> json_data v = true.

Abbreviation normalize_doc := (OpenSearch.normalize_doc JSON_parse toISOString).
Abbreviation normalize_line := (OpenSearch.normalize_line JSON_parse toISOString).
Abbreviation normalizeBulkPayload :=
  (OpenSearch.normalizeBulkPayload JSON_parse toISOString).
Abbreviation is_document := (OpenSearch.is_document JSON_parse).
Abbreviation is_array_line := (OpenSearch.is_array_line JSON_parse).

Lemma pushed_line (v : value) :
  json_data v = true ->
  exists text, pushed (JSON_stringify v) = Ok text /\ proper_line text = true.
Proof.
  intros H. destruct (JSON_stringify_line v H) as (text & E & Hvis & Hnl).
  exists text. unfold pushed. rewrite E. split; [reflexivity|].
  unfold proper_line. now rewrite (visible_nonblank text Hvis), Hnl.
Qed.

Lemma json_meta options (inner : value) action :
  json_data inner = true ->
  json_data (VObject [(action,
     VObject (override_index options
                (if dynamicIds options
                 then delete_prop (Object_entries inner) "_id"
                 else Object_entries inner)))]) = true.
Proof.
  intros H. apply json_Object_entries in H.
  cbn [json_data forallb snd]. rewrite andb_true_r.
  unfold override_index.
  destruct (indexOverride options) as [index|];
    [destruct (String.eqb index "")|];
    try apply json_entries_set;
    destruct (dynamicIds options); auto using json_entries_delete.
Qed.

Lemma json_stamp (doc : value) text :
  json_data doc = true -> json_data (stamp doc text) = true.
Proof.
  destruct doc; simpl; trivial. intros H. now apply json_entries_set, json_entries_set.
Qed.

Lemma get_single action (inner : value) :
  get (VObject [(action, inner)]) action = inner.
Proof. simpl. unfold get_prop. simpl. now rewrite String.eqb_refl. Qed.

(** What the [try] of one line ends with: a proper line of JSON, or the
    SyntaxError of a line that does not parse. *)
Lemma normalize_doc_outcome options baseDate payloadIndex line :
  match fst (normalize_doc options baseDate payloadIndex line) with
  | Ok text => proper_line text = true /\ exists doc, JSON_parse line = Ok doc
  | Throw e => JSON_parse line = Throw e
  end.
Proof.
  unfold OpenSearch.normalize_doc.
  destruct (JSON_parse line) as [doc|e] eqn:E; [|reflexivity].
  pose proof (JSON_parse_data _ _ E) as Hdoc.
  destruct (isBulkMeta doc) eqn:Hmeta.
  - destruct (isBulkMeta_inv doc Hmeta) as (action & inner & -> & _).
    cbn [Object_entries Object_keys map fst head default fst].
    change (default "" (Some action)) with action.
    rewrite get_single. unfold id.
    destruct (pushed_line _ (json_meta options inner action
                 ltac:(simpl in Hdoc; now rewrite andb_true_r in Hdoc)))
      as (text & -> & Htext).
    eauto.
  - destruct (dynamicTimestamps options && is_object doc); cbn [fst].
    + destruct (pushed_line _ (json_stamp doc
        (strip_millis (toISOString (baseDate + payloadIndex * 1000))) Hdoc))
        as (text & -> & Htext). eauto.
    + destruct (pushed_line _ Hdoc) as (text & -> & Htext). eauto.
Qed.

(** The loop pushes one proper line for each non-blank line, which is the
    line itself when it does not parse. *)
Lemma normalize_lines options baseDate (lines : list string) :
  List.Forall (fun line => Sql.occurs newline line = false) lines ->
  forall output payloadIndex,
  exists outs payloadIndex',
    fold_left (normalize_line options baseDate) lines (output, payloadIndex)
    = (output ++ outs, payloadIndex')
    /\ List.Forall2
         (fun line out =>
            proper_line out = true
            /\ forall e, JSON_parse line = Throw e -> out = line)
         (List.filter nonblank lines) outs.
Proof.
  induction 1 as [|line lines Hline _ IH]; intros output payloadIndex.
  - exists [], payloadIndex. simpl. rewrite List.app_nil_r. split; [reflexivity|constructor].
  - cbn [fold_left List.filter]. unfold OpenSearch.normalize_line at 2.
    destruct (nonblank line) eqn:Hblank; cbn [negb].
    + pose proof (normalize_doc_outcome options baseDate payloadIndex line) as Hout.
      destruct (normalize_doc options baseDate payloadIndex line) as [[text|e] index'].
      * cbn [fst] in Hout. destruct Hout as (Htext & doc & Hdoc).
        destruct (IH (output ++ [text]) index') as (outs & final & -> & Houts).
        exists (text :: outs), final. rewrite <- List.app_assoc.
        split; [reflexivity|]. constructor; [|assumption].
        split; [assumption | congruence].
      * cbn [fst] in Hout.
        destruct (IH (output ++ [line]) index') as (outs & final & -> & Houts).
        exists (line :: outs), final. rewrite <- List.app_assoc.
        split; [reflexivity|]. constructor; [|assumption].
        split; [|reflexivity]. unfold proper_line. now rewrite Hblank, Hline.
    + apply IH.
Qed.

(** With time stamps on and no array among the lines, the index after the
    loop counts the documents met. *)
Lemma payloadIndex_counts options baseDate (lines : list string) :
  dynamicTimestamps options = true ->
  forallb (fun line => negb (is_array_line line)) lines = true ->
  forall output payloadIndex,
    snd (fold_left (normalize_line options baseDate) lines (output, payloadIndex))
    = payloadIndex + Z.of_nat (length (List.filter is_document lines)).
Proof.
  intros Hstamps. induction lines as [|line lines IH]; intros Harrays output payloadIndex.
  - simpl. lia.
  - cbn [forallb] in Harrays. apply andb_true_iff in Harrays as [Harray Harrays].
    cbn [fold_left List.filter]. unfold OpenSearch.normalize_line at 2.
    unfold OpenSearch.is_array_line in Harray.
    unfold OpenSearch.is_document at 1.
    destruct (nonblank line); cbn [negb andb]; [|now apply IH].
    unfold OpenSearch.normalize_doc.
    destruct (JSON_parse line) as [doc|e] eqn:E.
    + pose proof (JSON_parse_data _ _ E) as Hdoc.
      destruct (isBulkMeta doc) eqn:Hmeta.
      * destruct (isBulkMeta_inv doc Hmeta) as (action & inner & -> & _).
        rewrite Hmeta. cbn [negb].
        destruct (pushed _) as [text|e]; now rewrite (IH Harrays).
      * rewrite Hstamps. cbn [andb].
        destruct doc as [ | | b | x | z | s | d | items | props ];
          try discriminate Hdoc; try discriminate Harray; cbn [is_object].
        -- destruct (pushed _) as [text|e]; now rewrite (IH Harrays).
        -- destruct (pushed _) as [text|e]; now rewrite (IH Harrays).
        -- destruct (pushed _) as [text|e]; now rewrite (IH Harrays).
        -- destruct (pushed _) as [text|e]; now rewrite (IH Harrays).
        -- rewrite Hmeta. cbn [negb].
           destruct (pushed _) as [text|e]; rewrite (IH Harrays);
             cbn [length]; lia.
    + now rewrite (IH Harrays).
Qed.

Lemma lookup_delete_prop (o : object) key key' :
  lookup_prop (delete_prop o key) key'
  = if String.eqb key key' then None else lookup_prop o key'.
Proof.
  unfold delete_prop. induction o as [|[k v] o IH]; simpl.
  - now destruct (String.eqb key key').
  - destruct (String.eqb_spec k key) as [->|Hne]; simpl.
    + rewrite IH. now destruct (String.eqb key key').
    + rewrite IH. destruct (String.eqb_spec k key') as [->|]; [|reflexivity].
      destruct (String.eqb_spec key key'); congruence.
Qed.

Lemma fold_normalize_app options baseDate (before after : list string) state :
  fold_left (normalize_line options baseDate) (before ++ after) state
  = fold_left (normalize_line options baseDate) after
      (fold_left (normalize_line options baseDate) before state).
Proof. apply List.fold_left_app. Qed.

(** C9 (as amended).  [normalizeBulkPayload] writes one line for each
    non-blank line of its input, in order, a line that does not parse as
    JSON being written unchanged, and ends the payload with exactly one
    line feed.  With [dynamicIds] only bulk-action lines are affected:
    their metadata loses [_id] and keeps every other field.  With
    [dynamicTimestamps], in a payload whose lines before it hold no JSON
    array, a non-blank line that parses to a JSON object other than a bulk
    action is written with [createdAt] and [updatedAt] set to the time of
    the call plus as many seconds as there are such documents before it;
    a line that parses to a number, a string, a boolean or null is written
    as it serialises, without stamps. *)
Theorem normalizeBulkPayload_normalizes raw options baseDate :
  (exists outs,
      normalizeBulkPayload raw options baseDate = join nl outs +:+ nl
      /\ List.Forall2
           (fun line out =>
              proper_line out = true
              /\ forall e, JSON_parse line = Throw e -> out = line)
           (List.filter nonblank (split newline raw)) outs
      /\ List.filter nonblank
           (split newline (normalizeBulkPayload raw options baseDate)) = outs
      /\ ends_with_newline (join nl outs) = false)
  /\ (forall line doc payloadIndex,
        JSON_parse line = Ok doc -> isBulkMeta doc = false ->
        normalize_doc (with_dynamicIds true options) baseDate payloadIndex line
        = normalize_doc (with_dynamicIds false options) baseDate payloadIndex line)
  /\ (forall line action inner payloadIndex,
        JSON_parse line = Ok (VObject [(action, inner)]) ->
        isBulkMeta (VObject [(action, inner)]) = true ->
        normalize_doc (with_dynamicIds true options) baseDate payloadIndex line
        = (pushed (JSON_stringify
                     (VObject [(action,
                        VObject (override_index options
                                   (delete_prop (Object_entries inner) "_id")))])),
           payloadIndex)
        /\ lookup_prop (delete_prop (Object_entries inner) "_id") "_id" = None
        /\ forall key, key <> "_id" ->
             lookup_prop (delete_prop (Object_entries inner) "_id") key
             = lookup_prop (Object_entries inner) key)
  /\ (forall before line after o,
        dynamicTimestamps options = true ->
        split newline raw = before ++ line :: after ->
        forallb (fun l => negb (is_array_line l)) before = true ->
        nonblank line = true ->
        JSON_parse line = Ok (VObject o) -> isBulkMeta (VObject o) = false ->
        let k := Z.of_nat (length (List.filter is_document before)) in
        let timestamp := strip_millis (toISOString (baseDate + k * 1000)) in
        exists pushed_before text pushed_after,
          normalizeBulkPayload raw options baseDate
          = join nl (pushed_before ++ text :: pushed_after) +:+ nl
          /\ length pushed_before = length (List.filter nonblank before)
          /\ JSON_stringify (stamp (VObject o) timestamp) = Ok (Some text)
          /\ get (stamp (VObject o) timestamp) "createdAt" = VString timestamp
          /\ get (stamp (VObject o) timestamp) "updatedAt" = VString timestamp)
  /\ (forall line doc payloadIndex,
        JSON_parse line = Ok doc -> isBulkMeta doc = false -> is_object doc = false ->
        normalize_doc options baseDate payloadIndex line
        = (pushed (JSON_stringify doc), payloadIndex)).
Proof.
  repeat apply conj.
  - unfold OpenSearch.normalizeBulkPayload.
    destruct (normalize_lines options baseDate (split newline raw)
                (split_no_sep newline raw) [] 0) as (outs & final & E & Houts).
    rewrite E. cbn [app]. exists outs.
    assert (Hproper : List.Forall (fun out => proper_line out = true) outs).
    { clear -Houts. induction Houts as [|? ? ? ? [H _]]; constructor; auto. }
    repeat split; auto using lines_of_payload, join_lines_end.
  - intros line doc payloadIndex E Hmeta. unfold OpenSearch.normalize_doc.
    rewrite E, Hmeta. reflexivity.
  - intros line action inner payloadIndex E Hmeta. repeat split.
    + unfold OpenSearch.normalize_doc. rewrite E, Hmeta.
      cbn [Object_entries Object_keys map fst head].
      change (default "" (Some action)) with action.
      now rewrite get_single.
    + rewrite lookup_delete_prop. reflexivity.
    + intros key Hkey. rewrite lookup_delete_prop.
      destruct (String.eqb_spec "_id" key); congruence.
  - intros before line after o Hstamps Hsplit Harrays Hblank Hparse Hmeta k timestamp.
    pose proof (split_no_sep newline raw) as Hfree. rewrite Hsplit in Hfree.
    apply List.Forall_app in Hfree as [Hbefore Hafter].
    inversion Hafter as [|? ? _ Hafter']; subst.
    destruct (normalize_lines options baseDate before Hbefore [] 0)
      as (outs_b & index_b & Eb & Houts_b).
    pose proof (payloadIndex_counts options baseDate before Hstamps Harrays [] 0)
      as Hindex.
    rewrite Eb in Hindex. cbn [snd] in Hindex. cbn [app] in Eb.
    assert (Hk : index_b = k) by (unfold k; lia). clear Hindex. subst index_b.
    pose proof (JSON_parse_data _ _ Hparse) as Hdoc.
    destruct (JSON_stringify_line _ (json_stamp (VObject o) timestamp Hdoc))
      as (text & Etext & _ & _).
    destruct (normalize_lines options baseDate after Hafter' (outs_b ++ [text]) (k + 1))
      as (outs_a & final & Ea & _).
    exists outs_b, text, outs_a. repeat split.
    + unfold OpenSearch.normalizeBulkPayload. rewrite Hsplit.
      rewrite fold_normalize_app, Eb. cbn [fold_left].
      unfold OpenSearch.normalize_line at 2. rewrite Hblank. cbn [negb].
      unfold OpenSearch.normalize_doc. rewrite Hparse, Hmeta, Hstamps.
      cbn [andb is_object]. unfold pushed. unfold timestamp in Etext.
      rewrite Etext.
      cbn [bind]. change (default "" (Some text)) with text.
      rewrite Ea. now rewrite <- List.app_assoc.
    + symmetry. eapply List.Forall2_length; eassumption.
    + exact Etext.
    + cbn [stamp get]. unfold get_prop.
      rewrite !PgRunFacts.lookup_set_prop. reflexivity.
    + cbn [stamp get]. unfold get_prop.
      rewrite !PgRunFacts.lookup_set_prop. reflexivity.
  - intros line doc payloadIndex E Hmeta Hobject. unfold OpenSearch.normalize_doc.
    rewrite E, Hmeta, Hobject. now rewrite andb_false_r.
Qed.

End runtime.

Lemma sample_parse_data text v : sample_parse text = Ok v -> json_data v = true.
Proof.
  unfold sample_parse.
  repeat (destruct (String.eqb text _); [intros [= <-]; reflexivity|]).
  discriminate.
Qed.

(** The theorem at a payload of two documents, for its second line. *)
Lemma normalizeBulkPayload_normalizes_witness :
  (forall text v, sample_parse text = Ok v -> json_data v = true)
  /\ split newline ("{" +:+ dq +:+ "a" +:+ dq +:+ ":1}" +:+ nl
                    +:+ "{" +:+ dq +:+ "b" +:+ dq +:+ ":2}")
     = ["{" +:+ dq +:+ "a" +:+ dq +:+ ":1}"] ++ ("{" +:+ dq +:+ "b" +:+ dq +:+ ":2}") :: []
  /\ exists pushed_before text pushed_after,
       OpenSearch.normalizeBulkPayload sample_parse sample_toISOString
         ("{" +:+ dq +:+ "a" +:+ dq +:+ ":1}" +:+ nl
          +:+ "{" +:+ dq +:+ "b" +:+ dq +:+ ":2}")
         {| dynamicIds := false; dynamicTimestamps := true; indexOverride := None |}
         1700000000000
       = join nl (pushed_before ++ text :: pushed_after) +:+ nl
       /\ length pushed_before = 1%nat
       /\ JSON_stringify (stamp (VObject [("b", VNumber (Finite false (Decimal.D2 Decimal.Nil) 1))])
                            "2023-11-14T22:13:21Z")
          = Ok (Some text).
Proof.
  split; [exact sample_parse_data|]. split; [reflexivity|].
  destruct (normalizeBulkPayload_normalizes sample_parse sample_toISOString
              sample_parse_data
              ("{" +:+ dq +:+ "a" +:+ dq +:+ ":1}" +:+ nl
               +:+ "{" +:+ dq +:+ "b" +:+ dq +:+ ":2}")
              {| dynamicIds := false; dynamicTimestamps := true;
                 indexOverride := None |}
              1700000000000) as (_ & _ & _ & H & _).
  destruct (H ["{" +:+ dq +:+ "a" +:+ dq +:+ ":1}"]
              ("{" +:+ dq +:+ "b" +:+ dq +:+ ":2}") []
              [("b", VNumber (Finite false (Decimal.D2 Decimal.Nil) 1))])
    as (pushed_before & text & pushed_after & E & Hlen & Htext & _);
    try reflexivity.
  exists pushed_before, text, pushed_after.
  split; [exact E|]. split; [exact Hlen | exact Htext].
Defined.

(** A non-blank line that parses to a number is a document of the loop,
    not a bulk action, and is written without time stamps. *)
Lemma normalizeBulkPayload_primitive_unstamped :
  let options :=
    {| dynamicIds := false; dynamicTimestamps := true; indexOverride := None |} in
  sample_parse "5" = Ok (VNumber (Finite false (D5 Nil) 1))
  /\ isBulkMeta (VNumber (Finite false (D5 Nil) 1)) = false
  /\ OpenSearch.normalizeBulkPayload sample_parse sample_toISOString "5" options
       1700000000000
     = "5" +:+ nl.
Proof. repeat split. Qed.

(** An array among the lines takes a second of its own: the documents
    around it are stamped two seconds apart. *)
Lemma normalizeBulkPayload_array_takes_slot :
  let options :=
    {| dynamicIds := false; dynamicTimestamps := true; indexOverride := None |} in
  let a := "{" +:+ dq +:+ "a" +:+ dq +:+ ":1}" in
  let b := "{" +:+ dq +:+ "b" +:+ dq +:+ ":2}" in
  let stamps time :=
    "," +:+ dq +:+ "createdAt" +:+ dq +:+ ":" +:+ dq +:+ time +:+ dq
    +:+ "," +:+ dq +:+ "updatedAt" +:+ dq +:+ ":" +:+ dq +:+ time +:+ dq +:+ "}" in
  OpenSearch.normalizeBulkPayload sample_parse sample_toISOString
    (a +:+ nl +:+ "[1]" +:+ nl +:+ b) options 1700000000000
  = "{" +:+ dq +:+ "a" +:+ dq +:+ ":1" +:+ stamps "2023-11-14T22:13:20Z" +:+ nl
    +:+ "[1]" +:+ nl
    +:+ "{" +:+ dq +:+ "b" +:+ dq +:+ ":2" +:+ stamps "2023-11-14T22:13:22Z" +:+ nl.
Proof. vm_compute. reflexivity. Qed.

End OpenSearchFacts.

(** ** Parties reset: leaves first *)

Module PartiesFacts.
Import Parties.

Lemma partyById_acc (l : list PartyDTO) (m : gmap string PartyDTO) i party :
  fold_left (fun m item => <[id item := item]> m) l m !! i = Some party ->
  m !! i = Some party \/ (In party l /\ id party = i).
Proof.
  revert m. induction l as [|x l IH]; intros m H; simpl in *; [now left|].
  apply IH in H as [H|[H1 H2]]; [|right; tauto].
  destruct (decide (id x = i)) as [E|E].
  - rewrite <- E, lookup_insert_eq in H. injection H as <-. right. tauto.
  - rewrite lookup_insert_ne in H by assumption. now left.
Qed.

Lemma partyById_In (parties : list PartyDTO) i party :
  partyById parties !! i = Some party -> In party parties /\ id party = i.
Proof.
  intros H. apply partyById_acc in H as [H|H]; [|assumption].
  rewrite lookup_empty in H. discriminate.
Qed.

Lemma partyById_acc_Some (l : list PartyDTO) (m : gmap string PartyDTO) i :
  is_Some (m !! i) \/ In i (map id l) ->
  is_Some (fold_left (fun m item => <[id item := item]> m) l m !! i).
Proof.
  revert m. induction l as [|x l IH]; intros m H; simpl in *.
  - destruct H as [H|[]]. exact H.
  - apply IH. destruct (decide (id x = i)) as [E|E].
    + left. rewrite <- E, lookup_insert_eq. eauto.
    + rewrite lookup_insert_ne by assumption. destruct H as [H|[H|H]]; tauto.
Qed.

Lemma childrenMap_acc (l : list PartyDTO) (m : gmap string (gset string)) org c :
  c ∈ default ∅ (fold_left (fun m party =>
                               match parent party with
                               | Some org => <[org := default ∅ (m !! org) ∪ {[id party]}]> m
                               | None => m
                               end) l m !! org)
  <-> c ∈ default ∅ (m !! org)
      \/ exists party, In party l /\ id party = c /\ parent party = Some org.
Proof.
  revert m. induction l as [|x l IH]; intros m; simpl.
  - split; [now left | intros [H|(? & [] & _)]; exact H].
  - rewrite IH. clear IH. destruct (parent x) as [o|] eqn:Hx.
    + destruct (decide (o = org)) as [->|Hne].
      * rewrite lookup_insert_eq. simpl. rewrite elem_of_union, elem_of_singleton.
        split.
        -- intros [[H|H]|(party & H1 & H2 & H3)]; eauto 8.
        -- intros [H|(party & [<-|H1] & H2 & H3)]; eauto 8.
      * rewrite lookup_insert_ne by assumption. split.
        -- intros [H|(party & H1 & H2 & H3)]; eauto 8.
        -- intros [H|(party & [<-|H1] & H2 & H3)]; eauto 8. congruence.
    + split.
      * intros [H|(party & H1 & H2 & H3)]; eauto 8.
      * intros [H|(party & [<-|H1] & H2 & H3)]; eauto 8. congruence.
Qed.

Lemma childrenMap_spec (parties : list PartyDTO) org c :
  c ∈ default ∅ (childrenMap parties !! org)
  <-> exists party, In party parties /\ id party = c /\ parent party = Some org.
Proof.
  unfold childrenMap. rewrite childrenMap_acc, lookup_empty. simpl.
  rewrite elem_of_empty. tauto.
Qed.

Lemma deletableIds_spec (l : list PartyDTO) i :
  i ∈ deletableIds l <-> exists party, In party l /\ id party = i.
Proof.
  unfold deletableIds. rewrite elem_of_list_to_set, list_elem_of_In, List.in_map_iff.
  split; intros (party & H1 & H2); eauto.
Qed.

Lemma initialChildCount_acc (ch : gmap string (gset string)) (D : gset string)
    (l : list PartyDTO) (m : gmap string Z) i :
  fold_left (fun m party =>
               match ch !! id party with
               | None => <[id party := 0]> m
               | Some cs => <[id party := Z.of_nat (size (filter (fun c => c ∈ D) cs))]> m
               end) l m !! i
  = if decide (i ∈ map id l)
    then Some (Z.of_nat (size (filter (fun c => c ∈ D) (default ∅ (ch !! i)))))
    else m !! i.
Proof.
  revert m. induction l as [|x l IH]; intros m.
  { cbn [fold_left map]. rewrite decide_False; [reflexivity | apply not_elem_of_nil]. }
  cbn [fold_left map]. rewrite IH. clear IH.
  destruct (decide (i ∈ map id l)) as [Hin|Hin].
  - rewrite decide_True by (apply elem_of_cons; tauto). reflexivity.
  - destruct (decide (id x = i)) as [<-|Hne].
    + rewrite decide_True by (apply elem_of_cons; tauto).
      destruct (ch !! id x); rewrite lookup_insert_eq; [reflexivity|].
      change (default ∅ None) with (∅ : gset string).
      assert (E : filter (fun c => c ∈ D) (∅ : gset string) = ∅) by set_solver.
      rewrite E, size_empty. reflexivity.
    + rewrite decide_False.
      * destruct (ch !! id x); now rewrite lookup_insert_ne.
      * rewrite elem_of_cons. intros [E|E]; congruence.
Qed.

Section api.
Variable api_delete : list (string * bool) -> string -> bool.
Variable parties : list PartyDTO.
Variable removeRoots : bool.

Abbreviation byId := (Parties.byId parties).
Abbreviation deletable := (Parties.deletable parties removeRoots).
Abbreviation children := (Parties.children parties).
Abbreviation deletable_child := (Parties.deletable_child parties removeRoots).
Abbreviation deletable_children := (Parties.deletable_children parties removeRoots).
Abbreviation parent_of := (Parties.parent_of parties).
Abbreviation counted := (Parties.counted parties).
Abbreviation invariant := (Parties.invariant parties removeRoots).
Abbreviation outcome := (Parties.outcome parties removeRoots).
Abbreviation iteration := (Parties.iteration api_delete parties removeRoots).
Abbreviation loop := (Parties.loop api_delete parties removeRoots).
Abbreviation initial := (Parties.initial parties removeRoots).
Abbreviation resetParties := (Parties.resetParties api_delete parties removeRoots).

Lemma removable_spec party :
  In party (removable removeRoots parties)
  <-> In party parties /\ (removeRoots = true \/ orgId party <> Null).
Proof.
  unfold removable. rewrite List.filter_In, orb_true_iff. unfold not_null.
  destruct (orgId party); intuition congruence.
Qed.

Lemma deletable_spec q :
  q ∈ deletable
  <-> exists party, In party parties /\ id party = q
                    /\ (removeRoots = true \/ orgId party <> Null).
Proof.
  unfold Parties.deletable. rewrite deletableIds_spec. split.
  - intros (party & H & E). apply removable_spec in H. exists party. tauto.
  - intros (party & H & E & Hroot). exists party. rewrite removable_spec. tauto.
Qed.

Lemma deletable_children_spec org c :
  c ∈ deletable_children org <-> deletable_child org c.
Proof.
  unfold Parties.deletable_children, Parties.deletable_child.
  rewrite elem_of_filter, childrenMap_spec. reflexivity.
Qed.

Lemma byId_deletable q : q ∈ deletable -> exists party, byId !! q = Some party.
Proof.
  intros H. apply deletable_spec in H as (party & Hin & <- & _).
  apply (partyById_acc_Some parties ∅). right. now apply List.in_map.
Qed.

Lemma child_of_parent q party org :
  byId !! q = Some party -> parent party = Some org -> q ∈ deletable ->
  q ∈ deletable_children org.
Proof.
  intros Hparty Hparent Hq. apply partyById_In in Hparty as [Hin Hid].
  apply deletable_children_spec. split; [assumption|]. eauto.
Qed.

Lemma counted_add_child org q (seen : gset string) :
  parent_of q = Some org -> counted org (seen ∪ {[q]}) = counted org seen ∪ {[q]}.
Proof.
  intros H. unfold Parties.counted. apply set_eq. intros c.
  rewrite elem_of_union, !elem_of_filter, elem_of_union, elem_of_singleton.
  split; [tauto|]. intros [?| ->]; tauto.
Qed.

Lemma counted_add_other org q (seen : gset string) :
  parent_of q <> Some org -> counted org (seen ∪ {[q]}) = counted org seen.
Proof.
  intros H. unfold Parties.counted. apply set_eq. intros c.
  rewrite !elem_of_filter, elem_of_union, elem_of_singleton.
  split; [|tauto]. intros [Hc [?| ->]]; tauto.
Qed.

Lemma counted_subseteq org (seen : gset string) : counted org seen ⊆ seen.
Proof. unfold Parties.counted. intros c. rewrite elem_of_filter. tauto. Qed.

Lemma counted_mono org (seen : gset string) q :
  counted org seen ⊆ counted org (seen ∪ {[q]}).
Proof.
  unfold Parties.counted. intros c. rewrite !elem_of_filter, elem_of_union. tauto.
Qed.

(** Taking one more child into account lowers the count by one. *)
Lemma size_uncounted (X Y : gset string) q :
  q ∈ X -> q ∉ Y ->
  Z.of_nat (size (X ∖ (Y ∪ {[q]}))) = Z.of_nat (size (X ∖ Y)) - 1.
Proof.
  intros Hx Hy.
  assert (E : X ∖ Y = {[q]} ∪ X ∖ (Y ∪ {[q]})).
  { apply set_eq. intros c.
    rewrite elem_of_union, !elem_of_difference, elem_of_union, elem_of_singleton.
    destruct (decide (c = q)) as [->|]; tauto. }
  assert (Hsize : size (X ∖ Y) = S (size (X ∖ (Y ∪ {[q]})))).
  { rewrite E at 1. rewrite (size_union {[q]} (X ∖ (Y ∪ {[q]}))).
    - now rewrite size_singleton.
    - intros c. rewrite elem_of_singleton, elem_of_difference, elem_of_union,
        elem_of_singleton. tauto. }
  lia.
Qed.

Lemma split_snoc_inv {A} (l before after : list A) x y :
  l ++ [x] = before ++ y :: after ->
  (after = [] /\ before = l /\ y = x)
  \/ exists after', after = after' ++ [x] /\ l = before ++ y :: after'.
Proof.
  destruct after as [|z after _] using rev_ind; intros H.
  - left. apply List.app_inj_tail in H as [-> ->]. auto.
  - right. exists after.
    change (before ++ y :: after ++ [z]) with (before ++ (y :: after) ++ [z]) in H.
    rewrite List.app_assoc in H. now apply List.app_inj_tail in H as [-> ->].
Qed.

Lemma In_fst {A B} (l : list (A * B)) a :
  In a (map fst l) <-> exists b, In (a, b) l.
Proof.
  rewrite List.in_map_iff. split.
  - intros ([a' b] & <- & H). eauto.
  - intros (b & H). exists (a, b). auto.
Qed.

(** Sending the request for a party of the queue keeps the order. *)
Lemma order_snoc (st : state) q ok :
  invariant st -> In q (queue st) ->
  forall before p ok' after,
    requests st ++ [(q, ok)] = before ++ (p, ok') :: after ->
    forall c, c ∈ deletable_children p -> In (c, true) before.
Proof.
  intros Hinv Hq before p ok' after Hsplit c Hc.
  apply split_snoc_inv in Hsplit as [(-> & -> & E)|(after' & -> & Hsplit)].
  - injection E as -> ->.
    destruct (inv_queue _ _ _ Hinv q Hq) as [_ Hsub].
    apply Hsub, counted_subseteq in Hc.
    apply (inv_requests _ _ _ Hinv), In_fst in Hc as [b Hb].
    now rewrite <- (inv_success _ _ _ Hinv c b Hb).
  - eapply (inv_order _ _ _ Hinv); eassumption.
Qed.

Lemma nodup_snoc (st : state) q ok :
  invariant st -> q ∉ processed st ->
  List.NoDup (map fst (requests st ++ [(q, ok)])).
Proof.
  intros Hinv Hq. rewrite List.map_app. simpl.
  apply List.NoDup_app.
  - apply (inv_nodup _ _ _ Hinv).
  - repeat constructor. intros [].
  - intros c Hc [<- |[]]. now apply (inv_requests _ _ _ Hinv) in Hc.
Qed.

Lemma counted_empty org : counted org ∅ = ∅.
Proof.
  unfold Parties.counted. apply set_eq. intros c.
  rewrite elem_of_filter, elem_of_empty. tauto.
Qed.

Lemma initial_count org :
  org ∈ deletable ->
  childCount initial !! org = Some (Z.of_nat (size (deletable_children org))).
Proof.
  intros H. unfold Parties.initial. cbn [childCount].
  unfold initialChildCount. rewrite initialChildCount_acc.
  rewrite decide_True; [reflexivity|].
  apply deletableIds_spec in H as (party & Hin & <-).
  apply list_elem_of_In. now apply List.in_map.
Qed.

Lemma initial_invariant : invariant initial.
Proof.
  constructor.
  - intros q Hq. unfold Parties.initial in Hq. cbn [queue] in Hq.
    unfold initialQueue in Hq. apply List.in_rev in Hq.
    apply List.in_map_iff in Hq as (party & <- & Hparty).
    apply List.filter_In in Hparty as [Hin Hzero].
    assert (Hdel : id party ∈ deletable).
    { apply deletableIds_spec. eauto. }
    split; [assumption|].
    fold (Parties.children parties) in Hzero.
    fold (Parties.deletable parties removeRoots) in Hzero.
    pose proof (initial_count (id party) Hdel) as Hcount.
    unfold Parties.initial in Hcount. cbn [childCount] in Hcount.
    rewrite Hcount in Hzero. simpl in Hzero. apply Z.eqb_eq in Hzero.
    assert (Hempty : size (deletable_children (id party)) = 0%nat) by lia.
    apply size_empty_iff in Hempty. intros c Hc. apply Hempty in Hc.
    now apply elem_of_empty in Hc.
  - intros c Hc. now apply elem_of_empty in Hc.
  - intros org Horg. rewrite (initial_count org Horg).
    cbn [processed Parties.initial]. rewrite counted_empty.
    now rewrite difference_empty_L.
  - intros c. cbn. rewrite elem_of_empty. tauto.
  - intros c ok [].
  - constructor.
  - intros before p ok after H. now destruct before.
Qed.

(** A party of the queue is processed and its request succeeds. *)
Lemma invariant_advance (st : state) q rest party queue' counts' deleted' :
  invariant st -> queue st = q :: rest -> q ∉ processed st ->
  byId !! q = Some party ->
  (forall x, In x queue' ->
     x ∈ deletable /\ deletable_children x ⊆ counted x (processed st ∪ {[q]})) ->
  (forall org, org ∈ deletable ->
     counts' !! org
     = Some (Z.of_nat (size (deletable_children org
                             ∖ counted org (processed st ∪ {[q]}))))) ->
  invariant {| queue := queue'; processed := processed st ∪ {[q]};
               childCount := counts'; deleted := deleted';
               requests := requests st ++ [(id party, true)] |}.
Proof.
  intros Hinv Hqueue Hnew Hparty Hqueue' Hcounts'.
  pose proof (partyById_In _ _ _ Hparty) as [_ Hid].
  assert (Hq : In q (queue st)) by (rewrite Hqueue; now left).
  destruct (inv_queue _ _ _ Hinv q Hq) as [Hdel _].
  constructor; cbn [queue processed childCount requests].
  - exact Hqueue'.
  - intros c. rewrite elem_of_union, elem_of_singleton.
    intros [Hc| ->]; [now apply (inv_processed _ _ _ Hinv) | assumption].
  - exact Hcounts'.
  - intros c. rewrite elem_of_union, elem_of_singleton, List.map_app, List.in_app_iff.
    rewrite (inv_requests _ _ _ Hinv c). simpl. rewrite Hid. intuition congruence.
  - intros c ok Hc. apply List.in_app_iff in Hc as [Hc|[Hc|[]]].
    + now apply (inv_success _ _ _ Hinv c).
    + congruence.
  - rewrite Hid. now apply nodup_snoc.
  - rewrite Hid. now apply order_snoc.
Qed.

Lemma keep_queue (st : state) q rest :
  invariant st -> queue st = q :: rest ->
  forall x, In x rest ->
    x ∈ deletable /\ deletable_children x ⊆ counted x (processed st ∪ {[q]}).
Proof.
  intros Hinv Hqueue x Hx.
  destruct (inv_queue _ _ _ Hinv x) as [Hdel Hsub]; [rewrite Hqueue; now right|].
  split; [assumption|]. etransitivity; [exact Hsub | apply counted_mono].
Qed.

Lemma iteration_invariant (st st' : state) :
  invariant st -> iteration st = (st', Running) -> invariant st'.
Proof.
  intros Hinv. unfold Parties.iteration.
  destruct (queue st) as [|q rest] eqn:Hqueue; [discriminate|].
  assert (Hq : In q (queue st)) by (rewrite Hqueue; now left).
  destruct (inv_queue _ _ _ Hinv q Hq) as [Hdel Hsub].
  destruct (decide (q ∈ processed st)) as [Hseen|Hnew].
  { intros [= <-]. destruct Hinv. constructor; cbn; auto.
    intros x Hx. apply inv_queue0. rewrite Hqueue. now right. }
  fold (Parties.byId parties).
  destruct (byId_deletable q Hdel) as [party Hparty]. rewrite Hparty.
  destruct (api_delete (requests st) (id party)); cbn [negb]; [|discriminate].
  assert (Hparent : parent_of q = parent party).
  { unfold Parties.parent_of. fold (Parties.byId parties). now rewrite Hparty. }
  fold (Parties.deletable parties removeRoots).
  destruct (parent party) as [org|] eqn:Horg;
    [destruct (decide (org ∈ deletable)) as [Hin|Hout]|]; intros [= <-].
  - (* the parent is deletable: its count goes down by one *)
    assert (Hchild : q ∈ deletable_children org) by eauto using child_of_parent.
    assert (Huncounted : q ∉ counted org (processed st)).
    { intros H. now apply counted_subseteq in H. }
    pose proof (size_uncounted _ _ q Hchild Huncounted) as Hsize.
    rewrite <- (counted_add_child org q (processed st) Hparent) in Hsize.
    rewrite (inv_counts _ _ _ Hinv org Hin). cbn [default from_option].
    unfold Datatypes.id. rewrite <- Hsize.
    rewrite Z.max_l by lia.
    eapply invariant_advance; eauto.
    + intros x Hx.
      assert (Hcases : x = org /\ size (deletable_children org
                          ∖ counted org (processed st ∪ {[q]})) = 0%nat
                       \/ In x rest).
      { destruct (Z.leb_spec (Z.of_nat (size (deletable_children org
                          ∖ counted org (processed st ∪ {[q]})))) 0) as [Hle|Hgt].
        - destruct Hx as [<- |Hx]; [left; split; [reflexivity | lia] | now right].
        - now right. }
      destruct Hcases as [[-> Hzero]|Hrest]; [|eapply keep_queue; eauto].
      split; [assumption|]. apply size_empty_iff in Hzero.
      intros c Hc. destruct (decide (c ∈ counted org (processed st ∪ {[q]})));
        [assumption|]. exfalso. apply (not_elem_of_empty (C:=gset string) c).
      apply Hzero. apply elem_of_difference. tauto.
    + intros p Hp. destruct (decide (p = org)) as [->|Hne].
      * now rewrite lookup_insert_eq.
      * rewrite lookup_insert_ne by congruence.
        rewrite (inv_counts _ _ _ Hinv p Hp).
        rewrite (counted_add_other p q); [reflexivity|]. congruence.
  - eapply invariant_advance; eauto using keep_queue.
    intros p Hp. rewrite (inv_counts _ _ _ Hinv p Hp).
    rewrite (counted_add_other p q); [reflexivity|]. congruence.
  - eapply invariant_advance; eauto using keep_queue.
    intros p Hp. rewrite (inv_counts _ _ _ Hinv p Hp).
    rewrite (counted_add_other p q); [reflexivity|]. congruence.
Qed.

Abbreviation reachable := (Parties.reachable api_delete parties removeRoots).
Abbreviation work_left := (Parties.work_left parties removeRoots).

Lemma reachable_invariant (st : state) : reachable st -> invariant st.
Proof.
  induction 1; [apply initial_invariant | eauto using iteration_invariant].
Qed.

Lemma invariant_outcome (st : state) : invariant st -> outcome st.
Proof.
  intros Hinv. constructor.
  - apply (inv_nodup _ _ _ Hinv).
  - apply (inv_order _ _ _ Hinv).
  - intros p ok Hp. apply (inv_processed _ _ _ Hinv), (inv_requests _ _ _ Hinv).
    apply In_fst. eauto.
Qed.

Lemma iteration_outcome (st st' : state) s :
  invariant st -> iteration st = (st', s) -> s <> Running -> outcome st'.
Proof.
  intros Hinv. unfold Parties.iteration.
  destruct (queue st) as [|q rest] eqn:Hqueue.
  { intros [= <- <-] _. now apply invariant_outcome. }
  assert (Hq : In q (queue st)) by (rewrite Hqueue; now left).
  destruct (inv_queue _ _ _ Hinv q Hq) as [Hdel Hsub].
  destruct (decide (q ∈ processed st)) as [Hseen|Hnew]; [intros [= <- <-]; congruence|].
  fold (Parties.byId parties).
  destruct (byId_deletable q Hdel) as [party Hparty]. rewrite Hparty.
  pose proof (partyById_In _ _ _ Hparty) as [_ Hid].
  destruct (api_delete (requests st) (id party)); cbn [negb].
  - destruct (parent party); [destruct (decide _)|]; intros [= <- <-]; congruence.
  - intros [= <- <-] _. rewrite Hid. constructor; cbn [requests].
    + now apply nodup_snoc.
    + now apply order_snoc.
    + intros p ok Hp. apply List.in_app_iff in Hp as [Hp|[[= <- <-]|[]]];
        [|assumption].
      apply (inv_processed _ _ _ Hinv), (inv_requests _ _ _ Hinv).
      apply In_fst. eauto.
Qed.

Lemma loop_outcome fuel (st : state) :
  invariant st -> outcome (fst (loop fuel st)).
Proof.
  revert st. induction fuel as [|fuel IH]; intros st Hinv.
  - now apply invariant_outcome.
  - cbn [Parties.loop]. destruct (iteration st) as [st' s] eqn:E.
    destruct s; try (eapply iteration_outcome; eauto; discriminate).
    apply IH. eauto using iteration_invariant.
Qed.

(** A party in the queue has no deletable child left to count, and all of
    them have been deleted. *)
Lemma queued_after_children (st : state) q :
  invariant st -> In q (queue st) ->
  childCount st !! q = Some 0
  /\ forall c, deletable_child q c -> In (c, true) (requests st).
Proof.
  intros Hinv Hq. destruct (inv_queue _ _ _ Hinv q Hq) as [Hdel Hsub]. split.
  - rewrite (inv_counts _ _ _ Hinv q Hdel).
    assert (E : deletable_children q ∖ counted q (processed st) = ∅).
    { apply set_eq. intros c. rewrite elem_of_difference, elem_of_empty.
      split; [|tauto]. intros [Hc Hn]. apply Hn, Hsub, Hc. }
    now rewrite E, size_empty.
  - intros c Hc. apply deletable_children_spec, Hsub, counted_subseteq in Hc.
    apply (inv_requests _ _ _ Hinv), In_fst in Hc as [b Hb].
    now rewrite <- (inv_success _ _ _ Hinv c b Hb).
Qed.

(** Every iteration that goes on uses up some of the work left. *)
Lemma iteration_work (st st' : state) :
  invariant st -> iteration st = (st', Running) ->
  (work_left st' < work_left st)%nat.
Proof.
  intros Hinv. unfold Parties.iteration, Parties.work_left.
  destruct (queue st) as [|q rest] eqn:Hqueue; [discriminate|].
  assert (Hq : In q (queue st)) by (rewrite Hqueue; now left).
  destruct (inv_queue _ _ _ Hinv q Hq) as [Hdel Hsub].
  fold (Parties.deletable parties removeRoots).
  destruct (decide (q ∈ processed st)) as [Hseen|Hnew].
  { intros [= <-]. cbn. lia. }
  pose proof (size_uncounted deletable (processed st) q Hdel Hnew) as Hsize.
  fold (Parties.byId parties).
  destruct (byId !! q) as [party|].
  - destruct (api_delete (requests st) (id party)); cbn [negb]; [|discriminate].
    destruct (parent party); [destruct (decide _)|]; intros [= <-];
      cbn [queue processed length];
      try destruct (_ <=? _); cbn [length]; lia.
  - intros [= <-]. cbn [queue processed length]. lia.
Qed.

Lemma iteration_status (st st' : state) s :
  iteration st = (st', s) -> s <> OutOfFuel.
Proof.
  unfold Parties.iteration.
  repeat match goal with
         | |- (match ?x with _ => _ end) = _ -> _ => destruct x
         | |- (if ?x then _ else _) = _ -> _ => destruct x
         | |- (let _ := _ in _) = _ -> _ => cbv zeta
         end; intros [= <- <-]; discriminate.
Qed.

Lemma loop_terminates fuel (st : state) :
  invariant st -> (work_left st < fuel)%nat -> snd (loop fuel st) <> OutOfFuel.
Proof.
  revert st. induction fuel as [|fuel IH]; intros st Hinv Hfuel; [lia|].
  cbn [Parties.loop]. destruct (iteration st) as [st' s] eqn:E.
  pose proof (iteration_status _ _ _ E) as Hs.
  destruct s; try assumption; try discriminate.
  apply IH; [eauto using iteration_invariant|].
  pose proof (iteration_work st st' Hinv E). lia.
Qed.

Lemma resetParties_cases fuel :
  resetParties fuel = loop fuel initial
  \/ (requests (fst (resetParties fuel)) = [] /\ snd (resetParties fuel) = Finished).
Proof.
  unfold Parties.resetParties.
  destruct parties as [|p l]; [right; split; reflexivity|].
  destruct (removable removeRoots (p :: l)); [right; split; reflexivity|].
  now left.
Qed.

(** C10.  The reset deletes leaves first.  No party is requested twice;
    when the request for a party is sent, the request for each of its
    deletable children has been sent before and has succeeded; a party
    enters the queue only once its count of deletable children is zero;
    only removable parties are requested, and a party is removable when
    its [orgId] is not null or --remove-roots is given.  The loop ends
    within the work its initial state leaves. *)
Theorem resetParties_leaves_first :
  (forall fuel,
     List.NoDup (map fst (requests (fst (resetParties fuel))))
     /\ (forall before p ok after,
           requests (fst (resetParties fuel)) = before ++ (p, ok) :: after ->
           forall c, deletable_child p c -> In (c, true) before)
     /\ (forall p ok,
           In (p, ok) (requests (fst (resetParties fuel))) ->
           exists party, In party parties /\ id party = p
                         /\ (removeRoots = true \/ orgId party <> Null)))
  /\ (forall st q,
        reachable st -> In q (queue st) ->
        childCount st !! q = Some 0
        /\ forall c, deletable_child q c -> In (c, true) (requests st))
  /\ (forall party,
        In party (removable removeRoots parties)
        <-> In party parties /\ (removeRoots = true \/ orgId party <> Null))
  /\ (forall fuel,
        (work_left initial < fuel)%nat -> snd (resetParties fuel) <> OutOfFuel).
Proof.
  assert (Hout : forall fuel, outcome (fst (resetParties fuel))).
  { intros fuel. destruct (resetParties_cases fuel) as [->|[Hnone _]].
    - apply loop_outcome, initial_invariant.
    - constructor; rewrite Hnone; [constructor | intros [] | intros ? ? []];
        discriminate. }
  repeat apply conj.
  - intros fuel. destruct (Hout fuel) as [Hnodup Horder Hdel]. repeat split.
    + exact Hnodup.
    + intros before p ok after Hsplit c Hc.
      eapply Horder; [exact Hsplit | now apply deletable_children_spec].
    + intros p ok Hp. now apply deletable_spec, (Hdel p ok).
  - intros st q Hreach. apply queued_after_children, reachable_invariant, Hreach.
  - apply removable_spec.
  - intros fuel Hfuel. destruct (resetParties_cases fuel) as [->|[_ ->]].
    + apply loop_terminates; [apply initial_invariant | exact Hfuel].
    + discriminate.
Qed.

End api.

(** The theorem at a root organisation with one child, roots included. *)
Lemma resetParties_leaves_first_witness :
  (Parties.work_left
     [{| id := "org"; shortId := "o"; name := "Org"; orgId := Null |};
      {| id := "kid"; shortId := "k"; name := "Kid"; orgId := Org "org" |}]
     true
     (Parties.initial
        [{| id := "org"; shortId := "o"; name := "Org"; orgId := Null |};
         {| id := "kid"; shortId := "k"; name := "Kid"; orgId := Org "org" |}]
        true) < 6)%nat
  /\ snd (Parties.resetParties (fun _ _ => true)
            [{| id := "org"; shortId := "o"; name := "Org"; orgId := Null |};
             {| id := "kid"; shortId := "k"; name := "Kid"; orgId := Org "org" |}]
            true 6) <> OutOfFuel.
Proof.
  assert (Hwork :
    (Parties.work_left
       [{| id := "org"; shortId := "o"; name := "Org"; orgId := Null |};
        {| id := "kid"; shortId := "k"; name := "Kid"; orgId := Org "org" |}]
       true
       (Parties.initial
          [{| id := "org"; shortId := "o"; name := "Org"; orgId := Null |};
           {| id := "kid"; shortId := "k"; name := "Kid"; orgId := Org "org" |}]
          true) < 6)%nat).
  { apply Nat.ltb_lt. vm_compute. reflexivity. }
  split; [exact Hwork|].
  destruct (resetParties_leaves_first (fun _ _ => true)
              [{| id := "org"; shortId := "o"; name := "Org"; orgId := Null |};
               {| id := "kid"; shortId := "k"; name := "Kid"; orgId := Org "org" |}]
              true) as (_ & _ & _ & H).
  apply H. exact Hwork.
Defined.
End PartiesFacts.

(** ** OpenSearch: bulk endpoint and bulk payload *)

Module OpenSearchBulkFacts.
Import Js JsFacts OpenSearch OpenSearchFacts OpenSearchBulk.

Lemma ends_with_from_inv (suffix s : string) n :
  ApiVirtual.ends_with_from suffix s n = true -> exists p, s = p +:+ suffix.
Proof.
  revert n. induction s as [|c s IH]; intros n.
  - destruct n; cbn [ApiVirtual.ends_with_from]; intros H;
      apply String.eqb_eq in H; now exists "".
  - destruct n as [|n]; cbn [ApiVirtual.ends_with_from].
    + intros H. apply String.eqb_eq in H. now exists "".
    + intros H. apply orb_true_iff in H as [H|H].
      * apply String.eqb_eq in H. now exists "".
      * destruct (IH _ H) as [p ->]. now exists (String c p).
Qed.

Lemma ends_with_from_app (p suffix : string) n :
  (String.length p <= n)%nat ->
  ApiVirtual.ends_with_from suffix (p +:+ suffix) n = true.
Proof.
  revert n. induction p as [|c p IH]; intros n Hn.
  - change ("" +:+ suffix) with suffix.
    destruct n, suffix; cbn [ApiVirtual.ends_with_from];
      rewrite ?String.eqb_refl; reflexivity.
  - destruct n as [|n]; [simpl in Hn; lia|].
    change (String c p +:+ suffix) with (String c (p +:+ suffix)).
    cbn [ApiVirtual.ends_with_from]. rewrite IH by (simpl in Hn; lia).
    apply orb_true_r.
Qed.

(** [s.endsWith(suffix)] holds exactly of the texts that [suffix] ends. *)
Lemma endsWith_spec (s suffix : string) :
  ApiVirtual.endsWith s suffix = true <-> exists p, s = p +:+ suffix.
Proof.
  unfold ApiVirtual.endsWith. split.
  - apply ends_with_from_inv.
  - intros [p ->]. apply ends_with_from_app. rewrite length_app. lia.
Qed.

Lemma drop_trailing_slash_cons (c d : ascii) (rest : string) :
  drop_trailing_slash (String c (String d rest))
  = String c (drop_trailing_slash (String d rest)).
Proof. reflexivity. Qed.

Lemma drop_trailing_slash_app (a b : string) :
  b <> "" -> drop_trailing_slash (a +:+ b) = a +:+ drop_trailing_slash b.
Proof.
  intros Hb. induction a as [|c a IH]; [reflexivity|].
  change (String c a +:+ b) with (String c (a +:+ b)).
  change (String c a +:+ drop_trailing_slash b)
    with (String c (a +:+ drop_trailing_slash b)).
  rewrite <- IH. destruct (a +:+ b) as [|d rest] eqn:E.
  - destruct a; simpl in E; [congruence | discriminate].
  - apply drop_trailing_slash_cons.
Qed.

(** X1.  [normalizeBulkEndpoint] returns an address that ends in [/_bulk]:
    the endpoint without the slash that may end it, followed by [/_bulk]
    unless that is how it ends already.  Normalising twice changes nothing
    more. *)
Theorem normalizeBulkEndpoint_idempotent (endpoint : string) :
  ApiVirtual.endsWith (normalizeBulkEndpoint endpoint) "/_bulk" = true
  /\ normalizeBulkEndpoint (normalizeBulkEndpoint endpoint)
     = normalizeBulkEndpoint endpoint
  /\ (forall base, normalizeBulkEndpoint (base +:+ "/_bulk") = base +:+ "/_bulk")
  /\ (forall base, normalizeBulkEndpoint (base +:+ "/_bulk/") = base +:+ "/_bulk")
  /\ (ApiVirtual.endsWith (drop_trailing_slash endpoint) "/_bulk" = false ->
      normalizeBulkEndpoint endpoint = drop_trailing_slash endpoint +:+ "/_bulk").
Proof.
  assert (Hbase : forall base,
            normalizeBulkEndpoint (base +:+ "/_bulk") = base +:+ "/_bulk").
  { intros base. unfold normalizeBulkEndpoint.
    rewrite drop_trailing_slash_app by discriminate.
    change (drop_trailing_slash "/_bulk") with "/_bulk".
    now rewrite (proj2 (endsWith_spec _ _)) by eauto. }
  assert (Hends : exists p, normalizeBulkEndpoint endpoint = p +:+ "/_bulk").
  { unfold normalizeBulkEndpoint.
    destruct (ApiVirtual.endsWith (drop_trailing_slash endpoint) "/_bulk") eqn:E.
    - now apply endsWith_spec.
    - eauto. }
  repeat apply conj.
  - now apply endsWith_spec.
  - destruct Hends as [p ->]. apply Hbase.
  - exact Hbase.
  - intros base. unfold normalizeBulkEndpoint.
    rewrite drop_trailing_slash_app by discriminate.
    change (drop_trailing_slash "/_bulk/") with "/_bulk".
    now rewrite (proj2 (endsWith_spec _ _)) by eauto.
  - intros E. unfold normalizeBulkEndpoint. now rewrite E.
Qed.

(** The theorem at an endpoint that ends with a slash. *)
Lemma normalizeBulkEndpoint_idempotent_witness :
  ApiVirtual.endsWith (drop_trailing_slash "http://localhost:9200/") "/_bulk" = false
  /\ normalizeBulkEndpoint "http://localhost:9200/"
     = drop_trailing_slash "http://localhost:9200/" +:+ "/_bulk".
Proof.
  split; [reflexivity|].
  destruct (normalizeBulkEndpoint_idempotent "http://localhost:9200/")
    as (_ & _ & _ & _ & H).
  apply H. reflexivity.
Defined.

(** *** The payload built from documents *)

Lemma mapM_app {A B} (f : A -> result B) (xs ys : list A) :
  mapM f (xs ++ ys)
  = (do xs' <- mapM f xs; do ys' <- mapM f ys; Ok (xs' ++ ys')).
Proof.
  induction xs as [|x xs IH].
  - change (mapM f []) with (@Ok (list B) []). cbn [app bind].
    destruct (mapM f ys); reflexivity.
  - cbn [app]. rewrite !mapM_cons, IH. destruct (f x); [|reflexivity].
    destruct (mapM f xs); [|reflexivity]. cbn [bind].
    destruct (mapM f ys); reflexivity.
Qed.

(** JSON data is a document of the bulk payload when it is an array or an
    object. *)
Lemma bulk_lines_document index (item : value) :
  json_data item = true -> is_object item = true ->
  exists action text,
    JSON_stringify (index_action index) = Ok (Some action)
    /\ JSON_stringify item = Ok (Some text)
    /\ bulk_lines index item = Ok [action; text]
    /\ proper_line action = true /\ proper_line text = true.
Proof.
  intros Hdata Hobject.
  destruct (JSON_stringify_line (index_action index) eq_refl)
    as (action & Eaction & Hva & Hna).
  destruct (JSON_stringify_line item Hdata) as (text & Etext & Hvt & Hnt).
  exists action, text. unfold bulk_lines.
  assert (Hguard : negb (truthy item) || negb (String.eqb (typeof item) "object")
                   = false) by (destruct item; try discriminate; reflexivity).
  rewrite Hguard, Eaction, Etext. unfold proper_line.
  rewrite (visible_nonblank _ Hva), (visible_nonblank _ Hvt), Hna, Hnt.
  repeat split.
Qed.

Lemma bulk_lines_primitive index (item : value) :
  json_data item = true -> is_object item = false ->
  bulk_lines index item = Throw (Error "Each document must be an object.").
Proof.
  intros Hdata Hprim. unfold bulk_lines.
  assert (Hguard : negb (truthy item) || negb (String.eqb (typeof item) "object")
                   = true).
  { destruct item; try discriminate; try apply orb_true_r; reflexivity. }
  now rewrite Hguard.
Qed.

Lemma bulk_lines_all index (items : list value) :
  List.Forall (fun item => json_data item = true /\ is_object item = true) items ->
  exists action texts,
    JSON_stringify (index_action index) = Ok (Some action)
    /\ List.Forall2 (fun item text => JSON_stringify item = Ok (Some text)) items texts
    /\ mapM (bulk_lines index) items = Ok (map (fun text => [action; text]) texts)
    /\ List.Forall (fun line => proper_line line = true)
         (concat (map (fun text => [action; text]) texts)).
Proof.
  destruct (JSON_stringify_line (index_action index) eq_refl) as (action & Eaction & _).
  induction 1 as [|item items [Hdata Hobject] _ (action' & texts & E' & Htexts & Hmap & Hlines)].
  - exists action, []. repeat split; [exact Eaction | constructor | constructor].
  - destruct (bulk_lines_document index item Hdata Hobject)
      as (a & text & Ea & Etext & Hitem & Hpa & Hpt).
    assert (a = action') by congruence. subst a.
    exists action', (text :: texts). repeat split.
    + exact Ea.
    + now constructor.
    + rewrite mapM_cons, Hitem. cbn [bind]. rewrite Hmap. reflexivity.
    + cbn [map concat app]. repeat constructor; assumption.
Qed.

(** X2.  [buildBulkPayload] refuses to work without an index.  For
    documents that are JSON arrays or objects it writes two lines per
    document, the index action on the given index and then the document
    itself, in the order of the documents, ends the payload with a line
    feed and counts the documents; a single object is a payload of one
    document.  A document that is a number, a string, a boolean or null
    makes it raise. *)
Theorem buildBulkPayload_lines :
  (forall docs,
      buildBulkPayload docs None
      = Throw (Error "Missing required --index for JSON/YAML inputs.")
      /\ buildBulkPayload docs (Some "")
         = Throw (Error "Missing required --index for JSON/YAML inputs."))
  /\ (forall items index,
        index <> "" ->
        List.Forall (fun item => json_data item = true /\ is_object item = true) items ->
        exists action texts,
          JSON_stringify (index_action index) = Ok (Some action)
          /\ List.Forall2 (fun item text => JSON_stringify item = Ok (Some text))
               items texts
          /\ buildBulkPayload (VArray items) (Some index)
             = Ok (join nl (concat (map (fun text => [action; text]) texts)) +:+ nl,
                   length items)
          /\ List.filter nonblank
               (split newline
                  (join nl (concat (map (fun text => [action; text]) texts)) +:+ nl))
             = concat (map (fun text => [action; text]) texts)
          /\ length (concat (map (fun text => [action; text]) texts))
             = (2 * length items)%nat)
  /\ (forall props index,
        buildBulkPayload (VObject props) (Some index)
        = match buildBulkPayload (VArray [VObject props]) (Some index) with
          | Ok (payload, _) => Ok (payload, 1%nat)
          | Throw e => Throw e
          end)
  /\ (forall before item after index,
        index <> "" ->
        List.Forall (fun item => json_data item = true /\ is_object item = true) before ->
        json_data item = true -> is_object item = false ->
        buildBulkPayload (VArray (before ++ item :: after)) (Some index)
        = Throw (Error "Each document must be an object.")).
Proof.
  assert (Hindex : forall index, index <> "" ->
            Some index ≫= (fun i => if String.eqb i "" then None else Some i)
            = Some index).
  { intros index Hne. simpl. now destruct (String.eqb_spec index ""). }
  repeat apply conj.
  - intros docs. split; reflexivity.
  - intros items index Hne Hitems. unfold buildBulkPayload. rewrite (Hindex _ Hne).
    destruct (bulk_lines_all index items Hitems)
      as (action & texts & Eaction & Htexts & Hmap & Hlines).
    exists action, texts. rewrite Hmap. cbn [bind].
    repeat split; auto using lines_of_payload.
    apply List.Forall2_length in Htexts. rewrite Htexts.
    clear. induction texts as [|t texts IH]; simpl; [reflexivity|]. rewrite IH. lia.
  - intros props index. unfold buildBulkPayload.
    destruct (Some index ≫= _); [|reflexivity].
    destruct (mapM _ _); reflexivity.
  - intros before item after index Hne Hbefore Hdata Hprim.
    unfold buildBulkPayload. rewrite (Hindex _ Hne).
    destruct (bulk_lines_all index before Hbefore) as (action & texts & _ & _ & Hmap & _).
    rewrite mapM_app, Hmap. cbn [bind].
    rewrite mapM_cons, (bulk_lines_primitive index item Hdata Hprim). reflexivity.
Qed.

(** The theorem at two documents. *)
Lemma buildBulkPayload_lines_witness :
  "ops" <> ""
  /\ List.Forall (fun item => json_data item = true /\ is_object item = true)
       [VObject [("a", VBool true)]; VObject []]
  /\ exists payload,
       buildBulkPayload (VArray [VObject [("a", VBool true)]; VObject []]) (Some "ops")
       = Ok (payload, 2%nat).
Proof.
  assert (Hne : "ops" <> "") by discriminate.
  assert (Hitems : List.Forall
                     (fun item => json_data item = true /\ is_object item = true)
                     [VObject [("a", VBool true)]; VObject []])
    by (repeat constructor).
  split; [exact Hne|]. split; [exact Hitems|].
  destruct buildBulkPayload_lines as (_ & H & _).
  destruct (H _ "ops" Hne Hitems) as (action & texts & _ & _ & E & _).
  eexists. exact E.
Defined.

End OpenSearchBulkFacts.

(** ** Mock server: helpers of the router *)

Module ApiHelpersFacts.
Import Js JsFacts ApiVirtual ApiHelpers.

(** *** Escaping of HTML *)

Lemma decode_from_entity n c (rest : string) :
  is_html_special c = true ->
  decode_from (S n) (entity c +:+ rest) = String c (decode_from n rest).
Proof.
  unfold is_html_special, entity. intros H.
  destruct (Ascii.eqb_spec c "&") as [->|_]; [reflexivity|].
  destruct (Ascii.eqb_spec c "<") as [->|_]; [reflexivity|].
  destruct (Ascii.eqb_spec c ">") as [->|_]; [reflexivity|].
  destruct (Ascii.eqb_spec c dquote) as [->|_]; [reflexivity|].
  destruct (Ascii.eqb_spec c "'") as [->|_]; [reflexivity | discriminate].
Qed.

Lemma decode_from_plain n c (rest : string) :
  is_html_special c = false ->
  decode_from (S n) (String c rest) = String c (decode_from n rest).
Proof.
  unfold is_html_special. intros H.
  apply orb_false_iff in H as [H _]. apply orb_false_iff in H as [H _].
  apply orb_false_iff in H as [H _]. apply orb_false_iff in H as [H _].
  cbn [decode_from strip_prefix]. rewrite (Ascii.eqb_sym "&" c), H. reflexivity.
Qed.

Lemma entity_length c : (1 <= String.length (entity c))%nat.
Proof.
  unfold entity.
  repeat match goal with |- context [if ?b then _ else _] => destruct b end;
    simpl; lia.
Qed.

Lemma decode_from_escapeHtml n (input : string) :
  (String.length (escapeHtml input) <= n)%nat ->
  decode_from n (escapeHtml input) = input.
Proof.
  revert n. induction input as [|c input IH]; intros n Hn.
  - now destruct n.
  - cbn [escapeHtml] in *. destruct (is_html_special c) eqn:Hc.
    + rewrite length_app in Hn. pose proof (entity_length c).
      destruct n as [|n]; [lia|].
      rewrite decode_from_entity by assumption. f_equal. apply IH. lia.
    + simpl in Hn. destruct n as [|n]; [lia|].
      rewrite decode_from_plain by assumption. f_equal. apply IH. lia.
Qed.

Lemma occurs_entity q c :
  is_html_special q = true -> Ascii.eqb q "&" = false ->
  Sql.occurs q (entity c) = false.
Proof.
  unfold is_html_special, entity. intros Hq Hamp. rewrite Hamp in Hq.
  destruct (Ascii.eqb_spec q "<") as [->|_];
    [repeat match goal with |- context [if ?b then _ else _] => destruct b end;
     reflexivity|].
  destruct (Ascii.eqb_spec q ">") as [->|_];
    [repeat match goal with |- context [if ?b then _ else _] => destruct b end;
     reflexivity|].
  destruct (Ascii.eqb_spec q dquote) as [->|_];
    [repeat match goal with |- context [if ?b then _ else _] => destruct b end;
     reflexivity|].
  destruct (Ascii.eqb_spec q "'") as [->|_]; [|discriminate].
  repeat match goal with |- context [if ?b then _ else _] => destruct b end;
    reflexivity.
Qed.

Lemma occurs_escapeHtml q (input : string) :
  is_html_special q = true -> Ascii.eqb q "&" = false ->
  Sql.occurs q (escapeHtml input) = false.
Proof.
  intros Hq Hamp. induction input as [|c input IH]; [reflexivity|].
  cbn [escapeHtml]. destruct (is_html_special c) eqn:Hc.
  - now rewrite occurs_app, occurs_entity, IH.
  - cbn [Sql.occurs]. rewrite IH, orb_false_r.
    destruct (Ascii.eqb_spec c q) as [->|]; congruence.
Qed.

(** X3.  The text [escapeHtml] returns holds no angle bracket, double
    quote or apostrophe, so that it cannot open or close a tag or an
    attribute value, and decoding its entities gives back the input: two
    inputs are escaped to the same text only when they are equal. *)
Theorem escapeHtml_round_trip :
  (forall input,
      Sql.occurs "<" (escapeHtml input) = false
      /\ Sql.occurs ">" (escapeHtml input) = false
      /\ Sql.occurs dquote (escapeHtml input) = false
      /\ Sql.occurs "'" (escapeHtml input) = false
      /\ decode_entities (escapeHtml input) = input)
  /\ (forall a b, escapeHtml a = escapeHtml b -> a = b).
Proof.
  assert (Hdecode : forall input, decode_entities (escapeHtml input) = input).
  { intros input. apply decode_from_escapeHtml. reflexivity. }
  split.
  - intros input. repeat split; auto using occurs_escapeHtml.
  - intros a b H. rewrite <- (Hdecode a), <- (Hdecode b). now rewrite H.
Qed.

(** The theorem at two texts that are escaped alike. *)
Lemma escapeHtml_round_trip_witness :
  escapeHtml "a<b" = escapeHtml "a<b" /\ "a<b" = "a<b".
Proof.
  split; [reflexivity|].
  exact (proj2 escapeHtml_round_trip "a<b" "a<b" eq_refl).
Defined.

(** *** Lists in environment variables *)

Lemma trim_end_idempotent (s : string) : trim_end (trim_end s) = trim_end s.
Proof.
  induction s as [|c s IH]; [reflexivity|].
  cbn [trim_end]. destruct (trim_end s) as [|k kept] eqn:E.
  - destruct (is_space c) eqn:Hc; [reflexivity|]. cbn [trim_end]. now rewrite Hc.
  - cbn [trim_end] in *. now rewrite IH.
Qed.

Lemma trim_end_stops (s : string) :
  stops is_space s = true -> stops is_space (trim_end s) = true.
Proof.
  destruct s as [|c s]; [reflexivity|]. cbn [stops trim_end]. intros Hc.
  destruct (trim_end s); [|exact Hc].
  apply negb_true_iff in Hc. rewrite Hc. simpl. now rewrite Hc.
Qed.

Lemma skip_spaces_stops (s : string) : stops is_space s = true -> skip_spaces s = s.
Proof.
  destruct s as [|c s]; [reflexivity|]. unfold skip_spaces. simpl.
  intros Hc. apply negb_true_iff in Hc. now rewrite Hc.
Qed.

Lemma trim_idempotent (s : string) : trim (trim s) = trim s.
Proof.
  unfold trim. rewrite (skip_spaces_stops (trim_end _)).
  - apply trim_end_idempotent.
  - apply trim_end_stops, span_stops.
Qed.

Lemma occurs_trim_end c (s : string) :
  Sql.occurs c s = false -> Sql.occurs c (trim_end s) = false.
Proof.
  induction s as [|x s IH]; [reflexivity|]. cbn [Sql.occurs trim_end].
  intros H. apply orb_false_iff in H as [Hx Hs]. specialize (IH Hs).
  destruct (trim_end s).
  - destruct (is_space x); [reflexivity|]. simpl. now rewrite Hx.
  - cbn [Sql.occurs] in *. now rewrite Hx, IH.
Qed.

Lemma occurs_skip_spaces c (s : string) :
  Sql.occurs c s = false -> Sql.occurs c (skip_spaces s) = false.
Proof.
  unfold skip_spaces. intros H. rewrite (span_source is_space s) in H.
  rewrite occurs_app in H. now apply orb_false_iff in H as [_ H].
Qed.

Lemma occurs_trim c (s : string) :
  Sql.occurs c s = false -> Sql.occurs c (trim s) = false.
Proof. intros H. now apply occurs_trim_end, occurs_skip_spaces. Qed.

Lemma split_join_any sep (parts : list string) :
  List.Forall (fun part => Sql.occurs sep part = false) parts ->
  split sep (join (String sep "") parts)
  = match parts with
    | [] => [""]
    | _ => parts
    end.
Proof.
  intros H. destruct parts as [|x parts]; [reflexivity|].
  now apply split_join.
Qed.

(** X4.  [parseCsvEnv] returns nothing for a variable that is not set or
    is empty.  What it returns otherwise are the items between the commas
    with the white space around them removed, the empty ones left out, in
    order: no item is empty, starts or ends with white space or holds a
    comma, and a list of such names written with commas is read back as it
    is. *)
Theorem parseCsvEnv_items :
  parseCsvEnv None = []
  /\ parseCsvEnv (Some "") = []
  /\ (forall value item,
        In item (parseCsvEnv value) ->
        item <> "" /\ trim item = item /\ Sql.occurs "," item = false)
  /\ (forall raws,
        List.Forall (fun raw => Sql.occurs "," raw = false) raws ->
        parseCsvEnv (Some (join "," raws))
        = List.filter (fun item => negb (String.eqb item "")) (map trim raws))
  /\ (forall names,
        List.Forall (fun name => name <> "" /\ trim name = name
                                 /\ Sql.occurs "," name = false) names ->
        parseCsvEnv (Some (join "," names)) = names).
Proof.
  assert (Hraws : forall raws,
            List.Forall (fun raw => Sql.occurs "," raw = false) raws ->
            parseCsvEnv (Some (join "," raws))
            = List.filter (fun item => negb (String.eqb item "")) (map trim raws)).
  { intros raws H. unfold parseCsvEnv.
    destruct (String.eqb_spec (join "," raws) "") as [E|_].
    - destruct raws as [|x [|y rest]]; [reflexivity | |].
      + simpl in E. subst x. reflexivity.
      + exfalso. unfold join in E. rewrite concat_cons2 in E.
        destruct x; discriminate E.
    - rewrite (split_join_any "," raws H).
      destruct raws as [|x rest]; [|reflexivity].
      reflexivity. }
  repeat apply conj.
  - reflexivity.
  - reflexivity.
  - intros value item. unfold parseCsvEnv.
    destruct value as [text|]; [|intros []].
    destruct (String.eqb text ""); [intros []|].
    rewrite List.filter_In, List.in_map_iff.
    intros [(raw & <- & Hraw) Hne]. repeat split.
    + intros E. rewrite E in Hne. discriminate.
    + apply trim_idempotent.
    + apply occurs_trim.
      pose proof (split_no_sep "," text) as H.
      rewrite List.Forall_forall in H. now apply H.
  - exact Hraws.
  - intros names H. rewrite Hraws.
    + induction H as [|name names (Hne & Htrim & _) _ IH]; [reflexivity|].
      cbn [map List.filter]. rewrite Htrim.
      destruct (String.eqb_spec name ""); [contradiction|]. cbn [negb].
      now rewrite IH.
    + eapply List.Forall_impl; [|exact H]. now intros name (_ & _ & Hc).
Qed.

(** The theorem at two names. *)
Lemma parseCsvEnv_items_witness :
  List.Forall (fun name => name <> "" /\ trim name = name
                           /\ Sql.occurs "," name = false) ["users"; "orders"]
  /\ parseCsvEnv (Some (join "," ["users"; "orders"])) = ["users"; "orders"].
Proof.
  assert (H : List.Forall (fun name => name <> "" /\ trim name = name
                                       /\ Sql.occurs "," name = false)
                ["users"; "orders"]).
  { repeat constructor; discriminate. }
  split; [exact H|].
  destruct parseCsvEnv_items as (_ & _ & _ & _ & Hnames). now apply Hnames.
Defined.

(** *** Path templates *)

Lemma brace_at_consumes (s group rest : string) :
  brace_at s = Some (group, rest) -> (String.length rest < String.length s)%nat.
Proof.
  unfold brace_at.
  destruct (strip_prefix "{" s) as [s1|] eqn:E1; [|discriminate].
  pose proof (span_length
                (fun c => negb (Ascii.eqb c "}") && negb (is_line_terminator c)) s1)
    as H2.
  destruct (span _ s1) as [name s2]. simpl in H2.
  destruct (strip_prefix "}" s2) as [r|] eqn:E3; [|discriminate].
  intros [= <- <-]. apply strip_prefix_length in E1, E3. simpl in *. lia.
Qed.

Lemma brace_at_other c (s : string) :
  Ascii.eqb c "{" = false -> brace_at (String c s) = None.
Proof.
  intros H. unfold brace_at. cbn [strip_prefix].
  now rewrite Ascii.eqb_sym, H.
Qed.

Lemma brace_at_parameter (name rest : string) :
  all_of (fun c => negb (Ascii.eqb c "}") && negb (is_line_terminator c)) name = true ->
  brace_at ("{" +:+ name +:+ "}" +:+ rest) = Some (name, rest).
Proof.
  intros H. unfold brace_at. rewrite strip_prefix_app.
  rewrite span_app by (auto; reflexivity).
  now rewrite strip_prefix_app.
Qed.

(** Without a closing brace ahead nothing matches. *)
Lemma brace_at_unclosed (s : string) :
  Sql.occurs "}" s = false -> brace_at s = None.
Proof.
  intros H. unfold brace_at.
  destruct (strip_prefix "{" s) as [s1|] eqn:E1; [|reflexivity].
  apply strip_prefix_Some in E1. subst s.
  rewrite occurs_app in H. apply orb_false_iff in H as [_ H].
  rewrite (span_source (fun c => negb (Ascii.eqb c "}") && negb (is_line_terminator c)) s1)
    in H.
  destruct (span _ s1) as [name s2]. cbn [fst snd] in H.
  rewrite occurs_app in H. apply orb_false_iff in H as [_ H].
  destruct s2 as [|c s2]; [reflexivity|]. cbn [strip_prefix].
  simpl in H. apply orb_false_iff in H as [Hc _].
  now rewrite Ascii.eqb_sym, Hc.
Qed.

Lemma toExpressPath_unclosed (s : string) :
  Sql.occurs "}" s = false -> toExpressPath s = s.
Proof.
  unfold toExpressPath. induction s as [|c s IH]; intros H.
  - apply String_replace_empty, brace_at_consumes.
  - rewrite String_replace_char by now apply brace_at_unclosed.
    simpl in H. apply orb_false_iff in H as [_ H]. now rewrite IH.
Qed.

(** X5.  [toExpressPath] rewrites a path template part by part: literal
    text stays, and a parameter in braces, whose name holds no closing
    brace and no line break, becomes a colon followed by the name.  A path
    that holds no closing brace is returned as it is. *)
Theorem toExpressPath_parts :
  (forall parts,
      forallb proper_part parts = true ->
      toExpressPath (String.concat "" (map openapi_part parts))
      = String.concat "" (map express_part parts))
  /\ (forall path, Sql.occurs "}" path = false -> toExpressPath path = path).
Proof.
  split; [|exact toExpressPath_unclosed].
  induction parts as [|part parts IH].
  - intros _. apply String_replace_empty, brace_at_consumes.
  - intros H. apply andb_true_iff in H as [Hpart Hparts]. specialize (IH Hparts).
    cbn [map]. rewrite !SeedVarsFacts.concat_cons, <- IH. unfold toExpressPath.
    destruct part as [text|name]; cbn [openapi_part express_part proper_part] in *.
    + apply negb_true_iff in Hpart.
      apply (String_replace_text _ _ "{"); auto using brace_at_other.
    + rewrite !app_assoc.
      rewrite (String_replace_match _ _ brace_at_consumes _ name
                 (String.concat "" (map openapi_part parts))).
      * reflexivity.
      * now apply brace_at_parameter.
Qed.

(** The theorem at a path with one parameter. *)
Lemma toExpressPath_parts_witness :
  forallb proper_part [Literal "/users/"; PathParameter "id"; Literal "/orders"] = true
  /\ toExpressPath "/users/{id}/orders" = "/users/:id/orders".
Proof.
  split; [reflexivity|].
  exact (proj1 toExpressPath_parts
           [Literal "/users/"; PathParameter "id"; Literal "/orders"] eq_refl).
Defined.

(** *** Results of handlers *)

(** X6.  [normalizeHandlerResult] returns an object that has a status, a
    headers or a body key: the result itself when it is such an object, and
    otherwise an object whose only key is the body, holding the result.
    Normalising twice changes nothing more. *)
Theorem normalizeHandlerResult_idempotent (result : value) :
  (has_key (normalizeHandlerResult result) "status"
   || has_key (normalizeHandlerResult result) "headers"
   || has_key (normalizeHandlerResult result) "body" = true)
  /\ normalizeHandlerResult (normalizeHandlerResult result)
     = normalizeHandlerResult result
  /\ (has_key result "status" || has_key result "headers" || has_key result "body"
      = true -> normalizeHandlerResult result = result)
  /\ (has_key result "status" || has_key result "headers" || has_key result "body"
      = false ->
      normalizeHandlerResult result = VObject [("body", result)]
      /\ get (normalizeHandlerResult result) "body" = result
      /\ get (normalizeHandlerResult result) "status" = VUndefined
      /\ get (normalizeHandlerResult result) "headers" = VUndefined).
Proof.
  assert (Hkept : has_key result "status" || has_key result "headers"
                  || has_key result "body" = true ->
                  normalizeHandlerResult result = result).
  { intros H. unfold normalizeHandlerResult. rewrite H.
    destruct result; try discriminate H. reflexivity. }
  assert (Hwrapped : has_key result "status" || has_key result "headers"
                     || has_key result "body" = false ->
                     normalizeHandlerResult result = VObject [("body", result)]).
  { intros H. unfold normalizeHandlerResult. rewrite H.
    now destruct (truthy result && String.eqb (typeof result) "object"). }
  destruct (has_key result "status" || has_key result "headers"
            || has_key result "body") eqn:E.
  - rewrite (Hkept eq_refl). repeat split; auto; discriminate.
  - rewrite (Hwrapped eq_refl). repeat split; discriminate.
Qed.

(** The theorem at a result that is plain text. *)
Lemma normalizeHandlerResult_idempotent_witness :
  has_key (VString "pong") "status" || has_key (VString "pong") "headers"
  || has_key (VString "pong") "body" = false
  /\ normalizeHandlerResult (VString "pong") = VObject [("body", VString "pong")].
Proof.
  split; [reflexivity|].
  destruct (normalizeHandlerResult_idempotent (VString "pong")) as (_ & _ & _ & H).
  now apply H.
Defined.

(** *** Body templates *)

Lemma placeholder_at_consumes (s group rest : string) :
  placeholder_at s = Some (group, rest) ->
  (String.length rest < String.length s)%nat.
Proof.
  unfold placeholder_at.
  destruct (strip_prefix "{{" s) as [s1|] eqn:E1; [|discriminate].
  pose proof (span_length (fun c => negb (Ascii.eqb c "}")) s1) as H2.
  destruct (span _ s1) as [run s2]. simpl in H2.
  destruct (strip_prefix "}}" s2) as [r|] eqn:E3; [|discriminate].
  apply strip_prefix_length in E1, E3. simpl in *.
  destruct (String.eqb run ""); [discriminate|].
  destruct (String.eqb (skip_spaces run) ""); intros [= <- <-]; lia.
Qed.

Lemma placeholder_at_other c (s : string) :
  Ascii.eqb c "{" = false -> placeholder_at (String c s) = None.
Proof.
  intros H. unfold placeholder_at. cbn [strip_prefix].
  now rewrite Ascii.eqb_sym, H.
Qed.

Lemma interpolateString_text (text : string) context :
  Sql.occurs "{" text = false -> interpolateString text context = text.
Proof.
  intros H. unfold interpolateString.
  rewrite <- (app_nil_r text) at 1.
  rewrite (String_replace_text _ _ "{") by auto using placeholder_at_other.
  rewrite String_replace_empty by apply placeholder_at_consumes.
  apply app_nil_r.
Qed.

Lemma distinct_NoDup (keys : list string) : distinct keys = true -> List.NoDup keys.
Proof.
  induction keys as [|key keys IH]; [constructor|].
  cbn [distinct]. intros H. apply andb_true_iff in H as [Hkey Hkeys].
  constructor; [|auto]. intros Hin. apply negb_true_iff in Hkey.
  assert (existsb (String.eqb key) keys = true); [|congruence].
  apply List.existsb_exists. exists key. split; [exact Hin | apply String.eqb_refl].
Qed.

Lemma map_entries_fixed (g : value -> value) (props : object) :
  List.Forall (fun entry => g (snd entry) = snd entry) props ->
  map (fun entry => (fst entry, g (snd entry))) props = props.
Proof.
  induction 1 as [|[k v] props Hv _ IH]; [reflexivity|].
  cbn [map fst snd] in *. now rewrite Hv, IH.
Qed.

(** X7.  A body template that holds no brace is returned by
    [applyTemplate] as it is, whatever the request context. *)
Theorem applyTemplate_placeholder_free (template : value) (context : object) :
  placeholder_free template = true -> applyTemplate template context = template.
Proof.
  induction template as [ | | b | x | z | s | d | items IH | props IH ]
    using value_nested_ind; intros H; try reflexivity; try discriminate.
  - cbn [applyTemplate]. f_equal. apply interpolateString_text.
    now apply negb_true_iff.
  - cbn [applyTemplate placeholder_free] in *. f_equal.
    rewrite List.forallb_forall in H. rewrite List.Forall_forall in IH.
    rewrite <- (List.map_id items) at 2. apply List.map_ext_in.
    intros item Hitem. now apply IH, H.
  - cbn [placeholder_free] in H. apply andb_true_iff in H as [Hkeys Hprops].
    change (applyTemplate (VObject props) context)
      with (VObject (fold_left
                       (fun result entry =>
                          let '(key, item) := entry in
                          set_prop result key (applyTemplate item context))
                       props [])).
    rewrite (SeedVarsFacts.assign_entries (fun item => applyTemplate item context))
      by now apply distinct_NoDup.
    cbn [app]. f_equal.
    apply (map_entries_fixed (fun item => applyTemplate item context)).
    rewrite List.forallb_forall in Hprops. rewrite List.Forall_forall in *.
    intros entry Hentry. now apply IH, Hprops.
Qed.

(** The theorem at a body of plain data. *)
Lemma applyTemplate_placeholder_free_witness :
  placeholder_free (VObject [("ok", VBool true); ("tags", VArray [VString "a"])]) = true
  /\ applyTemplate (VObject [("ok", VBool true); ("tags", VArray [VString "a"])])
       [("params", VObject [])]
     = VObject [("ok", VBool true); ("tags", VArray [VString "a"])].
Proof.
  split; [reflexivity|].
  now apply applyTemplate_placeholder_free.
Defined.

Lemma proper_placeholder (spaces path rest : string) :
  proper_template_part (Placeholder spaces path) = true ->
  placeholder_at (template_source (Placeholder spaces path) +:+ rest)
  = Some (path, rest).
Proof.
  cbn [proper_template_part template_source]. intros H.
  apply andb_true_iff in H as [H Hhead]. apply andb_true_iff in H as [Hspaces Hpath].
  destruct path as [|c path]; [discriminate|].
  apply negb_true_iff in Hhead. cbn [all_of] in Hpath.
  apply andb_true_iff in Hpath as [Hc Hpath]. apply negb_true_iff in Hc.
  rewrite !app_assoc. apply ApiVirtualFacts.placeholder_at_path; auto.
  now apply (all_of_occurs (fun c => negb (Ascii.eqb c "}"))); [|rewrite Ascii.eqb_refl].
Qed.

(** X8.  In a body template string, literal text without a brace is kept
    and every placeholder written as two opening braces, white space, a path
    that neither starts with white space nor holds a closing brace, and
    two closing braces straight after the path, is replaced by the value
    found at the path of the request context, rendered as a string (empty
    when there is none). *)
Theorem interpolateString_parts (context : object) (parts : list template_part) :
  forallb proper_template_part parts = true ->
  interpolateString (String.concat "" (map template_source parts)) context
  = String.concat "" (map (template_value context) parts).
Proof.
  unfold interpolateString. induction parts as [|part parts IH].
  - intros _. apply String_replace_empty, placeholder_at_consumes.
  - intros H. apply andb_true_iff in H as [Hpart Hparts]. specialize (IH Hparts).
    cbn [map]. rewrite !SeedVarsFacts.concat_cons, <- IH.
    destruct part as [text|spaces path].
    + cbn [proper_template_part template_source template_value] in *.
      apply negb_true_iff in Hpart.
      apply (String_replace_text _ _ "{"); auto using placeholder_at_other.
    + rewrite (String_replace_match _ _ placeholder_at_consumes _ path
                 (String.concat "" (map template_source parts))).
      * reflexivity.
      * now apply proper_placeholder.
Qed.

(** The theorem at a greeting. *)
Lemma interpolateString_parts_witness :
  forallb proper_template_part
    [TemplateText "Hello "; Placeholder " " "params.name"; TemplateText "!"] = true
  /\ interpolateString "Hello {{ params.name}}!"
       [("params", VObject [("name", VString "Ann")])]
     = "Hello Ann!".
Proof.
  split; [reflexivity|].
  exact (interpolateString_parts
           [("params", VObject [("name", VString "Ann")])]
           [TemplateText "Hello "; Placeholder " " "params.name"; TemplateText "!"]
           eq_refl).
Defined.

(** *** The files behind the fingerprint *)

(** Induction over directory entries, through the entries of directories. *)
Section dirent_induction.
Variable P : dirent -> Prop.
Hypothesis Hfile : forall name stat, P (File name stat).
Hypothesis Hspecial : forall name, P (Special name).
Hypothesis Hdirectory :
  forall name entries, List.Forall P entries -> P (Directory name entries).

End dirent_induction.






End ApiHelpersFacts.

(** ** The quoted tokens of the generated statements *)

Module SqlTokensFacts.
Import Js JsFacts PgSeed PgSeedFacts SqlTokens.

Lemma read_quoted_length q (s body tail : string) :
  Sql.read_quoted q s = Some (body, tail) ->
  (String.length tail < String.length s)%nat.
Proof.
  remember (String.length s) as n eqn:Hn. revert s body tail Hn.
  induction n as [n IH] using lt_wf_ind. intros s body tail Hn.
  destruct s as [|c s]; [discriminate|]. cbn [Sql.read_quoted].
  destruct (Ascii.eqb c q).
  - destruct s as [|c' s'].
    + intros [= <- <-]. subst n. simpl. lia.
    + destruct (Ascii.eqb c' q).
      * destruct (Sql.read_quoted q s') as [[b t]|] eqn:E; [|discriminate].
        intros [= <- <-]. subst n.
        pose proof (IH (String.length s') ltac:(simpl; lia) s' b t eq_refl E).
        simpl in *. lia.
      * intros [= <- <-]. subst n. simpl. lia.
  - destruct (Sql.read_quoted q s) as [[b t]|] eqn:E; [|discriminate].
    intros [= <- <-]. subst n.
    pose proof (IH (String.length s) ltac:(simpl; lia) s b t eq_refl E).
    simpl in *. lia.
Qed.

Lemma tokens_from_fuel n m (s : string) :
  (String.length s <= n)%nat -> (String.length s <= m)%nat ->
  tokens_from n s = tokens_from m s.
Proof.
  revert m s. induction n as [|n IH]; intros m s Hn Hm.
  - destruct s; [|simpl in Hn; lia]. now destruct m.
  - destruct m as [|m]; [destruct s; [reflexivity | simpl in Hm; lia]|].
    destruct s as [|c s]; [reflexivity|]. cbn [tokens_from]. simpl in Hn, Hm.
    destruct (Ascii.eqb c "'").
    + destruct (Sql.read_quoted "'" s) as [[b t]|] eqn:E; [|reflexivity].
      apply read_quoted_length in E. f_equal. apply IH; lia.
    + destruct (Ascii.eqb c dquote).
      * destruct (Sql.read_quoted dquote s) as [[b t]|] eqn:E; [|reflexivity].
        apply read_quoted_length in E. f_equal. apply IH; lia.
      * apply IH; lia.
Qed.

Lemma fmap_nil_app (o : option (list token)) : (fun us => [] ++ us) <$> o = o.
Proof. now destruct o. Qed.

Lemma quoted_tokens_text (t rest : string) :
  Sql.occurs "'" t = false -> Sql.occurs dquote t = false ->
  quoted_tokens (t +:+ rest) = quoted_tokens rest.
Proof.
  induction t as [|c t IH]; [reflexivity|]. cbn [Sql.occurs].
  intros H1 H2. apply orb_false_iff in H1 as [Hc1 H1].
  apply orb_false_iff in H2 as [Hc2 H2].
  change (String c t +:+ rest) with (String c (t +:+ rest)).
  unfold quoted_tokens at 1. cbn [String.length tokens_from].
  rewrite Hc1, Hc2. now apply IH.
Qed.

Lemma reads_text (t : string) :
  Sql.occurs "'" t = false -> Sql.occurs dquote t = false -> reads t [].
Proof.
  intros H1 H2 rest _. rewrite fmap_nil_app. now apply quoted_tokens_text.
Qed.

Lemma reads_identifier (name : string) : reads (quoteIdentifier name) [Identifier name].
Proof.
  intros rest [_ Hrest]. unfold quoteIdentifier.
  change ((dq +:+ replace_char dquote (dq +:+ dq) name +:+ dq) +:+ rest)
    with (String dquote ((replace_char dquote (String dquote (String dquote "")) name
                          +:+ String dquote "") +:+ rest)).
  rewrite app_assoc.
  change (String dquote "" +:+ rest) with (String dquote rest).
  unfold quoted_tokens at 1. cbn [String.length tokens_from].
  change (Ascii.eqb dquote "'") with false. cbv iota.
  rewrite Ascii.eqb_refl, (read_quoted_escaped dquote name rest Hrest).
  f_equal. apply tokens_from_fuel; [|lia]. rewrite length_app. simpl. lia.
Qed.

Lemma reads_constant (text : string) : reads (quote_literal text) [Constant text].
Proof.
  intros rest [Hrest _]. unfold quote_literal.
  change (("'" +:+ replace_char "'" "''" text +:+ "'") +:+ rest)
    with (String "'" ((replace_char "'" (String "'" (String "'" "")) text
                       +:+ String "'" "") +:+ rest)).
  rewrite app_assoc.
  change (String "'" "" +:+ rest) with (String "'" rest).
  unfold quoted_tokens at 1. cbn [String.length tokens_from].
  rewrite Ascii.eqb_refl, (read_quoted_escaped "'" text rest Hrest).
  f_equal. apply tokens_from_fuel; [|lia]. rewrite length_app. simpl. lia.
Qed.

Lemma plain_start_app (q rest : string) :
  q <> "" -> plain_start q -> plain_start (q +:+ rest).
Proof. destruct q; [congruence | trivial]. Qed.

Lemma fmap_app_app (ts us : list token) (o : option (list token)) :
  (fun xs => ts ++ xs) <$> ((fun xs => us ++ xs) <$> o)
  = (fun xs => (ts ++ us) ++ xs) <$> o.
Proof. destruct o; simpl; [|reflexivity]. now rewrite List.app_assoc. Qed.

(** A fragment followed by one that starts with plain text. *)
Lemma reads_app (p q : string) (ts us : list token) :
  reads p ts -> reads q us -> q <> "" -> plain_start q ->
  reads (p +:+ q) (ts ++ us).
Proof.
  intros Hp Hq Hne Hstart rest Hrest.
  rewrite app_assoc, Hp by now apply plain_start_app.
  rewrite Hq by assumption. apply fmap_app_app.
Qed.

(** Plain text followed by any fragment. *)
Lemma reads_text_app (t q : string) (us : list token) :
  Sql.occurs "'" t = false -> Sql.occurs dquote t = false ->
  reads q us -> reads (t +:+ q) us.
Proof.
  intros H1 H2 Hq rest Hrest.
  rewrite app_assoc, quoted_tokens_text by assumption. now apply Hq.
Qed.

Lemma plain_start_text (t rest : string) :
  t <> "" -> Sql.occurs "'" t = false -> Sql.occurs dquote t = false ->
  plain_start (t +:+ rest).
Proof.
  destruct t as [|c t]; [congruence|]. intros _ H1 H2. simpl in H1, H2.
  apply orb_false_iff in H1 as [H1 _]. apply orb_false_iff in H2 as [H2 _].
  split; assumption.
Qed.

(** Fragments joined by a separator of plain text. *)
Lemma reads_join (sep : string) (parts : list string) (tss : list (list token)) :
  sep <> "" -> Sql.occurs "'" sep = false -> Sql.occurs dquote sep = false ->
  List.Forall2 reads parts tss ->
  reads (join sep parts) (concat tss).
Proof.
  intros Hne H1 H2 H. unfold join.
  induction H as [|p ts parts tss Hp Hparts IH].
  - now apply reads_text.
  - destruct parts as [|q parts].
    + inversion Hparts; subst. cbn [String.concat concat].
      now rewrite List.app_nil_r.
    + rewrite concat_cons2. cbn [concat].
      apply reads_app; auto.
      * now apply reads_text_app.
      * destruct sep; [congruence | discriminate].
      * now apply plain_start_text.
Qed.

Lemma reads_statement (sql : string) (ts : list token) :
  reads sql ts -> quoted_tokens sql = Some ts.
Proof.
  intros H. rewrite <- (app_nil_r sql), (H "") by (split; reflexivity).
  cbn. now rewrite List.app_nil_r.
Qed.

(** *** Literals *)

Lemma reads_bare (lit : string) :
  all_of is_number_char lit = true -> reads lit [].
Proof.
  intros H. apply reads_text; now apply (all_of_occurs is_number_char).
Qed.

Lemma reads_literal (v : value) (lit : string) :
  is_raw_sql v = false -> toSqlValue v = Ok lit -> reads lit (value_tokens v).
Proof.
  intros Hraw H.
  destruct v as [ | | b | x | z | s | d | items | props ].
  - injection H as <-. now apply reads_text.
  - injection H as <-. now apply reads_text.
  - destruct b; injection H as <-; now apply reads_text.
  - simpl in H. destruct (Number_isFinite x); simpl in H; [|discriminate].
    injection H as <-. apply reads_bare, number_chars_Number_toString.
  - injection H as <-. apply reads_bare, number_chars_Z_toString.
  - injection H as <-. apply reads_constant.
  - unfold toSqlValue in H. cbn [value_tokens].
    destruct (date_toISOString d) as [iso|]; [|discriminate].
    injection H as <-. apply reads_constant.
  - unfold toSqlValue in H. rewrite Hraw in H. unfold value_tokens.
    destruct (JSON_stringify (VArray items)) as [[json|]|e];
      cbn [bind] in H; try discriminate.
    injection H as <-.
    rewrite <- (List.app_nil_r [Constant json]).
    apply (reads_app (quote_literal json) "::jsonb" [Constant json] []);
      [apply reads_constant | now apply reads_text | discriminate
      | split; reflexivity].
  - unfold toSqlValue in H. rewrite Hraw in H. unfold value_tokens.
    destruct (JSON_stringify (VObject props)) as [[json|]|e];
      cbn [bind] in H; try discriminate.
    injection H as <-.
    rewrite <- (List.app_nil_r [Constant json]).
    apply (reads_app (quote_literal json) "::jsonb" [Constant json] []);
      [apply reads_constant | now apply reads_text | discriminate
      | split; reflexivity].
Qed.

Lemma reads_literals (vs : list value) (lits : list string) :
  List.Forall (fun v => is_raw_sql v = false) vs ->
  mapM toSqlValue vs = Ok lits ->
  List.Forall2 reads lits (map value_tokens vs).
Proof.
  revert lits. induction vs as [|v vs IH]; intros lits Hraw H.
  - injection H as <-. constructor.
  - rewrite mapM_cons in H. inversion Hraw as [|? ? Hv Hvs]; subst.
    destruct (toSqlValue v) as [lit|] eqn:E; [|discriminate].
    destruct (mapM toSqlValue vs) as [lits'|]; [|discriminate].
    injection H as <-. constructor; auto using reads_literal.
Qed.

Lemma reads_identifiers (names : list string) :
  List.Forall2 reads (map quoteIdentifier names) (map (fun name => [Identifier name]) names).
Proof. induction names; constructor; auto using reads_identifier. Qed.

Lemma concat_singletons {A B} (f : A -> B) (xs : list A) :
  concat (map (fun x => [f x]) xs) = map f xs.
Proof. induction xs; simpl; congruence. Qed.

Lemma concat_flat_map {A B} (f : A -> list B) (xs : list A) :
  concat (map f xs) = flat_map f xs.
Proof. now rewrite List.flat_map_concat_map. Qed.

(** *** INSERT *)

Lemma reads_insert_head table (columns : list string) (vs : list value)
    (lits : list string) :
  List.Forall (fun v => is_raw_sql v = false) vs ->
  mapM toSqlValue vs = Ok lits ->
  reads (insert_head table columns lits)
        (Identifier table :: map Identifier columns ++ flat_map value_tokens vs).
Proof.
  intros Hraw Hlits. unfold insert_head.
  apply reads_text_app; [reflexivity | reflexivity |].
  change (Identifier table :: map Identifier columns ++ flat_map value_tokens vs)
    with ([Identifier table] ++ (map Identifier columns ++ flat_map value_tokens vs)).
  apply reads_app; [apply reads_identifier | | discriminate | split; reflexivity].
  apply reads_text_app; [reflexivity | reflexivity |].
  apply reads_app; [| | discriminate | split; reflexivity].
  - rewrite <- (concat_singletons Identifier columns).
    apply reads_join; [discriminate | reflexivity | reflexivity |].
    apply reads_identifiers.
  - apply reads_text_app; [reflexivity | reflexivity |].
    rewrite <- (List.app_nil_r (flat_map value_tokens vs)).
    apply reads_app; [| now apply reads_text | discriminate | split; reflexivity].
    rewrite <- (concat_flat_map value_tokens vs).
    apply reads_join; [discriminate | reflexivity | reflexivity |].
    now apply reads_literals.
Qed.

(** The ON CONFLICT clause, followed by what the statement goes on with. *)
Lemma reads_conflict_clause (keys : list string) (more : string) (us : list token) :
  reads more us ->
  reads (" ON CONFLICT (" +:+ join ", " (map quoteIdentifier keys) +:+ ") " +:+ more)
        (map Identifier keys ++ us).
Proof.
  intros Hmore.
  apply reads_text_app; [reflexivity | reflexivity |].
  apply reads_app; [| | discriminate | split; reflexivity].
  - rewrite <- (concat_singletons Identifier keys).
    apply reads_join; [discriminate | reflexivity | reflexivity |].
    apply reads_identifiers.
  - apply (reads_text_app ") " more); [reflexivity | reflexivity | exact Hmore].
Qed.

Lemma reads_excluded (updates : list string) :
  reads (join ", " (map excluded_assignment updates))
        (flat_map (fun col => [Identifier col; Identifier col]) updates).
Proof.
  rewrite <- (concat_flat_map (fun col => [Identifier col; Identifier col]) updates).
  apply reads_join; [discriminate | reflexivity | reflexivity |].
  induction updates as [|col updates IH]; constructor; [|exact IH].
  unfold excluded_assignment.
  apply (reads_app (quoteIdentifier col) (" = EXCLUDED." +:+ quoteIdentifier col)
           [Identifier col] [Identifier col]);
    [apply reads_identifier | | discriminate | split; reflexivity].
  apply reads_text_app; [reflexivity | reflexivity | apply reads_identifier].
Qed.

(** X10.  In the statement [buildInsertSql] returns for a row without
    verbatim [{sql: ...}] values, the quoted tokens are, in this order and
    no others: the table, the columns of the row, the text of every string,
    date and JSON value of the row, and for an upsert the conflict columns
    followed by each updated column on both sides of its assignment.  Each
    token denotes exactly the name or text it was written for: nothing in
    a name or value is read as SQL. *)
Theorem buildInsertSql_tokens (table : string) (row : object)
    (upsertBy : option (list string)) (sql : string) :
  List.NoDup (Object_keys row) ->
  List.Forall (fun v => is_raw_sql v = false) (map snd row) ->
  buildInsertSql table row upsertBy = Ok sql ->
  quoted_tokens sql
  = Some (Identifier table :: map Identifier (Object_keys row)
          ++ flat_map value_tokens (map snd row)
          ++ conflict_tokens (Object_keys row) upsertBy).
Proof.
  intros Hnd Hraw H. apply reads_statement. unfold buildInsertSql in H.
  destruct (Nat.eqb (length (Object_keys row)) 0); [discriminate|].
  rewrite (mapM_map toSqlValue (get_prop row)), get_prop_keys in H by assumption.
  destruct (mapM toSqlValue (map snd row)) as [lits|] eqn:Hlits; [|discriminate].
  cbn [bind] in H.
  pose proof (reads_insert_head table (Object_keys row) _ _ Hraw Hlits) as Hhead.
  unfold insert_head in Hhead.
  set (head := "INSERT INTO " +:+ quoteIdentifier table +:+ " ("
               +:+ join ", " (map quoteIdentifier (Object_keys row))
               +:+ ") VALUES (" +:+ join ", " lits +:+ ")") in *.
  set (tokens := Identifier table :: map Identifier (Object_keys row)
                 ++ flat_map value_tokens (map snd row)) in *.
  change (Identifier table :: map Identifier (Object_keys row)
          ++ flat_map value_tokens (map snd row)
          ++ conflict_tokens (Object_keys row) upsertBy)
    with (Identifier table :: (map Identifier (Object_keys row)
          ++ (flat_map value_tokens (map snd row)
          ++ conflict_tokens (Object_keys row) upsertBy))).
  rewrite List.app_assoc.
  change (Identifier table :: (map Identifier (Object_keys row)
                               ++ flat_map value_tokens (map snd row))
          ++ conflict_tokens (Object_keys row) upsertBy)
    with (tokens ++ conflict_tokens (Object_keys row) upsertBy).
  assert (Hmore : forall tail us,
            reads tail us -> tail <> "" -> plain_start tail ->
            reads (head +:+ tail) (tokens ++ us))
    by (intros tail us Htail; now apply reads_app).
  assert (Hplain : reads (head +:+ ";") (tokens ++ []))
    by (apply Hmore; [now apply reads_text | discriminate | split; reflexivity]).
  destruct upsertBy as [[|key keys]|]; cbn [length Nat.eqb] in H.
  - injection H as <-. exact Hplain.
  - cbn [conflict_tokens].
    set (ks := key :: keys) in *.
    set (updates := List.filter (fun col => negb (includes ks col)) (Object_keys row))
      in *.
    destruct (Nat.eqb (length updates) 0) eqn:Hupdates.
    + injection H as <-.
      apply length_zero in Hupdates. rewrite Hupdates. cbn [flat_map].
      refine (Hmore (" ON CONFLICT (" +:+ join ", " (map quoteIdentifier ks)
                     +:+ ") " +:+ "DO NOTHING;") _ _ _ _);
        [|discriminate | split; reflexivity].
      apply reads_conflict_clause. now apply reads_text.
    + injection H as <-.
      refine (Hmore (" ON CONFLICT (" +:+ join ", " (map quoteIdentifier ks)
                     +:+ ") " +:+ "DO UPDATE SET "
                     +:+ join ", " (map excluded_assignment updates) +:+ ";")
                _ _ _ _);
        [|discriminate | split; reflexivity].
      apply reads_conflict_clause.
      apply reads_text_app; [reflexivity | reflexivity |].
      rewrite <- (List.app_nil_r (flat_map _ updates)).
      apply reads_app; [apply reads_excluded | now apply reads_text | discriminate
                       | split; reflexivity].
  - injection H as <-. exact Hplain.
Qed.

(** The theorem at a row that holds a quote in a name and in a value. *)
Lemma buildInsertSql_tokens_witness :
  List.NoDup (Object_keys [("na'me", VString "O'Brien"); ("age", VNull)])
  /\ List.Forall (fun v => is_raw_sql v = false)
       (map snd [("na'me", VString "O'Brien"); ("age", VNull)])
  /\ exists sql,
       buildInsertSql "User" [("na'me", VString "O'Brien"); ("age", VNull)] None = Ok sql
       /\ quoted_tokens sql
          = Some [Identifier "User"; Identifier "na'me"; Identifier "age";
                  Constant "O'Brien"].
Proof.
  assert (Hnd : List.NoDup (Object_keys [("na'me", VString "O'Brien"); ("age", VNull)])).
  { repeat constructor; simpl; intuition discriminate. }
  assert (Hraw : List.Forall (fun v => is_raw_sql v = false)
                   (map snd [("na'me", VString "O'Brien"); ("age", VNull)]))
    by (repeat constructor).
  split; [exact Hnd|]. split; [exact Hraw|].
  eexists. split; [reflexivity|].
  exact (buildInsertSql_tokens "User" _ None _ Hnd Hraw eq_refl).
Defined.

(** *** WHERE, UPDATE and DELETE *)

Lemma reads_predicate (field : string) (v : value) (text : string) :
  is_raw_sql v = false ->
  match v with
  | VNull => Ok (quoteIdentifier field +:+ " IS NULL")
  | _ => do rendered <- toSqlValue v; Ok (quoteIdentifier field +:+ " = " +:+ rendered)
  end = Ok text ->
  reads text (entry_tokens (field, v)).
Proof.
  intros Hraw H.
  assert (Hassign : forall rendered,
            toSqlValue v = Ok rendered ->
            reads (quoteIdentifier field +:+ " = " +:+ rendered)
                  (entry_tokens (field, v))).
  { intros rendered E.
    apply (reads_app (quoteIdentifier field) (" = " +:+ rendered)
             [Identifier field] (value_tokens v));
      [apply reads_identifier | | discriminate | split; reflexivity].
    apply reads_text_app; [reflexivity | reflexivity |]. now apply reads_literal. }
  destruct v as [ | | b | x | z | s | d | items | props ];
    try (destruct (toSqlValue _) as [rendered|] eqn:E; [|discriminate];
         cbn [bind] in H; injection H as <-; now apply Hassign).
  injection H as <-.
  apply (reads_app (quoteIdentifier field) " IS NULL" [Identifier field] []);
    [apply reads_identifier | now apply reads_text | discriminate | split; reflexivity].
Qed.

Lemma reads_assignment (col : string) (v : value) (text : string) :
  is_raw_sql v = false ->
  (do rendered <- toSqlValue v; Ok (quoteIdentifier col +:+ " = " +:+ rendered))
  = Ok text ->
  reads text (entry_tokens (col, v)).
Proof.
  intros Hraw H. destruct (toSqlValue v) as [rendered|] eqn:E; [|discriminate].
  cbn [bind] in H. injection H as <-.
  apply (reads_app (quoteIdentifier col) (" = " +:+ rendered)
           [Identifier col] (value_tokens v));
    [apply reads_identifier | | discriminate | split; reflexivity].
  apply reads_text_app; [reflexivity | reflexivity |]. now apply reads_literal.
Qed.

Lemma reads_entries (g : string * value -> result string) (entries : object)
    (texts : list string) :
  (forall field v text, is_raw_sql v = false -> g (field, v) = Ok text ->
                        reads text (entry_tokens (field, v))) ->
  List.Forall (fun v => is_raw_sql v = false) (map snd entries) ->
  mapM g entries = Ok texts ->
  List.Forall2 reads texts (map entry_tokens entries).
Proof.
  intros Hg. revert texts. induction entries as [|[field v] entries IH];
    intros texts Hraw H.
  - injection H as <-. constructor.
  - rewrite mapM_cons in H. cbn [map snd] in Hraw.
    inversion Hraw as [|? ? Hv Hvs]; subst.
    destruct (g (field, v)) as [text|] eqn:E; [|discriminate].
    destruct (mapM g entries) as [texts'|]; [|discriminate].
    injection H as <-. constructor; eauto.
Qed.

Lemma reads_where table (where_ : object) (text : string) :
  List.Forall (fun v => is_raw_sql v = false) (map snd where_) ->
  buildWhereSql table where_ = Ok text ->
  where_ <> [] /\ reads text (flat_map entry_tokens where_).
Proof.
  intros Hraw H. unfold buildWhereSql in H.
  destruct where_ as [|entry rest]; [discriminate|]. split; [discriminate|].
  cbn [length Nat.eqb] in H.
  destruct (mapM _ (entry :: rest)) as [predicates|] eqn:E; [|discriminate].
  cbn [bind] in H. injection H as <-.
  rewrite <- (concat_flat_map entry_tokens (entry :: rest)).
  apply reads_join; [discriminate | reflexivity | reflexivity |].
  eapply reads_entries; [|exact Hraw|exact E].
  intros field v text Hv. apply reads_predicate, Hv.
Qed.

(** X11.  [buildWhereSql] and [buildDeleteSql] raise on an empty filter,
    and [buildUpdateSql] raises on an empty set and never returns a
    statement for an empty filter: no UPDATE or DELETE goes without a WHERE
    clause.  In the statement returned for a filter and a set without
    verbatim [{sql: ...}] values the quoted tokens are, in this order and
    no others, the table and then for each entry its column and, when the
    value is a string, a date or JSON, the text of the value: names and
    values are never read as SQL. *)
Theorem buildWhereSql_tokens :
  (forall table,
      buildWhereSql table []
      = Throw (Error ("Operation on table " +:+ dq +:+ table +:+ dq
                      +:+ " requires a non-empty " +:+ dq +:+ "where" +:+ dq
                      +:+ " clause."))
      /\ buildDeleteSql table [] = buildWhereSql table []
      /\ (forall where_,
            buildUpdateSql table [] where_
            = Throw (Error ("Update operation for " +:+ dq +:+ table +:+ dq
                            +:+ " requires a non-empty " +:+ dq +:+ "set" +:+ dq
                            +:+ " object.")))
      /\ (forall set sql, buildUpdateSql table set [] <> Ok sql))
  /\ (forall table where_ text,
        List.Forall (fun v => is_raw_sql v = false) (map snd where_) ->
        buildWhereSql table where_ = Ok text ->
        where_ <> [] /\ quoted_tokens text = Some (flat_map entry_tokens where_))
  /\ (forall table where_ sql,
        List.Forall (fun v => is_raw_sql v = false) (map snd where_) ->
        buildDeleteSql table where_ = Ok sql ->
        where_ <> []
        /\ quoted_tokens sql = Some (Identifier table :: flat_map entry_tokens where_))
  /\ (forall table set where_ sql,
        List.Forall (fun v => is_raw_sql v = false) (map snd set) ->
        List.Forall (fun v => is_raw_sql v = false) (map snd where_) ->
        buildUpdateSql table set where_ = Ok sql ->
        set <> [] /\ where_ <> []
        /\ quoted_tokens sql
           = Some (Identifier table :: flat_map entry_tokens set
                   ++ flat_map entry_tokens where_)).
Proof.
  repeat apply conj.
  - intros table. repeat split.
    intros set sql. unfold buildUpdateSql.
    destruct (Nat.eqb (length set) 0); [discriminate|].
    destruct (mapM _ set); [|discriminate]. discriminate.
  - intros table where_ text Hraw H.
    destruct (reads_where table where_ text Hraw H) as [Hne Hreads].
    split; [exact Hne | now apply reads_statement].
  - intros table where_ sql Hraw H. unfold buildDeleteSql in H.
    destruct (buildWhereSql table where_) as [whereSql|] eqn:E; [|discriminate].
    cbn [bind] in H. injection H as <-.
    destruct (reads_where table where_ whereSql Hraw E) as [Hne Hreads].
    split; [exact Hne|]. apply reads_statement.
    apply (reads_text_app "DELETE FROM "
             (quoteIdentifier table +:+ " WHERE " +:+ whereSql +:+ ";"));
      [reflexivity | reflexivity |].
    apply (reads_app (quoteIdentifier table) (" WHERE " +:+ whereSql +:+ ";")
             [Identifier table] (flat_map entry_tokens where_));
      [apply reads_identifier | | discriminate | split; reflexivity].
    apply reads_text_app; [reflexivity | reflexivity |].
    rewrite <- (List.app_nil_r (flat_map entry_tokens where_)).
    apply reads_app; [exact Hreads | now apply reads_text | discriminate
                     | split; reflexivity].
  - intros table set where_ sql Hset Hwhere H. unfold buildUpdateSql in H.
    destruct set as [|entry set]; [discriminate|]. cbn [length Nat.eqb] in H.
    destruct (mapM _ (entry :: set)) as [assignments|] eqn:Eset; [|discriminate].
    cbn [bind] in H.
    destruct (buildWhereSql table where_) as [whereSql|] eqn:E; [|discriminate].
    cbn [bind] in H. injection H as <-.
    destruct (reads_where table where_ whereSql Hwhere E) as [Hne Hreads].
    split; [discriminate|]. split; [exact Hne|]. apply reads_statement.
    apply (reads_text_app "UPDATE "
             (quoteIdentifier table +:+ " SET " +:+ join ", " assignments
              +:+ " WHERE " +:+ whereSql +:+ ";"));
      [reflexivity | reflexivity |].
    apply (reads_app (quoteIdentifier table)
             (" SET " +:+ join ", " assignments +:+ " WHERE " +:+ whereSql +:+ ";")
             [Identifier table]
             (flat_map entry_tokens (entry :: set) ++ flat_map entry_tokens where_));
      [apply reads_identifier | | discriminate | split; reflexivity].
    apply reads_text_app; [reflexivity | reflexivity |].
    apply reads_app; [| | discriminate | split; reflexivity].
    + rewrite <- (concat_flat_map entry_tokens (entry :: set)).
      apply reads_join; [discriminate | reflexivity | reflexivity |].
      eapply reads_entries; [|exact Hset|exact Eset].
      intros col v text Hv. apply reads_assignment, Hv.
    + apply reads_text_app; [reflexivity | reflexivity |].
      rewrite <- (List.app_nil_r (flat_map entry_tokens where_)).
      apply reads_app; [exact Hreads | now apply reads_text | discriminate
                       | split; reflexivity].
Qed.

(** The theorem at the deletion of the parties without organisation. *)
Lemma buildWhereSql_tokens_witness :
  List.Forall (fun v => is_raw_sql v = false)
    (map snd [("orgId", VNull); ("name", VString "x'; DROP TABLE t; --")])
  /\ exists sql,
       buildDeleteSql "Party" [("orgId", VNull); ("name", VString "x'; DROP TABLE t; --")]
       = Ok sql
       /\ quoted_tokens sql
          = Some [Identifier "Party"; Identifier "orgId"; Identifier "name";
                  Constant "x'; DROP TABLE t; --"].
Proof.
  assert (Hraw : List.Forall (fun v => is_raw_sql v = false)
                   (map snd [("orgId", VNull);
                             ("name", VString "x'; DROP TABLE t; --")]))
    by (repeat constructor).
  split; [exact Hraw|]. eexists. split; [reflexivity|].
  destruct buildWhereSql_tokens as (_ & _ & H & _).
  exact (proj2 (H "Party" _ _ Hraw eq_refl)).
Defined.

End SqlTokensFacts.

(** ** Seed runs: rows, tables and operations *)

From Stdlib Require DecimalZ.

Module SeedRunFacts.
Import Js JsFacts PgSeed PgSeedFacts SeedRun.

(** *** Integers read from the database *)

(** The digits of a text are the decimal number of its value. *)
Lemma digits_uint (s : string) :
  all_of is_digit s = true ->
  exists d, NilEmpty.string_of_uint d = s
            /\ (forall acc : positive,
                  Z.pos (Pos.of_uint_acc d acc) = digits_value (Z.pos acc) s)
            /\ Z.of_N (Pos.of_uint d) = digits_value 0 s.
Proof.
  induction s as [|c s IH].
  - intros _. exists Nil. repeat split.
  - cbn [all_of]. intros H. apply andb_true_iff in H as [Hc Hs].
    destruct (IH Hs) as (d & Hd & Hacc & Hzero).
    destruct c as [[] [] [] [] [] [] [] []]; try discriminate Hc;
      first
        [ exists (D0 d); split; [simpl; now rewrite Hd|]
        | exists (D1 d); split; [simpl; now rewrite Hd|]
        | exists (D2 d); split; [simpl; now rewrite Hd|]
        | exists (D3 d); split; [simpl; now rewrite Hd|]
        | exists (D4 d); split; [simpl; now rewrite Hd|]
        | exists (D5 d); split; [simpl; now rewrite Hd|]
        | exists (D6 d); split; [simpl; now rewrite Hd|]
        | exists (D7 d); split; [simpl; now rewrite Hd|]
        | exists (D8 d); split; [simpl; now rewrite Hd|]
        | exists (D9 d); split; [simpl; now rewrite Hd|] ];
      (split;
       [ intros acc; cbn [Pos.of_uint_acc digits_value]; rewrite Hacc; f_equal;
         cbn; lia
       | cbn [Pos.of_uint digits_value]; rewrite ?Hzero; cbn [Z.of_N];
         rewrite ?Hacc; f_equal ]).
Qed.

Lemma digits_canonical (c : ascii) (rest : string) :
  is_digit c = true -> all_of is_digit rest = true ->
  negb (Ascii.eqb c "0") || String.eqb rest "" = true ->
  exists d, NilEmpty.string_of_uint d = String c rest
            /\ Z.of_uint d = digits_value 0 (String c rest)
            /\ unorm d = d /\ d <> Nil
            /\ (Ascii.eqb c "0" = false -> nzhead d = d).
Proof.
  intros Hc Hrest Hcanon.
  assert (Hall : all_of is_digit (String c rest) = true) by (simpl; now rewrite Hc).
  destruct (digits_uint _ Hall) as (d & Hd & _ & Hzero).
  exists d. split; [exact Hd|]. split; [exact Hzero|].
  destruct d; try discriminate Hd;
    try (split; [reflexivity | split; [discriminate | intros _; reflexivity]]).
  simpl in Hd. injection Hd as <- <-. simpl in Hcanon.
  apply String.eqb_eq in Hcanon. destruct d; try discriminate Hcanon.
  split; [reflexivity | split; [discriminate | discriminate]].
Qed.

(** An integer written canonically is read and written back as it is. *)
Lemma BigInt_round_trip (text : string) :
  canonical_integer text = true ->
  is_integer_text text = true /\ Z_toString (BigInt_of_text text) = text.
Proof.
  destruct text as [|c rest]; [discriminate|].
  destruct (Ascii.eqb_spec c "-") as [->|Hsign].
  - destruct rest as [|c rest]; [discriminate|]. cbn [canonical_integer].
    intros H. apply andb_true_iff in H as [H Hrest].
    apply andb_true_iff in H as [Hc Hzero].
    split.
    { change (is_integer_text (String "-" (String c rest)))
        with (is_digit c && all_of is_digit rest
              && negb (String.eqb (String c rest) "")).
      now rewrite Hc, Hrest. }
    destruct (digits_canonical c rest Hc Hrest) as (d & Hd & Hvalue & _ & Hnil & Hhead);
      [now rewrite Hzero|].
    apply negb_true_iff in Hzero. specialize (Hhead Hzero).
    cbn [BigInt_of_text]. rewrite <- Hvalue.
    change (- Z.of_uint d) with (Z.of_int (Neg d)).
    unfold Z_toString. rewrite DecimalZ.to_of. cbn [norm]. rewrite Hhead.
    destruct d; [congruence|..]; cbn [NilZero.string_of_int];
      unfold NilZero.string_of_uint; now rewrite Hd.
  - intros H.
    assert (Hparts : is_digit c = true /\ all_of is_digit rest = true
                     /\ negb (Ascii.eqb c "0") || String.eqb rest "" = true).
    { destruct c as [[] [] [] [] [] [] [] []]; try discriminate H; try congruence;
        cbn in H |- *; apply andb_true_iff in H as [H1 H2]; auto. }
    destruct Hparts as (Hc & Hrest & Hcanon).
    split.
    { unfold is_integer_text.
      destruct c as [[] [] [] [] [] [] [] []]; try discriminate Hc;
        cbn [all_of]; rewrite ?Hc, Hrest; reflexivity. }
    destruct (digits_canonical c rest Hc Hrest Hcanon)
      as (d & Hd & Hvalue & Hnorm & Hnil & _).
    assert (Hbig : BigInt_of_text (String c rest) = digits_value 0 (String c rest)).
    { destruct c as [[] [] [] [] [] [] [] []]; try discriminate Hc; reflexivity. }
    rewrite Hbig, <- Hvalue.
    change (Z.of_uint d) with (Z.of_int (Pos d)).
    unfold Z_toString. rewrite DecimalZ.to_of. cbn [norm]. rewrite Hnorm.
    unfold NilZero.string_of_int, NilZero.string_of_uint.
    destruct d; [congruence|..]; exact Hd.
Qed.

Section world.
Variable psql : list event -> event -> result string.

Abbreviation runPsqlWithRuntime := (PgSeed.runPsqlWithRuntime psql).
Abbreviation runPsqlWithRuntimeCapture := (PgSeed.runPsqlWithRuntimeCapture psql).
Abbreviation resolveSeedRef := (PgSeed.resolveSeedRef psql).
Abbreviation resolveSeedRow := (PgSeed.resolveSeedRow psql).
Abbreviation insertRow := (PgSeed.insertRow psql).
Abbreviation insertRows := (PgSeed.insertRows psql).
Abbreviation applyTableSeed := (PgSeed.applyTableSeed psql).
Abbreviation applySeedOperation := (PgSeed.applySeedOperation psql).


Lemma runPsqlWithRuntime_unusable runtime db sql trace :
  usable runtime = false ->
  runPsqlWithRuntime runtime db sql trace
  = (Throw (Error "Missing Postgres host for direct mode."), trace).
Proof.
  unfold usable, PgSeed.runPsqlWithRuntime. intros H.
  destruct (mode runtime); [discriminate|].
  now destruct (missing_host runtime).
Qed.

(** *** Rows *)

Lemma resolveSeedRow_entries runtime db (entries resolved : object) trace :
  forallb (fun entry => negb (isSeedRef (snd entry))) entries = true ->
  List.NoDup (Object_keys resolved ++ Object_keys entries) ->
  (fix go (entries : object) (resolved : object) : M object :=
     match entries with
     | [] => ret resolved
     | (key, v) :: rest =>
         if isSeedRef v then
           match decode_ref (get v "ref") with
           | Some ref =>
               bindM (PgSeed.resolveSeedRef psql runtime db ref)
                     (fun found => go rest (set_prop resolved key found))
           | None => throw (Untyped "SeedRef")
           end
         else go rest (set_prop resolved key v)
     end) entries resolved trace
  = (Ok (resolved ++ entries), trace).
Proof.
  revert resolved. induction entries as [|[key v] entries IH]; intros resolved Hrefs Hnd.
  - now rewrite List.app_nil_r.
  - cbn [forallb snd] in Hrefs. apply andb_true_iff in Hrefs as [Hv Hrefs].
    apply negb_true_iff in Hv. rewrite Hv.
    assert (Hfresh : ~ In key (Object_keys resolved)).
    { apply List.NoDup_remove_2 in Hnd. intros Hin. apply Hnd.
      apply List.in_or_app. now left. }
    rewrite (SeedVarsFacts.set_prop_fresh _ _ _ Hfresh), IH.
    + now rewrite <- List.app_assoc.
    + exact Hrefs.
    + unfold Object_keys in *. rewrite List.map_app, <- List.app_assoc. exact Hnd.
Qed.

Lemma resolveSeedRow_plain runtime db (row : object) trace :
  plain_row row = true -> resolveSeedRow runtime db row trace = (Ok row, trace).
Proof.
  unfold plain_row. intros H. apply andb_true_iff in H as [Hrefs Hkeys].
  unfold PgSeed.resolveSeedRow.
  now rewrite resolveSeedRow_entries
    by (auto; apply ApiHelpersFacts.distinct_NoDup, Hkeys).
Qed.






(** *** References *)

Lemma mapM_ext {A B} (f g : A -> result B) (xs : list A) :
  (forall x, f x = g x) -> mapM f xs = mapM g xs.
Proof.
  intros H. induction xs as [|x xs IH]; [reflexivity|].
  now rewrite !mapM_cons, H, IH.
Qed.

Lemma runPsqlWithRuntimeCapture_usable runtime db sql trace :
  usable runtime = true ->
  runPsqlWithRuntimeCapture runtime db sql trace
  = (psql trace (Psql true runtime db sql), trace ++ [Psql true runtime db sql]).
Proof.
  unfold usable, PgSeed.runPsqlWithRuntimeCapture. intros H.
  destruct (mode runtime); [|destruct (missing_host runtime); [discriminate|]];
    reflexivity.
Qed.

(** The reference, as a query and what is made of its output. *)
Lemma resolveSeedRef_query runtime db (ref : SeedRefTarget) clauses trace :
  mapM ref_clause (ref_where ref) = Ok clauses ->
  usable runtime = true ->
  resolveSeedRef runtime db ref trace
  = (match psql trace (Psql true runtime db (ref_query ref clauses)) with
     | Throw e => Throw e
     | Ok output =>
         if String.eqb (trim output) "" then
           Throw (Error ("Seed ref not found: " +:+ ref_table ref +:+ "("
                         +:+ (if String.eqb (join ", " clauses) "" then "no filter"
                              else join ", " clauses)
                         +:+ ")"))
         else if is_integer_text (trim output)
         then Ok (VBigInt (BigInt_of_text (trim output)))
         else Ok (VString (trim output))
     end, trace ++ [Psql true runtime db (ref_query ref clauses)]).
Proof.
  intros Hclauses Husable. unfold PgSeed.resolveSeedRef.
  rewrite PgRunFacts.bindM_eq. unfold lift.
  rewrite (mapM_ext _ ref_clause) by (now intros [field v]).
  rewrite Hclauses. rewrite PgRunFacts.bindM_eq.
  assert (Hquery : "SELECT " +:+ quoteIdentifier (default "id" (ref_column ref))
                   +:+ " FROM " +:+ quoteIdentifier (ref_table ref)
                   +:+ (if Nat.eqb (length clauses) 0 then ""
                        else " WHERE " +:+ join " AND " clauses)
                   +:+ " LIMIT 1;"
                   = ref_query ref clauses) by now destruct clauses.
  rewrite Hquery, runPsqlWithRuntimeCapture_usable by assumption.
  destruct (psql trace _) as [output|e]; [|reflexivity].
  destruct (String.eqb (trim output) ""); [reflexivity|].
  now destruct (is_integer_text (trim output)).
Qed.

(** X13.  A cross-row reference whose filter renders runs one captured
    query on the target database, SELECT column (id by default) FROM table
    with one comparison per filter entry and LIMIT 1.  A failed query
    raises its error; an output that is empty once trimmed raises that the
    reference was not found, naming the table and the filter; trimmed
    output that is an optionally signed run of digits becomes a BigInt,
    which a later statement renders as the very digits that were read when
    they are written canonically; any other output becomes a string.  A
    filter value that does not render raises before any query runs, and so
    does a direct runtime without host. *)
Theorem resolveSeedRef_outcome runtime db (ref : SeedRefTarget) :
  (forall clauses trace,
      mapM ref_clause (ref_where ref) = Ok clauses ->
      usable runtime = true ->
      let query := Psql true runtime db (ref_query ref clauses) in
      snd (resolveSeedRef runtime db ref trace) = trace ++ [query]
      /\ (forall e, psql trace query = Throw e ->
            fst (resolveSeedRef runtime db ref trace) = Throw e)
      /\ (forall output,
            psql trace query = Ok output -> trim output = "" ->
            fst (resolveSeedRef runtime db ref trace)
            = Throw (Error ("Seed ref not found: " +:+ ref_table ref +:+ "("
                            +:+ (if String.eqb (join ", " clauses) "" then "no filter"
                                 else join ", " clauses)
                            +:+ ")")))
      /\ (forall output,
            psql trace query = Ok output -> is_integer_text (trim output) = true ->
            fst (resolveSeedRef runtime db ref trace)
            = Ok (VBigInt (BigInt_of_text (trim output))))
      /\ (forall output,
            psql trace query = Ok output -> canonical_integer (trim output) = true ->
            fst (resolveSeedRef runtime db ref trace)
            = Ok (VBigInt (BigInt_of_text (trim output)))
            /\ toSqlValue (VBigInt (BigInt_of_text (trim output))) = Ok (trim output))
      /\ (forall output,
            psql trace query = Ok output -> trim output <> "" ->
            is_integer_text (trim output) = false ->
            fst (resolveSeedRef runtime db ref trace) = Ok (VString (trim output))))
  /\ (forall e trace,
        mapM ref_clause (ref_where ref) = Throw e ->
        resolveSeedRef runtime db ref trace = (Throw e, trace))
  /\ (forall clauses trace,
        mapM ref_clause (ref_where ref) = Ok clauses ->
        usable runtime = false ->
        resolveSeedRef runtime db ref trace
        = (Throw (Error "Missing Postgres host for direct mode."), trace)).
Proof.
  assert (Hinteger : forall text, is_integer_text text = true -> text <> "").
  { intros text H ->. discriminate H. }
  repeat apply conj.
  - intros clauses trace Hclauses Husable query.
    rewrite (resolveSeedRef_query _ _ _ _ _ Hclauses Husable). fold query.
    cbn [fst snd]. repeat split.
    + now intros e ->.
    + intros output -> ->. reflexivity.
    + intros output -> Hint.
      destruct (String.eqb_spec (trim output) "") as [E|_];
        [now apply Hinteger in Hint|].
      now rewrite Hint.
    + destruct (BigInt_round_trip _ H0) as [Hint _]. rewrite H.
      destruct (String.eqb_spec (trim output) "") as [E|_];
        [now apply Hinteger in Hint|].
      now rewrite Hint.
    + destruct (BigInt_round_trip _ H0) as [_ Htext].
      cbn [toSqlValue]. now rewrite Htext.
    + intros output -> Hne Hint.
      destruct (String.eqb_spec (trim output) "") as [E|_]; [contradiction|].
      now rewrite Hint.
  - intros e trace Hclauses. unfold PgSeed.resolveSeedRef.
    rewrite PgRunFacts.bindM_eq. unfold lift.
    rewrite (mapM_ext _ ref_clause) by (now intros [field v]).
    now rewrite Hclauses.
  - intros clauses trace Hclauses Husable. unfold PgSeed.resolveSeedRef.
    rewrite PgRunFacts.bindM_eq. unfold lift.
    rewrite (mapM_ext _ ref_clause) by (now intros [field v]).
    rewrite Hclauses, PgRunFacts.bindM_eq.
    unfold usable in Husable. unfold PgSeed.runPsqlWithRuntimeCapture.
    destruct (mode runtime); [discriminate|].
    now destruct (missing_host runtime).
Qed.

(** *** Resolved rows *)

Lemma resolveSeedRow_related runtime db (entries : object) :
  forall (resolved : object) trace result,
  List.NoDup (Object_keys resolved ++ Object_keys entries) ->
  fst ((fix go (entries : object) (resolved : object) : M object :=
          match entries with
          | [] => ret resolved
          | (key, v) :: rest =>
              if isSeedRef v then
                match decode_ref (get v "ref") with
                | Some ref =>
                    bindM (PgSeed.resolveSeedRef psql runtime db ref)
                          (fun found => go rest (set_prop resolved key found))
                | None => throw (Untyped "SeedRef")
                end
              else go rest (set_prop resolved key v)
          end) entries resolved trace) = Ok result ->
  exists found,
    result = resolved ++ found
    /\ List.Forall2 (fun entry entry' =>
                       fst entry' = fst entry
                       /\ (isSeedRef (snd entry) = false -> snd entry' = snd entry))
                    entries found.
Proof.
  induction entries as [|[key v] entries IH]; intros resolved trace result Hnd.
  - cbn. intros [= <-]. exists []. split; [now rewrite List.app_nil_r | constructor].
  - assert (Hfresh : ~ In key (Object_keys resolved)).
    { apply List.NoDup_remove_2 in Hnd. intros Hin. apply Hnd.
      apply List.in_or_app. now left. }
    assert (Hnext : forall item,
              List.NoDup (Object_keys (set_prop resolved key item)
                          ++ Object_keys entries)).
    { intros item. rewrite (SeedVarsFacts.set_prop_fresh _ _ _ Hfresh).
      unfold Object_keys in *. rewrite List.map_app, <- List.app_assoc. exact Hnd. }
    destruct (isSeedRef v) eqn:Hv.
    + destruct (decode_ref (get v "ref")) as [ref|]; [|discriminate].
      rewrite PgRunFacts.bindM_eq.
      destruct (PgSeed.resolveSeedRef psql runtime db ref trace) as [[item|e] trace'];
        [|discriminate].
      intros H. destruct (IH _ _ _ (Hnext item) H) as (found & -> & Hfound).
      exists ((key, item) :: found). split.
      * rewrite (SeedVarsFacts.set_prop_fresh _ _ _ Hfresh).
        now rewrite <- List.app_assoc.
      * constructor; [|exact Hfound].
        split; [reflexivity | cbn [snd]; intros; congruence].
    + intros H. destruct (IH _ _ _ (Hnext v) H) as (found & -> & Hfound).
      exists ((key, v) :: found). split.
      * rewrite (SeedVarsFacts.set_prop_fresh _ _ _ Hfresh).
        now rewrite <- List.app_assoc.
      * constructor; [|exact Hfound]. split; reflexivity.
Qed.

Lemma related_keys (entries found : object) :
  List.Forall2 (fun entry entry' : string * value =>
                  fst entry' = fst entry
                  /\ (isSeedRef (snd entry) = false -> snd entry' = snd entry))
               entries found ->
  Object_keys found = Object_keys entries
  /\ forall key, isSeedRef (get_prop entries key) = false ->
                 In key (Object_keys entries) ->
                 get_prop found key = get_prop entries key.
Proof.
  induction 1 as [|[k v] [k' v'] entries found [Hk Hv] _ [IHkeys IHget]].
  - split; [reflexivity | intros key _ []].
  - cbn [fst snd] in *. subst k'. split.
    + unfold Object_keys in *. cbn [map fst]. now rewrite IHkeys.
    + intros key. unfold get_prop in *. cbn [lookup_prop].
      destruct (String.eqb_spec k key) as [->|Hne].
      * cbn. intros Href _. now apply Hv.
      * intros Href Hin. unfold Object_keys in Hin. cbn [map fst In] in Hin.
        destruct Hin as [Hin|Hin]; [congruence|]. now apply IHget.
Qed.

(** X14.  Resolving the references of a row keeps its columns and their
    order, keeps every value that is not a reference as it is, and, for a
    row without references, runs nothing and returns the row itself. *)
Theorem resolveSeedRow_columns runtime db (row : object) :
  (plain_row row = true ->
   forall trace, resolveSeedRow runtime db row trace = (Ok row, trace))
  /\ (List.NoDup (Object_keys row) ->
      forall trace resolved,
        fst (resolveSeedRow runtime db row trace) = Ok resolved ->
        Object_keys resolved = Object_keys row
        /\ forall key, In key (Object_keys row) ->
                       isSeedRef (get_prop row key) = false ->
                       get_prop resolved key = get_prop row key).
Proof.
  split.
  - intros H trace. now apply resolveSeedRow_plain.
  - intros Hnd trace resolved H. unfold PgSeed.resolveSeedRow in H.
    destruct (resolveSeedRow_related runtime db row [] trace resolved Hnd H)
      as (found & -> & Hfound).
    destruct (related_keys _ _ Hfound) as [Hkeys Hget].
    split; [exact Hkeys|]. intros key Hin Href. now apply Hget.
Qed.

(** *** Operations *)

(** X15.  A seed operation without a table raises, and so does an insert
    or upsert without rows, an update without where or set, a delete
    without where and an operation of any other type: each of them before
    anything runs.  An insert runs the INSERT statements of its rows
    without upsert keys, an upsert with the [upsertBy] keys.  An update or
    delete whose filter and set hold no reference runs the one statement
    that [buildUpdateSql] or [buildDeleteSql] returns, and nothing when
    that raises, as it does for an empty filter. *)
Theorem applySeedOperation_cases runtime db (operation : value) (op : SeedOperation)
    (table : string) :
  decode_operation operation = Some op ->
  (op_table op = None \/ op_table op = Some "" ->
   forall trace,
     applySeedOperation runtime db operation trace
     = (Throw (Error ("Seed operation requires " +:+ dq +:+ "table" +:+ dq +:+ ".")),
        trace))
  /\ (op_table op = Some table -> table <> "" ->
      (String_ (op_type op) = "insert" \/ String_ (op_type op) = "upsert" ->
       default [] (op_rows op) = [] ->
       forall trace, exists message,
         applySeedOperation runtime db operation trace = (Throw (Error message), trace))
      /\ (String_ (op_type op) = "insert" -> default [] (op_rows op) <> [] ->
          forall trace,
            applySeedOperation runtime db operation trace
            = insertRows runtime db table [] (default [] (op_rows op)) trace)
      /\ (String_ (op_type op) = "upsert" -> default [] (op_rows op) <> [] ->
          forall trace,
            applySeedOperation runtime db operation trace
            = insertRows runtime db table (default [] (op_upsertBy op))
                (default [] (op_rows op)) trace)
      /\ (String_ (op_type op) = "update" ->
          op_where op = None \/ op_set op = None ->
          forall trace, exists message,
            applySeedOperation runtime db operation trace
            = (Throw (Error message), trace))
      /\ (String_ (op_type op) = "update" ->
          forall where_ set,
            op_where op = Some where_ -> op_set op = Some set ->
            plain_row where_ = true -> plain_row set = true ->
            forall trace,
              applySeedOperation runtime db operation trace
              = match buildUpdateSql table set where_ with
                | Ok sql => runPsqlWithRuntime runtime db sql trace
                | Throw e => (Throw e, trace)
                end)
      /\ (String_ (op_type op) = "delete" -> op_where op = None ->
          forall trace, exists message,
            applySeedOperation runtime db operation trace
            = (Throw (Error message), trace))
      /\ (String_ (op_type op) = "delete" ->
          forall where_,
            op_where op = Some where_ -> plain_row where_ = true ->
            forall trace,
              applySeedOperation runtime db operation trace
              = match buildDeleteSql table where_ with
                | Ok sql => runPsqlWithRuntime runtime db sql trace
                | Throw e => (Throw e, trace)
                end)
      /\ (String_ (op_type op) = "delete" -> op_where op = Some [] ->
          forall trace, exists message,
            applySeedOperation runtime db operation trace
            = (Throw (Error message), trace))
      /\ (String_ (op_type op) <> "insert" -> String_ (op_type op) <> "upsert" ->
          String_ (op_type op) <> "update" -> String_ (op_type op) <> "delete" ->
          forall trace,
            applySeedOperation runtime db operation trace
            = (Throw (Error ("Unsupported seed operation type " +:+ dq
                             +:+ String_ (op_type op) +:+ dq +:+ ".")), trace))).
Proof.
  intros Hop. split.
  - intros Htable trace. unfold PgSeed.applySeedOperation. rewrite Hop.
    destruct Htable as [->| ->]; reflexivity.
  - intros Htable Hne.
    assert (Hbody : forall trace,
      applySeedOperation runtime db operation trace
      = (let type := String_ (op_type op) in
         if String.eqb type "insert" || String.eqb type "upsert" then
           let rows := default [] (op_rows op) in
           if Nat.eqb (length rows) 0 then
             throw (Error ("Operation " +:+ dq +:+ type +:+ dq +:+ " on " +:+ table
                           +:+ " requires " +:+ dq +:+ "rows" +:+ dq +:+ "."))
           else
             let upsertBy :=
               if String.eqb type "upsert" then default [] (op_upsertBy op)
               else [] in
             insertRows runtime db table upsertBy rows
         else if String.eqb type "update" then
           match op_where op, op_set op with
           | Some where_, Some set =>
               bindM (resolveSeedRow runtime db where_) (fun resolvedWhere =>
               bindM (resolveSeedRow runtime db set) (fun resolvedSet =>
               bindM (lift (buildUpdateSql table resolvedSet resolvedWhere))
                     (fun sql => runPsqlWithRuntime runtime db sql)))
           | _, _ =>
               throw (Error ("Operation " +:+ dq +:+ "update" +:+ dq +:+ " on "
                             +:+ table +:+ " requires " +:+ dq +:+ "where" +:+ dq
                             +:+ " and " +:+ dq +:+ "set" +:+ dq +:+ "."))
           end
         else if String.eqb type "delete" then
           match op_where op with
           | Some where_ =>
               bindM (resolveSeedRow runtime db where_) (fun resolvedWhere =>
               bindM (lift (buildDeleteSql table resolvedWhere))
                     (fun sql => runPsqlWithRuntime runtime db sql))
           | None =>
               throw (Error ("Operation " +:+ dq +:+ "delete" +:+ dq +:+ " on "
                             +:+ table +:+ " requires " +:+ dq +:+ "where" +:+ dq
                             +:+ "."))
           end
         else
           throw (Error ("Unsupported seed operation type " +:+ dq +:+ type
                         +:+ dq +:+ "."))) trace).
    { intros trace. unfold PgSeed.applySeedOperation. rewrite Hop, Htable.
      now destruct (String.eqb_spec table ""). }
    repeat apply conj.
    + intros Htype Hrows trace. rewrite Hbody, Hrows. cbv zeta.
      destruct Htype as [-> | ->]; cbn; eauto.
    + intros Htype Hrows trace. rewrite Hbody, Htype. cbv zeta.
      destruct (default [] (op_rows op)); [congruence | reflexivity].
    + intros Htype Hrows trace. rewrite Hbody, Htype. cbv zeta.
      destruct (default [] (op_rows op)); [congruence | reflexivity].
    + intros Htype Hmissing trace. rewrite Hbody, Htype. cbv zeta.
      change (String.eqb "update" "insert" || String.eqb "update" "upsert") with false.
      change (String.eqb "update" "update") with true. cbv iota.
      destruct Hmissing as [-> | ->]; [|destruct (op_where op)]; eauto.
    + intros Htype where_ set Hwhere Hset Hpw Hps trace.
      rewrite Hbody, Htype, Hwhere, Hset. cbv zeta.
      change (String.eqb "update" "insert" || String.eqb "update" "upsert") with false.
      change (String.eqb "update" "update") with true. cbv iota.
      rewrite PgRunFacts.bindM_eq, (resolveSeedRow_plain _ _ _ _ Hpw).
      rewrite PgRunFacts.bindM_eq, (resolveSeedRow_plain _ _ _ _ Hps).
      rewrite PgRunFacts.bindM_eq. unfold lift.
      now destruct (buildUpdateSql table set where_).
    + intros Htype Hwhere trace. rewrite Hbody, Htype, Hwhere. cbv zeta.
      cbn. eauto.
    + intros Htype where_ Hwhere Hpw trace.
      rewrite Hbody, Htype, Hwhere. cbv zeta.
      change (String.eqb "delete" "insert" || String.eqb "delete" "upsert") with false.
      change (String.eqb "delete" "update") with false.
      change (String.eqb "delete" "delete") with true. cbv iota.
      rewrite PgRunFacts.bindM_eq, (resolveSeedRow_plain _ _ _ _ Hpw).
      rewrite PgRunFacts.bindM_eq. unfold lift.
      now destruct (buildDeleteSql table where_).
    + intros Htype Hwhere trace. rewrite Hbody, Htype, Hwhere. cbv zeta.
      cbn. eauto.
    + intros Hinsert Hupsert Hupdate Hdelete trace. rewrite Hbody. cbv zeta.
      destruct (String.eqb_spec (String_ (op_type op)) "insert"); [contradiction|].
      destruct (String.eqb_spec (String_ (op_type op)) "upsert"); [contradiction|].
      destruct (String.eqb_spec (String_ (op_type op)) "update"); [contradiction|].
      destruct (String.eqb_spec (String_ (op_type op)) "delete"); [contradiction|].
      reflexivity.
Qed.

End world.


(** The theorem at a reference to the only party. *)
Lemma resolveSeedRef_outcome_witness :
  canonical_integer (trim (" 42" +:+ OpenSearch.nl)) = true
  /\ fst (PgSeed.resolveSeedRef (fun _ _ => Ok (" 42" +:+ OpenSearch.nl))
            {| mode := compose; service := "postgres"; user := "postgres";
               password := None; host := None; port := None;
               adminDb := "postgres"; composeDir := "."; ssl := None |}
            "wallet"
            {| ref_table := "Party"; ref_where := []; ref_column := None |} [])
     = Ok (VBigInt (BigInt_of_text (trim (" 42" +:+ OpenSearch.nl))))
  /\ toSqlValue (VBigInt (BigInt_of_text (trim (" 42" +:+ OpenSearch.nl))))
     = Ok (trim (" 42" +:+ OpenSearch.nl)).
Proof.
  split; [reflexivity|].
  destruct (resolveSeedRef_outcome (fun _ _ => Ok (" 42" +:+ OpenSearch.nl))
              {| mode := compose; service := "postgres"; user := "postgres";
                 password := None; host := None; port := None;
                 adminDb := "postgres"; composeDir := "."; ssl := None |}
              "wallet"
              {| ref_table := "Party"; ref_where := []; ref_column := None |})
    as (H & _).
  destruct (H [] [] eq_refl eq_refl) as (_ & _ & _ & _ & Hcanon & _).
  exact (Hcanon _ eq_refl eq_refl).
Defined.

(** The theorem at a row of two plain columns. *)
Lemma resolveSeedRow_columns_witness :
  plain_row [("id", VString "a"); ("name", VString "Ann")] = true
  /\ PgSeed.resolveSeedRow (fun _ _ => Ok "")
       {| mode := compose; service := "postgres"; user := "postgres";
          password := None; host := None; port := None;
          adminDb := "postgres"; composeDir := "."; ssl := None |}
       "wallet" [("id", VString "a"); ("name", VString "Ann")] []
     = (Ok [("id", VString "a"); ("name", VString "Ann")], []).
Proof.
  split; [reflexivity|].
  apply (proj1 (resolveSeedRow_columns (fun _ _ => Ok "") _ "wallet" _)).
  reflexivity.
Defined.

(** The theorem at a delete whose filter is empty. *)
Lemma applySeedOperation_cases_witness :
  decode_operation (VObject [("type", VString "delete"); ("table", VString "Party");
                             ("where", VObject [])])
  = Some {| op_type := VString "delete"; op_table := Some "Party"; op_rows := None;
            op_upsertBy := None; op_where := Some []; op_set := None |}
  /\ exists message,
       PgSeed.applySeedOperation (fun _ _ => Ok "")
         {| mode := compose; service := "postgres"; user := "postgres";
            password := None; host := None; port := None;
            adminDb := "postgres"; composeDir := "."; ssl := None |}
         "wallet"
         (VObject [("type", VString "delete"); ("table", VString "Party");
                   ("where", VObject [])]) []
       = (Throw (Error message), []).
Proof.
  split; [reflexivity|].
  destruct (applySeedOperation_cases (fun _ _ => Ok "")
              {| mode := compose; service := "postgres"; user := "postgres";
                 password := None; host := None; port := None;
                 adminDb := "postgres"; composeDir := "."; ssl := None |}
              "wallet"
              (VObject [("type", VString "delete"); ("table", VString "Party");
                        ("where", VObject [])])
              _ "Party" eq_refl) as (_ & H).
  destruct (H eq_refl) as (_ & _ & _ & _ & _ & _ & _ & Hempty & _); [discriminate|].
  exact (Hempty eq_refl eq_refl []).
Defined.

End SeedRunFacts.

(** ** Facts: waiting for Postgres *)

Module PgWaitFacts.
Import Js PgWait.
Local Open Scope nat_scope.

Lemma wait_from_success probe attempts k :
  k < attempts ->
  (forall i, i < k -> exists e, probe i = Throw e) ->
  probe k = Ok tt ->
  forall d i probes sleeps,
    i + d = k ->
    wait_from probe attempts (attempts - i) i probes sleeps
    = (Ok tt, S (probes + d), sleeps + d).
Proof.
  intros Hk Hfail Hok d.
  induction d as [|d IH]; intros i probes sleeps Hi.
  - assert (i = k) by lia. subst i.
    destruct (attempts - k) as [|r] eqn:Hr; [lia|].
    cbn [wait_from]. rewrite Hok. f_equal; [f_equal|]; lia.
  - destruct (attempts - i) as [|r] eqn:Hr; [lia|].
    cbn [wait_from].
    destruct (Hfail i) as (e & ->); [lia|].
    destruct (Nat.eqb_spec i (attempts - 1)) as [Heq|_]; [lia|].
    replace r with (attempts - S i) by lia.
    rewrite IH by lia. f_equal; [f_equal|]; lia.
Qed.

Lemma wait_from_failure probe attempts e :
  0 < attempts ->
  (forall i, i < attempts -> exists e', probe i = Throw e') ->
  probe (attempts - 1) = Throw e ->
  forall d i probes sleeps,
    i + d = attempts - 1 ->
    wait_from probe attempts (attempts - i) i probes sleeps
    = (Throw e, S (probes + d), sleeps + d).
Proof.
  intros Hpos Hfail Hlast d.
  induction d as [|d IH]; intros i probes sleeps Hi.
  - assert (i = attempts - 1) by lia. subst i.
    destruct (attempts - (attempts - 1)) as [|r] eqn:Hr; [lia|].
    cbn [wait_from]. rewrite Hlast, Nat.eqb_refl. f_equal; [f_equal|]; lia.
  - destruct (attempts - i) as [|r] eqn:Hr; [lia|].
    cbn [wait_from].
    destruct (Hfail i) as (e' & ->); [lia|].
    destruct (Nat.eqb_spec i (attempts - 1)) as [Heq|_]; [lia|].
    replace r with (attempts - S i) by lia.
    rewrite IH by lia. f_equal; [f_equal|]; lia.
Qed.

(** X16. waitForPostgresCompose and waitForPostgresDirect probe the server
    until an attempt succeeds: when attempt k (counted from 0) is the first
    to succeed, they return after k + 1 probes and k pauses; when all the
    attempts fail, they throw the error of the last one after as many
    probes as attempts, with no pause after the last; and with no attempt
    allowed they return normally without probing at all. *)
Theorem waitForPostgres_attempts (probe : nat -> result unit) (attempts : nat) :
  waitForPostgresDirect probe attempts = waitForPostgresCompose probe attempts
  /\ (forall k,
        k < attempts ->
        (forall i, i < k -> exists e, probe i = Throw e) ->
        probe k = Ok tt ->
        waitForPostgresCompose probe attempts = (Ok tt, S k, k))
  /\ (forall e,
        0 < attempts ->
        (forall i, i < attempts -> exists e', probe i = Throw e') ->
        probe (attempts - 1) = Throw e ->
        waitForPostgresCompose probe attempts = (Throw e, attempts, attempts - 1))
  /\ (attempts = 0 -> waitForPostgresCompose probe attempts = (Ok tt, 0, 0)).
Proof.
  split; [reflexivity|]. split; [|split].
  - intros k Hk Hfail Hok. unfold waitForPostgresCompose.
    rewrite <- (Nat.sub_0_r attempts) at 2.
    rewrite (wait_from_success probe attempts k Hk Hfail Hok k 0 0 0) by lia.
    reflexivity.
  - intros e Hpos Hfail Hlast. unfold waitForPostgresCompose.
    rewrite <- (Nat.sub_0_r attempts) at 2.
    rewrite (wait_from_failure probe attempts e Hpos Hfail Hlast (attempts - 1) 0 0 0) by lia.
    f_equal. f_equal. lia.
  - intros ->. reflexivity.
Qed.

Lemma waitForPostgres_attempts_witness :
  let probe := fun i => if Nat.ltb i 2 then Throw (Error "not ready") else Ok tt in
  waitForPostgresCompose probe 30 = (Ok tt, 3, 2)
  /\ waitForPostgresCompose (fun _ => Throw (Error "not ready")) 3
     = (Throw (Error "not ready"), 3, 2).
Proof.
  intros probe. split.
  - apply (proj1 (proj2 (waitForPostgres_attempts probe 30)) 2); [lia| |reflexivity].
    intros i Hi. exists (Error "not ready"). unfold probe.
    destruct (Nat.ltb_spec i 2); [reflexivity|lia].
  - apply (proj1 (proj2 (proj2 (waitForPostgres_attempts (fun _ => Throw (Error "not ready")) 3)))
             (Error "not ready")); [lia| |reflexivity].
    intros i _. exists (Error "not ready"). reflexivity.
Defined.

End PgWaitFacts.

(** ** Facts: parties, pagination, trees, loading and identifiers *)

Module PartyToolsFacts.
Import Js JsFacts PartyTools.

(** *** Identifiers *)

Lemma all_of_class cls cls' (s : string) :
  (forall c, cls c = true -> cls' c = true) ->
  all_of cls s = true -> all_of cls' s = true.
Proof.
  intros Hcls. induction s as [|c s IH]; cbn [all_of]; [reflexivity|].
  intros H. apply andb_true_iff in H as [Hc Hs].
  now rewrite (Hcls c Hc), (IH Hs).
Qed.

Lemma hex_is_word c : is_hex_or_dash c = true -> is_word_or_dash c = true.
Proof.
  destruct c as [[] [] [] [] [] [] [] []]; vm_compute; intros H;
    try reflexivity; discriminate H.
Qed.

Lemma upper_is_word c : is_upper c = true -> is_word_or_dash c = true.
Proof.
  destruct c as [[] [] [] [] [] [] [] []]; vm_compute; intros H;
    try reflexivity; discriminate H.
Qed.

Lemma shortRegex_form (value : string) :
  shortRegex value = true <->
  exists prefix suffix,
    value = prefix +:+ "-" +:+ suffix
    /\ all_of is_upper prefix = true /\ (3 <= String.length prefix)%nat
    /\ all_of is_word_or_dash suffix = true /\ (6 <= String.length suffix)%nat.
Proof.
  unfold shortRegex. split.
  - pose proof (span_source is_upper value) as Hsrc.
    pose proof (span_all is_upper value) as Hup.
    destruct (span is_upper value) as [prefix rest]. cbn [fst snd] in *.
    intros H. apply andb_true_iff in H as [Hp Hr].
    destruct rest as [|c suffix]; [discriminate|].
    destruct c as [[] [] [] [] [] [] [] []]; try discriminate Hr.
    apply andb_true_iff in Hr as [Hlen Hall].
    exists prefix, suffix. repeat split; try assumption.
    + now apply Nat.leb_le.
    + now apply Nat.leb_le.
  - intros (prefix & suffix & -> & Hup & Hp & Hall & Hlen).
    rewrite (span_app is_upper prefix ("-" +:+ suffix) Hup eq_refl).
    apply andb_true_iff. split; [now apply Nat.leb_le|].
    cbn [String.append]. apply andb_true_iff.
    split; [now apply Nat.leb_le | assumption].
Qed.

(** X17. validateIdentifier accepts exactly the strings of 36 hexadecimal
    digits and dashes, and the short identifiers: three capital letters or
    more, a dash, and six characters or more among letters, digits,
    underscore and dash. So an accepted identifier has ten characters or
    more, all of them letters, digits, underscores or dashes. *)
Theorem validateIdentifier_accepts (label value : string) :
  (validateIdentifier label value = Ok tt <->
   (String.length value = 36%nat /\ all_of is_hex_or_dash value = true)
   \/ exists prefix suffix,
        value = prefix +:+ "-" +:+ suffix
        /\ all_of is_upper prefix = true /\ (3 <= String.length prefix)%nat
        /\ all_of is_word_or_dash suffix = true /\ (6 <= String.length suffix)%nat)
  /\ (validateIdentifier label value = Ok tt ->
      all_of is_word_or_dash value = true /\ (10 <= String.length value)%nat).
Proof.
  assert (Hiff : validateIdentifier label value = Ok tt <->
                 uuidRegex value = true \/ shortRegex value = true).
  { unfold validateIdentifier.
    destruct (uuidRegex value), (shortRegex value); cbn; split;
      intros H; try reflexivity; try discriminate; auto.
    destruct H; discriminate. }
  assert (Huuid : uuidRegex value = true <->
                  String.length value = 36%nat /\ all_of is_hex_or_dash value = true).
  { unfold uuidRegex. rewrite andb_true_iff, Nat.eqb_eq. reflexivity. }
  split.
  - rewrite Hiff, Huuid, shortRegex_form. reflexivity.
  - intros H. apply Hiff in H as [H|H].
    + apply Huuid in H as [Hlen Hall]. split; [|lia].
      exact (all_of_class _ _ value hex_is_word Hall).
    + apply shortRegex_form in H
        as (prefix & suffix & -> & Hup & Hp & Hall & Hlen).
      split.
      * rewrite all_of_app. cbn [String.append all_of].
        rewrite (all_of_class _ _ prefix upper_is_word Hup), Hall. reflexivity.
      * rewrite length_app. cbn [String.append String.length]. lia.
Qed.

Lemma validateIdentifier_accepts_witness :
  validateIdentifier "Identifier" "ORG-ab12_9Z" = Ok tt
  /\ all_of is_word_or_dash "ORG-ab12_9Z" = true
  /\ (10 <= String.length "ORG-ab12_9Z")%nat.
Proof.
  split; [reflexivity|].
  exact (proj2 (validateIdentifier_accepts "Identifier" "ORG-ab12_9Z") eq_refl).
Defined.

(** *** Pagination *)

Lemma fetch_loop_pages {T} (client_get : list Z -> Z -> result (PaginatedResult T))
    (pages : list (list T)) :
  (forall requested k items,
     pages !! k = Some items ->
     client_get requested (Z.of_nat (S k))
     = Ok {| data := items; currentPage := Z.of_nat (S k);
             totalPages := Z.of_nat (length pages) |}) ->
  forall d k fuel items requested,
    (k + S d = length pages)%nat -> (S d <= fuel)%nat ->
    fetch_loop T client_get fuel items (Z.of_nat (S k)) requested
    = (Fetched (items ++ concat (drop k pages)),
       requested ++ map Z.of_nat (seq (S k) (S d))).
Proof.
  intros Hserver d.
  induction d as [|d IH]; intros k fuel items requested Hk Hfuel;
    (destruct fuel as [|fuel]; [lia|]);
    (destruct (lookup_lt_is_Some_2 pages k) as [its Hits]; [lia|]);
    cbn [fetch_loop]; rewrite (Hserver requested k its Hits);
    cbn [data currentPage totalPages];
    rewrite (drop_S pages its k Hits).
  - replace (Z.of_nat (length pages) =? 0) with false
      by (symmetry; apply Z.eqb_neq; lia).
    replace (Z.of_nat (S k) >=? Z.of_nat (length pages)) with true
      by (symmetry; rewrite Z.geb_leb; apply Z.leb_le; lia).
    cbn [orb]. rewrite drop_ge by lia. cbn [concat map seq].
    now rewrite List.app_nil_r.
  - replace (Z.of_nat (length pages) =? 0) with false
      by (symmetry; apply Z.eqb_neq; lia).
    replace (Z.of_nat (S k) >=? Z.of_nat (length pages)) with false
      by (symmetry; rewrite Z.geb_leb; apply Z.leb_gt; lia).
    cbn [orb]. replace (Z.of_nat (S k) + 1) with (Z.of_nat (S (S k))) by lia.
    rewrite IH by lia. cbn [concat]. f_equal.
    + now rewrite <- List.app_assoc.
    + rewrite <- List.app_assoc. reflexivity.
Qed.

Lemma fetch_loop_unfinished {T} (client_get : list Z -> Z -> result (PaginatedResult T)) :
  (forall requested page,
     exists answer,
       client_get requested page = Ok answer
       /\ totalPages answer <> 0 /\ currentPage answer < totalPages answer) ->
  forall fuel items page requested,
    fst (fetch_loop T client_get fuel items page requested) = Unfinished
    /\ length (snd (fetch_loop T client_get fuel items page requested))
       = (length requested + fuel)%nat.
Proof.
  intros Hserver fuel.
  induction fuel as [|fuel IH]; intros items page requested; cbn [fetch_loop].
  - cbn [fst snd]. split; [reflexivity|lia].
  - destruct (Hserver requested page) as (answer & -> & Hzero & Hless).
    replace (totalPages answer =? 0) with false
      by (symmetry; apply Z.eqb_neq; lia).
    replace (currentPage answer >=? totalPages answer) with false
      by (symmetry; rewrite Z.geb_leb; apply Z.leb_gt; lia).
    cbn [orb].
    destruct (IH (items ++ data answer) (currentPage answer + 1) (requested ++ [page]))
      as [-> ->].
    split; [reflexivity|]. rewrite List.length_app. cbn [length]. lia.
Qed.

(** X18. fetchAllPaginated asks for page 1 and then for the page after the
    one the server says it returned, until the server reports its last
    page. With a server that cuts the result into one or more pages it
    returns the items of all the pages in order, having requested each page
    once; when the first answer has totalPages 0 it returns that answer's
    items after one request; a failing request ends it with that error.
    The loop has no bound of its own: while the server never reports
    its last page, it keeps requesting. *)
Theorem fetchAllPaginated_pages {T} (client_get : list Z -> Z -> result (PaginatedResult T)) :
  (forall pages : list (list T),
     pages <> [] ->
     (forall requested k items,
        pages !! k = Some items ->
        client_get requested (Z.of_nat (S k))
        = Ok {| data := items; currentPage := Z.of_nat (S k);
                totalPages := Z.of_nat (length pages) |}) ->
     forall fuel, (length pages <= fuel)%nat ->
       fetchAllPaginated T client_get fuel
       = (Fetched (concat pages), map Z.of_nat (seq 1 (length pages))))
  /\ (forall items current,
        client_get [] 1 = Ok {| data := items; currentPage := current; totalPages := 0 |} ->
        forall fuel, (0 < fuel)%nat ->
          fetchAllPaginated T client_get fuel = (Fetched items, [1]))
  /\ (forall e,
        client_get [] 1 = Throw e ->
        forall fuel, (0 < fuel)%nat ->
          fetchAllPaginated T client_get fuel = (Failed e, [1]))
  /\ ((forall requested page,
         exists answer,
           client_get requested page = Ok answer
           /\ totalPages answer <> 0 /\ currentPage answer < totalPages answer) ->
      forall fuel,
        fst (fetchAllPaginated T client_get fuel) = Unfinished
        /\ length (snd (fetchAllPaginated T client_get fuel)) = fuel).
Proof.
  unfold fetchAllPaginated. split; [|split; [|split]].
  - intros pages Hpages Hserver fuel Hfuel.
    destruct pages as [|first rest] eqn:E; [congruence|]. rewrite <- E in *.
    assert (Hlen : length pages = S (length rest)) by (subst pages; reflexivity).
    change 1 with (Z.of_nat 1).
    rewrite (fetch_loop_pages client_get pages Hserver (length rest) 0 fuel [] [])
      by lia.
    rewrite Hlen. reflexivity.
  - intros items current Hget [|fuel] Hfuel; [lia|].
    cbn [fetch_loop]. rewrite Hget. reflexivity.
  - intros e Hget [|fuel] Hfuel; [lia|].
    cbn [fetch_loop]. rewrite Hget. reflexivity.
  - intros Hserver fuel.
    destruct (fetch_loop_unfinished client_get Hserver fuel [] 1 []) as [H1 H2].
    split; [exact H1 | exact H2].
Qed.

Lemma fetchAllPaginated_pages_witness :
  let client_get := fun (_ : list Z) (page : Z) =>
    Ok {| data := if page =? 1 then ["a"; "b"] else ["c"];
          currentPage := page; totalPages := 2 |} in
  fetchAllPaginated string client_get 5 = (Fetched ["a"; "b"; "c"], [1; 2]).
Proof.
  intros client_get.
  apply (proj1 (fetchAllPaginated_pages client_get) [["a"; "b"]; ["c"]]);
    [discriminate| |cbn; lia].
  intros requested [|[|k]] items H; try discriminate H;
    injection H as <-; reflexivity.
Defined.

(** *** Trees *)

Lemma forest_height_map {A} (f : A -> PartyTreeNode) (l : list A) (n : nat) :
  (forall x, height (f x) <= n)%nat -> (forest_height (map f l) <= n)%nat.
Proof.
  intros H. induction l as [|x l IH]; cbn [map forest_height fold_right]; [lia|].
  specialize (H x). unfold forest_height in IH. lia.
Qed.

Lemma buildTree_height fuel :
  forall parentId childrenMap depth currentDepth,
    (forest_height (buildTree fuel parentId childrenMap depth currentDepth)
     <= Z.to_nat (depth + 1 - currentDepth))%nat.
Proof.
  induction fuel as [|fuel IH]; intros parentId childrenMap depth currentDepth;
    cbn [buildTree]; [cbn; lia|].
  destruct (Z.gtb_spec currentDepth depth) as [Hgt|Hle]; [cbn; lia|].
  apply forest_height_map. intros child. cbn [height].
  specialize (IH (Parties.id child) childrenMap depth (currentDepth + 1)).
  unfold forest_height in IH. lia.
Qed.

Lemma buildTree_fuel fuel :
  forall fuel' parentId childrenMap depth currentDepth,
    (Z.to_nat (depth + 1 - currentDepth) <= fuel)%nat ->
    (Z.to_nat (depth + 1 - currentDepth) <= fuel')%nat ->
    buildTree fuel parentId childrenMap depth currentDepth
    = buildTree fuel' parentId childrenMap depth currentDepth.
Proof.
  induction fuel as [|fuel IH];
    intros [|fuel'] parentId childrenMap depth currentDepth H H';
    cbn [buildTree]; try reflexivity.
  - destruct (Z.gtb_spec currentDepth depth) as [Hgt|Hle]; [reflexivity|lia].
  - destruct (Z.gtb_spec currentDepth depth) as [Hgt|Hle]; [reflexivity|lia].
  - destruct (Z.gtb_spec currentDepth depth) as [Hgt|Hle]; [reflexivity|].
    apply map_ext. intros child. f_equal. apply IH; lia.
Qed.

(** X19. buildTree stops at the depth asked for, whatever the map of
    children holds: a tree built from level currentDepth has at most
    depth + 1 - currentDepth levels, and as many recursive calls as that,
    nested, are all it makes, even when the map has a cycle. *)
Theorem buildTree_depth (parentId : string)
    (childrenMap : gmap string (list Parties.PartyDTO)) (depth currentDepth : Z) :
  (forall fuel,
     (forest_height (buildTree fuel parentId childrenMap depth currentDepth)
      <= Z.to_nat (depth + 1 - currentDepth))%nat)
  /\ (forall fuel fuel',
        (Z.to_nat (depth + 1 - currentDepth) <= fuel)%nat ->
        (Z.to_nat (depth + 1 - currentDepth) <= fuel')%nat ->
        buildTree fuel parentId childrenMap depth currentDepth
        = buildTree fuel' parentId childrenMap depth currentDepth)
  /\ (depth < currentDepth ->
      forall fuel, buildTree fuel parentId childrenMap depth currentDepth = []).
Proof.
  split; [|split].
  - intros fuel. apply buildTree_height.
  - intros fuel fuel'. apply buildTree_fuel.
  - intros Hlt [|fuel]; cbn [buildTree]; [reflexivity|].
    destruct (Z.gtb_spec currentDepth depth) as [Hgt|Hle]; [reflexivity|lia].
Qed.

Lemma buildTree_depth_witness :
  let party := {| Parties.id := "a"; Parties.shortId := "ORG-000001";
                  Parties.name := "A"; Parties.orgId := Parties.Org "a" |} in
  let childrenMap : gmap string (list Parties.PartyDTO) := {[ "a" := [party] ]} in
  buildTree 2 "a" childrenMap 2 1 = buildTree 7 "a" childrenMap 2 1.
Proof.
  intros party childrenMap.
  apply (proj1 (proj2 (buildTree_depth "a" childrenMap 2 1))); vm_compute; lia.
Defined.

End PartyToolsFacts.

(** ** Facts: loading a party file *)

Module PartyLoadFacts.
Import Js JsFacts PartyTools.

Section input_induction.
Variable P : PartyYamlInput -> Prop.
Hypothesis Hnode :
  forall fields children, Forall P children -> P (PartyInput fields children).

Fixpoint input_nested_ind (node : PartyYamlInput) : P node :=
  match node with
  | PartyInput fields children =>
      Hnode fields children
        ((fix go (l : list PartyYamlInput) : Forall P l :=
            match l with
            | [] => @List.Forall_nil _ P
            | x :: rest => @List.Forall_cons _ P x rest (input_nested_ind x) (go rest)
            end) children)
  end.
End input_induction.

Lemma buildPartyPayload_kept (fields : object) (parentId key : string) :
  ~ In key optional_fields ->
  get_prop (buildPartyPayload fields parentId) key
  = get_prop [("name", get_prop fields "name"); ("type", get_prop fields "type");
              ("orgId", VString parentId)] key.
Proof.
  unfold buildPartyPayload.
  generalize [("name", get_prop fields "name"); ("type", get_prop fields "type");
              ("orgId", VString parentId)].
  induction optional_fields as [|k keys IH]; intros payload Hkey; [reflexivity|].
  cbn [fold_left]. rewrite IH by (intros Hin; apply Hkey; now right).
  destruct (get_prop fields k); try reflexivity;
    unfold get_prop; rewrite PgRunFacts.lookup_set_prop;
    (destruct (String.eqb_spec k key) as [->|_];
       [exfalso; apply Hkey; now left | reflexivity]).
Qed.

Lemma buildPartyPayload_name fields parentId :
  get_prop (buildPartyPayload fields parentId) "name" = get_prop fields "name".
Proof.
  rewrite buildPartyPayload_kept; [reflexivity|].
  cbn. intros H. repeat (destruct H as [H|H]; [discriminate H|]). exact H.
Qed.

Lemma buildPartyPayload_orgId fields parentId :
  get_prop (buildPartyPayload fields parentId) "orgId" = VString parentId.
Proof.
  rewrite buildPartyPayload_kept; [reflexivity|].
  cbn. intros H. repeat (destruct H as [H|H]; [discriminate H|]). exact H.
Qed.

Lemma processNode_eq client_post dryRun parentId fields children log :
  processNode client_post dryRun parentId (PartyInput fields children) log
  = if dryRun then processNodes client_post dryRun parentId children log
    else
      match client_post log (buildPartyPayload fields parentId) with
      | Throw e =>
          (Throw e, log ++ [(buildPartyPayload fields parentId,
                             client_post log (buildPartyPayload fields parentId))])
      | Ok createdParty =>
          processNodes client_post dryRun (Parties.id createdParty) children
            (log ++ [(buildPartyPayload fields parentId,
                      client_post log (buildPartyPayload fields parentId))])
      end.
Proof.
  assert (Heach : forall nodes current l,
            (fix each (currentParentId : string) (nodes : list PartyYamlInput)
                 (log : list exchange) {struct nodes} : result unit * list exchange :=
               match nodes with
               | [] => (Ok tt, log)
               | child :: rest =>
                   match processNode client_post dryRun currentParentId child log with
                   | (Ok _, log') => each currentParentId rest log'
                   | (Throw e, log') => (Throw e, log')
                   end
               end) current nodes l
            = processNodes client_post dryRun current nodes l).
  { induction nodes as [|node nodes IH]; intros current l; [reflexivity|].
    simpl.
    destruct (processNode client_post dryRun current node l) as [[u|e] l'] eqn:E.
    - apply IH.
    - reflexivity. }
  cbn [processNode]. destruct dryRun; [apply Heach|].
  destruct (client_post log (buildPartyPayload fields parentId)); [apply Heach|reflexivity].
Qed.

Lemma created_ids_app (a b : list exchange) :
  created_ids (a ++ b) = created_ids a ++ created_ids b.
Proof. unfold created_ids. apply flat_map_app. Qed.

Lemma parents_known_incl (log : list exchange) :
  forall known known',
    (forall parent, In parent known -> In parent known') ->
    parents_known known log -> parents_known known' log.
Proof.
  induction log as [|entry log IH]; intros known known' Hincl; cbn [parents_known];
    [trivial|].
  intros [(parent & Hin & Horg) Hrest]. split.
  - exists parent. split; [now apply Hincl | exact Horg].
  - revert Hrest. apply IH. intros p Hp.
    apply in_app_iff in Hp as [Hp|Hp]; apply in_app_iff; [now left | right; now apply Hincl].
Qed.

Lemma parents_known_app (a b : list exchange) :
  forall known,
    parents_known known a ->
    parents_known (created_ids a ++ known) b ->
    parents_known known (a ++ b).
Proof.
  induction a as [|entry a IH]; intros known Ha Hb; [exact Hb|].
  cbn [app parents_known] in *. destruct Ha as [Hentry Ha]. split; [exact Hentry|].
  apply IH; [exact Ha|]. revert Hb. apply parents_known_incl.
  intros p Hp. change (entry :: a) with ([entry] ++ a) in Hp.
  rewrite created_ids_app in Hp.
  rewrite !in_app_iff in *. tauto.
Qed.

Lemma parents_known_split (before : list exchange) :
  forall known entry after,
    parents_known known (before ++ entry :: after) ->
    exists parent,
      In parent (created_ids before ++ known)
      /\ get_prop (fst entry) "orgId" = VString parent.
Proof.
  induction before as [|b before IH]; intros known entry after H.
  - cbn [app parents_known] in H. destruct H as [(parent & Hin & Horg) _].
    exists parent. split; [exact Hin | exact Horg].
  - cbn [app parents_known] in H. destruct H as [_ H].
    destruct (IH _ _ _ H) as (parent & Hin & Horg).
    exists parent. split; [|exact Horg].
    change (b :: before) with ([b] ++ before). rewrite created_ids_app.
    rewrite !in_app_iff in *. tauto.
Qed.

Section log.
Variable client_post : list exchange -> object -> result Parties.PartyDTO.

(** What a run that sends its requests adds to the log, for a forest with
    the given names under a parent. *)
Local Abbreviation sends parentId names outcome added :=
  ((exists rest, map (fun entry : exchange => get_prop (fst entry) "name") added ++ rest = names)
   /\ (outcome = Ok tt ->
       map (fun entry : exchange => get_prop (fst entry) "name") added = names
       /\ length (created_ids added) = length added)
   /\ (forall known, In parentId known -> parents_known known added))
  (only parsing).

Lemma processNodes_sends (nodes : list PartyYamlInput) :
  Forall (fun node =>
            forall parentId log outcome log',
              processNode client_post false parentId node log = (outcome, log') ->
              exists added, log' = log ++ added
                            /\ sends parentId (node_names node) outcome added) nodes ->
  forall parentId log outcome log',
    processNodes client_post false parentId nodes log = (outcome, log') ->
    exists added, log' = log ++ added
                  /\ sends parentId (flat_map node_names nodes) outcome added.
Proof.
  induction 1 as [|node nodes Hnode _ IH]; intros parentId log outcome log' Hrun.
  - cbn [processNodes] in Hrun. injection Hrun as <- <-.
    exists []. split; [now rewrite List.app_nil_r|].
    split; [now exists []|]. split; [intros _; split; reflexivity|].
    intros known _. exact I.
  - cbn [processNodes] in Hrun.
    destruct (processNode client_post false parentId node log) as [[[]|e] log1] eqn:E.
    + destruct (Hnode _ _ _ _ E) as (added1 & -> & (_ & Hok1 & Hknown1)).
      destruct (Hok1 eq_refl) as [Hnames1 Hcreated1].
      destruct (IH _ _ _ _ Hrun) as (added2 & -> & ((rest & Hrest) & Hok2 & Hknown2)).
      exists (added1 ++ added2). split; [now rewrite List.app_assoc|].
      cbn [flat_map]. split; [|split].
      * exists rest. rewrite map_app, <- List.app_assoc, Hrest, Hnames1. reflexivity.
      * intros Hout. destruct (Hok2 Hout) as [Hnames2 Hcreated2].
        split; [now rewrite map_app, Hnames1, Hnames2|].
        rewrite created_ids_app, !List.length_app. lia.
      * intros known Hin. apply parents_known_app; [now apply Hknown1|].
        apply Hknown2. apply in_app_iff. now right.
    + injection Hrun as <- <-.
      destruct (Hnode _ _ _ _ E) as (added1 & -> & ((rest & Hrest) & _ & Hknown1)).
      exists added1. split; [reflexivity|].
      cbn [flat_map]. split; [|split].
      * exists (rest ++ flat_map node_names nodes).
        now rewrite List.app_assoc, Hrest.
      * discriminate.
      * exact Hknown1.
Qed.

Lemma processNode_sends (node : PartyYamlInput) :
  forall parentId log outcome log',
    processNode client_post false parentId node log = (outcome, log') ->
    exists added, log' = log ++ added
                  /\ sends parentId (node_names node) outcome added.
Proof.
  induction node as [fields children IH] using input_nested_ind.
  intros parentId log outcome log'. rewrite processNode_eq. cbn match.
  pose (payload := buildPartyPayload fields parentId).
  destruct (client_post log (buildPartyPayload fields parentId)) as [party|e] eqn:Epost.
  - intros Hrun.
    destruct (processNodes_sends children IH _ _ _ _ Hrun)
      as (added & -> & ((rest & Hrest) & Hok & Hknown)).
    exists ((payload, Ok party) :: added).
    split; [now rewrite <- List.app_assoc|].
    unfold payload. cbn [node_names map fst]. rewrite buildPartyPayload_name.
    split; [|split].
    + exists rest. cbn [app]. now rewrite Hrest.
    + intros Hout. destruct (Hok Hout) as [Hnames Hcreated].
      split; [now rewrite Hnames|].
      unfold created_ids in *. cbn [flat_map snd app length]. now rewrite Hcreated.
    + intros known Hin. cbn [parents_known fst]. split.
      * exists parentId. split; [exact Hin|]. apply buildPartyPayload_orgId.
      * apply Hknown. cbn. now left.
  - intros Hrun. injection Hrun as <- <-.
    exists [(payload, Throw e)]. split; [reflexivity|].
    unfold payload. cbn [node_names map fst]. rewrite buildPartyPayload_name.
    split; [|split].
    + exists (flat_map node_names children). reflexivity.
    + discriminate.
    + intros known Hin. cbn [parents_known fst]. split; [|exact I].
      exists parentId. split; [exact Hin|]. apply buildPartyPayload_orgId.
Qed.

Lemma processNodes_dry (nodes : list PartyYamlInput) :
  forall parentId log, processNodes client_post true parentId nodes log = (Ok tt, log).
Proof.
  assert (Hnode : forall node parentId log,
            processNode client_post true parentId node log = (Ok tt, log)).
  { induction node as [fields children IH] using input_nested_ind.
    intros parentId log. rewrite processNode_eq. cbn match.
    revert log. induction IH as [|child children Hchild _ IHc]; intros log;
      cbn [processNodes]; [reflexivity|].
    rewrite Hchild. apply IHc. }
  induction nodes as [|node nodes IH]; intros parentId log; cbn [processNodes];
    [reflexivity|].
  rewrite Hnode. apply IH.
Qed.

(** X20. loadParties, for the nodes of a party file under a parent: a dry
    run sends nothing. Otherwise it posts one payload per node, parents
    before children and in the order of the file, until a request fails;
    when all succeed there is one exchange per node and each one created a
    party. Every payload names as orgId the parent given or a party
    created by an earlier exchange of the run. *)
Theorem loadParties_exchanges (parentId : string) (nodes : list PartyYamlInput) :
  processNodes client_post true parentId nodes [] = (Ok tt, [])
  /\ forall outcome log,
       processNodes client_post false parentId nodes [] = (outcome, log) ->
       (exists rest,
          map (fun entry : exchange => get_prop (fst entry) "name") log ++ rest
          = flat_map node_names nodes)
       /\ (outcome = Ok tt ->
           map (fun entry : exchange => get_prop (fst entry) "name") log
           = flat_map node_names nodes
           /\ length (created_ids log) = length log)
       /\ (forall before entry after,
             log = before ++ entry :: after ->
             exists parent,
               In parent (parentId :: created_ids before)
               /\ get_prop (fst entry) "orgId" = VString parent).
Proof.
  split; [apply processNodes_dry|].
  intros outcome log Hrun.
  assert (Hall : Forall (fun node =>
            forall parentId log outcome log',
              processNode client_post false parentId node log = (outcome, log') ->
              exists added, log' = log ++ added
                            /\ sends parentId (node_names node) outcome added) nodes).
  { apply Forall_forall. intros node _. apply processNode_sends. }
  destruct (processNodes_sends nodes Hall _ _ _ _ Hrun)
    as (added & -> & (Hprefix & Hok & Hknown)).
  cbn [app]. split; [exact Hprefix|]. split; [exact Hok|].
  intros before entry after Hsplit.
  specialize (Hknown [parentId] (or_introl eq_refl)). rewrite Hsplit in Hknown.
  destruct (parents_known_split _ _ _ _ Hknown) as (parent & Hin & Horg).
  exists parent. split; [|exact Horg].
  apply in_app_iff in Hin as [Hin|Hin]; [now right|].
  destruct Hin as [<-|[]]. now left.
Qed.
End log.

Lemma loadParties_exchanges_witness :
  let client_post := fun (_ : list exchange) (payload : object) =>
    Ok {| Parties.id := match get_prop payload "name" with
                        | VString text => "id-" +:+ text
                        | _ => "id"
                        end;
          Parties.shortId := "ORG-000001"; Parties.name := "";
          Parties.orgId := Parties.Absent |} in
  let nodes :=
    [PartyInput [("name", VString "A"); ("type", VString "ORG")]
       [PartyInput [("name", VString "B"); ("type", VString "ORG")] []]] in
  exists log,
    processNodes client_post false "root" nodes [] = (Ok tt, log)
    /\ map (fun entry : exchange => get_prop (fst entry) "name") log
       = [VString "A"; VString "B"]
    /\ map (fun entry : exchange => get_prop (fst entry) "orgId") log
       = [VString "root"; VString "id-A"].
Proof.
  intros client_post nodes. eexists. split; [reflexivity|]. split; [|reflexivity].
  exact (proj1 (proj1 (proj2 (proj2 (loadParties_exchanges client_post "root" nodes)
                                _ _ eq_refl)) eq_refl)).
Defined.

End PartyLoadFacts.

(** ** Facts: OpenSearch, waiting, the operations index, file contents *)

Module OpenSearchIndexFacts.
Import Js JsFacts OpenSearch OpenSearchBulk OpenSearchIndex.

(** *** The operations index *)

(** X21. ensureOperationsIndex sends its requests to one address, the
    endpoint without a trailing slash followed by the encoded index name.
    A HEAD failure other than 404 is raised with nothing else sent; an
    index that is there is left alone without reset; with reset a failed
    DELETE is raised and nothing is created. Against a server that answers
    as OpenSearch does, the function succeeds and the index exists
    afterwards: it deletes exactly when the index was there and reset is
    asked, and creates exactly when the index was missing or reset is
    asked, so it never creates over an existing index. *)
Theorem ensureOperationsIndex_requests (encodeURIComponent : string -> string)
    (endpoint index : string) (reset : bool) :
  let url := drop_trailing_slash endpoint +:+ "/" +:+ encodeURIComponent index in
  let head := {| req_method := HEAD; req_url := url |} in
  let delete := {| req_method := DELETE; req_url := url |} in
  let put := {| req_method := PUT; req_url := url |} in
  (forall axios sent e,
      axios sent head = Some e -> response_status e <> Some 404 ->
      ensureOperationsIndex encodeURIComponent axios endpoint index reset sent
      = (Some e, sent ++ [head]))
  /\ (forall axios sent,
        axios sent head = None -> reset = false ->
        ensureOperationsIndex encodeURIComponent axios endpoint index reset sent
        = (None, sent ++ [head]))
  /\ (forall axios sent e,
        axios sent head = None -> reset = true ->
        axios (sent ++ [head]) delete = Some e ->
        ensureOperationsIndex encodeURIComponent axios endpoint index reset sent
        = (Some e, sent ++ [head; delete]))
  /\ (forall initial,
        let run := ensureOperationsIndex encodeURIComponent (index_server initial)
                     endpoint index reset [] in
        fst run = None
        /\ fold_left index_after (snd run) initial = true
        /\ snd run = [head] ++ (if initial && reset then [delete] else [])
                     ++ (if negb initial || reset then [put] else [])).
Proof.
  intros url head delete put. repeat apply conj.
  - intros axios sent e Hhead Hstatus. unfold ensureOperationsIndex.
    fold url. fold head. rewrite Hhead.
    destruct (response_status e) as [status|]; [|reflexivity].
    destruct (Z.eq_dec status 404) as [->|Hne]; [congruence|].
    destruct status as [|p|p]; try reflexivity.
    do 9 (destruct p as [p|p|]; try reflexivity). congruence.
  - intros axios sent Hhead ->. unfold ensureOperationsIndex.
    fold url. fold head. rewrite Hhead. reflexivity.
  - intros axios sent e Hhead -> Hdelete. unfold ensureOperationsIndex.
    fold url. fold head. fold delete. rewrite Hhead. cbn [andb].
    rewrite Hdelete. now rewrite <- List.app_assoc.
  - intros initial run. subst run. unfold ensureOperationsIndex.
    fold url. fold head. fold delete. fold put.
    destruct initial, reset; cbn; repeat split.
Qed.

Lemma ensureOperationsIndex_requests_witness :
  ensureOperationsIndex (fun text => text) (fun _ _ => None)
    "http://localhost:9200/" "operations" false []
  = (None, [{| req_method := HEAD; req_url := "http://localhost:9200/operations" |}]).
Proof.
  exact (proj1 (proj2 (ensureOperationsIndex_requests (fun text => text)
                         "http://localhost:9200/" "operations" false))
           (fun _ _ => None) [] eq_refl eq_refl).
Defined.

(** *** Waiting for the server *)

Lemma wait_loop_failures now get start timeoutMs k :
  (forall i, (i < k)%nat -> now (S i) - start < timeoutMs /\ get i = false) ->
  forall d i fuel,
    (i + d = k)%nat ->
    wait_loop now get (d + fuel) start timeoutMs i
    = wait_loop now get fuel start timeoutMs k.
Proof.
  intros Hfail d. induction d as [|d IH]; intros i fuel Hi.
  - replace i with k by lia. reflexivity.
  - cbn [Nat.add wait_loop]. destruct (Hfail i) as [Htime ->]; [lia|].
    apply Z.ltb_lt in Htime. rewrite Htime. apply IH. lia.
Qed.

(** X22. waitForOpenSearch requests the endpoint until a request succeeds
    or the clock, read before every request, is the timeout or more past
    the start. After k failed requests in time it returns when request k
    succeeds in time, and raises that OpenSearch did not respond when the
    next reading is out of time, without a further request; so with a
    timeout of zero seconds it raises without any request. The number of
    iterations is bounded by the clock alone. *)
Theorem waitForOpenSearch_outcome (Number_toString : Z -> string) (now : nat -> Z)
    (get : nat -> bool) (endpoint : string) (seconds : Z) (k : nat) :
  (forall i, (i < k)%nat -> now (S i) - now 0%nat < seconds * 1000 /\ get i = false) ->
  (now (S k) - now 0%nat < seconds * 1000 -> get k = true ->
   forall fuel, (k < fuel)%nat ->
     waitForOpenSearch Number_toString now get endpoint seconds fuel
     = (Responded, S k))
  /\ (seconds * 1000 <= now (S k) - now 0%nat ->
      forall fuel, (k < fuel)%nat ->
        waitForOpenSearch Number_toString now get endpoint seconds fuel
        = (TimedOut ("OpenSearch did not respond within " +:+ Number_toString seconds
                     +:+ "s at " +:+ endpoint), k))
  /\ (forall fuel, (fuel <= k)%nat ->
        waitForOpenSearch Number_toString now get endpoint seconds fuel
        = (Unfinished, fuel)).
Proof.
  intros Hfail. unfold waitForOpenSearch. repeat apply conj.
  - intros Htime Hget fuel Hfuel.
    replace fuel with (k + S (fuel - S k))%nat by lia.
    rewrite (wait_loop_failures now get _ _ k Hfail k 0%nat) by lia.
    cbn [wait_loop]. apply Z.ltb_lt in Htime. now rewrite Htime, Hget.
  - intros Htime fuel Hfuel.
    replace fuel with (k + S (fuel - S k))%nat by lia.
    rewrite (wait_loop_failures now get _ _ k Hfail k 0%nat) by lia.
    cbn [wait_loop]. apply Z.ltb_ge in Htime. now rewrite Htime.
  - intros fuel Hfuel.
    assert (Hfail' : forall i, (i < fuel)%nat ->
                       now (S i) - now 0%nat < seconds * 1000 /\ get i = false)
      by (intros i Hi; apply Hfail; lia).
    pose proof (wait_loop_failures now get _ _ fuel Hfail' fuel 0%nat 0%nat) as H.
    rewrite Nat.add_0_r in H. rewrite H by lia. reflexivity.
Qed.

Lemma waitForOpenSearch_outcome_witness :
  let now := fun i => 1000 * Z.of_nat i in
  waitForOpenSearch (fun _ => "0") now (fun _ => true) "http://localhost:9200" 0 5
  = (TimedOut "OpenSearch did not respond within 0s at http://localhost:9200", 0%nat).
Proof.
  intros now.
  apply (proj1 (proj2 (waitForOpenSearch_outcome (fun _ => "0") now (fun _ => true)
                         "http://localhost:9200" 0 0 ltac:(intros i Hi; lia))));
    [vm_compute; discriminate | lia].
Defined.

(** *** The content of a file to load *)

(** X23. loadFileContent, for a .ndjson or .jsonl file, returns the text
    of the file, with a line feed added if it does not end with one, and
    half the number of its non-blank lines as count. The payload that
    buildBulkPayload builds from JSON documents loads unchanged as NDJSON,
    with the same count. An extension other than .ndjson, .jsonl, .json,
    .yaml and .yml raises. *)
Theorem loadFileContent_ndjson (JSON_parse YAML_parse : string -> result value) :
  (forall items index payload n other,
      index <> "" ->
      List.Forall (fun item => json_data item = true /\ is_object item = true) items ->
      buildBulkPayload (VArray items) (Some index) = Ok (payload, n) ->
      exists count,
        loadFileContent JSON_parse YAML_parse ".ndjson" payload other = Ok (payload, count)
        /\ QArith_base.Qeq count (QArith_base.inject_Z (Z.of_nat n)))
  /\ (forall ext raw index,
        ext = ".ndjson" \/ ext = ".jsonl" ->
        exists payload lines,
          loadFileContent JSON_parse YAML_parse ext raw index
          = Ok (payload, QArith_base.Qmake (Z.of_nat lines) 2)
          /\ lines = length (List.filter nonblank (split newline payload))
          /\ ApiVirtual.endsWith payload nl = true
          /\ (ApiVirtual.endsWith raw nl = true -> payload = raw)
          /\ (ApiVirtual.endsWith raw nl = false -> payload = raw +:+ nl))
  /\ (forall ext raw index,
        ~ In ext [".ndjson"; ".jsonl"; ".json"; ".yaml"; ".yml"] ->
        loadFileContent JSON_parse YAML_parse ext raw index
        = Throw (Error "Unsupported file type. Use .ndjson, .jsonl, .json, .yaml, or .yml.")).
Proof.
  repeat apply conj.
  - intros items index payload n other Hne Hitems Hbuilt.
    unfold buildBulkPayload in Hbuilt.
    assert (Hindex : Some index ≫= (fun i => if String.eqb i "" then None else Some i)
                     = Some index)
      by (simpl; now destruct (String.eqb_spec index "")).
    rewrite Hindex in Hbuilt.
    destruct (OpenSearchBulkFacts.bulk_lines_all index items Hitems)
      as (action & texts & _ & Htexts & Hmap & Hlines).
    rewrite Hmap in Hbuilt. cbn [bind] in Hbuilt. injection Hbuilt as <- <-.
    eexists. split.
    + unfold loadFileContent. cbn [PgSeed.includes].
      assert (Hends : ApiVirtual.endsWith
                        (join nl (concat (map (fun text => [action; text]) texts)) +:+ nl)
                        nl = true)
        by (apply OpenSearchBulkFacts.endsWith_spec; eauto).
      change (PgSeed.includes [".ndjson"; ".jsonl"] ".ndjson") with true. cbv iota.
      rewrite Hends, (OpenSearchFacts.lines_of_payload _ Hlines). reflexivity.
    + apply List.Forall2_length in Htexts. rewrite Htexts.
      assert (Hlen : length (concat (map (fun text => [action; text]) texts))
                     = (2 * length texts)%nat).
      { clear. induction texts as [|t texts IH]; simpl; [reflexivity|].
        rewrite IH. lia. }
      rewrite Hlen. unfold QArith_base.Qeq, QArith_base.inject_Z. cbn. lia.
  - intros ext raw index Hext. unfold loadFileContent.
    assert (Hin : PgSeed.includes [".ndjson"; ".jsonl"] ext = true)
      by (destruct Hext as [->| ->]; reflexivity).
    rewrite Hin.
    destruct (ApiVirtual.endsWith raw nl) eqn:Hends.
    + exists raw. eexists. repeat split; [exact Hends | discriminate].
    + exists (raw +:+ nl). eexists. repeat split; [|discriminate].
      apply OpenSearchBulkFacts.endsWith_spec. eauto.
  - intros ext raw index Hext. unfold loadFileContent.
    assert (H1 : PgSeed.includes [".ndjson"; ".jsonl"] ext = false).
    { unfold PgSeed.includes. cbn.
      destruct (String.eqb_spec ext ".ndjson") as [->|_]; [exfalso; apply Hext; cbn; tauto|].
      destruct (String.eqb_spec ext ".jsonl") as [->|_]; [exfalso; apply Hext; cbn; tauto|].
      reflexivity. }
    assert (H2 : String.eqb ext ".json" = false).
    { destruct (String.eqb_spec ext ".json") as [->|_]; [exfalso; apply Hext; cbn; tauto|].
      reflexivity. }
    assert (H3 : PgSeed.includes [".yaml"; ".yml"] ext = false).
    { unfold PgSeed.includes. cbn.
      destruct (String.eqb_spec ext ".yaml") as [->|_]; [exfalso; apply Hext; cbn; tauto|].
      destruct (String.eqb_spec ext ".yml") as [->|_]; [exfalso; apply Hext; cbn; tauto|].
      reflexivity. }
    now rewrite H1, H2, H3.
Qed.

Lemma loadFileContent_ndjson_witness :
  exists payload count,
    buildBulkPayload (VArray [VObject []]) (Some "ops") = Ok (payload, 1%nat)
    /\ loadFileContent (fun _ => Ok VNull) (fun _ => Ok VNull) ".ndjson" payload None
       = Ok (payload, count)
    /\ QArith_base.Qeq count (QArith_base.inject_Z 1).
Proof.
  assert (Hne : "ops" <> "") by discriminate.
  assert (Hitems : List.Forall
                     (fun item => json_data item = true /\ is_object item = true)
                     [VObject []])
    by (repeat constructor).
  destruct (proj1 (loadFileContent_ndjson (fun _ => Ok VNull) (fun _ => Ok VNull))
              [VObject []] "ops" _ _ None Hne Hitems eq_refl)
    as (count & Hload & Hcount).
  eexists. exists count. split; [reflexivity|]. split; [exact Hload | exact Hcount].
Defined.

End OpenSearchIndexFacts.

(** ** Facts: the base address of the API *)

Module FileUtilsFacts.
Import Js JsFacts FileUtils.

Lemma trim_end_length (s : string) :
  (String.length (trim_end s) <= String.length s)%nat.
Proof.
  induction s as [|c s IH]; [reflexivity|]. cbn [trim_end].
  destruct (trim_end s) as [|k kept].
  - destruct (is_space c); cbn [String.length]; lia.
  - cbn [String.length] in *. lia.
Qed.

Lemma trim_end_app (a b : string) :
  trim_end b <> "" -> trim_end (a +:+ b) = a +:+ trim_end b.
Proof.
  intros Hb. induction a as [|c a IH]; [reflexivity|].
  change (String c a +:+ b) with (String c (a +:+ b)).
  change (String c a +:+ trim_end b) with (String c (a +:+ trim_end b)).
  cbn [trim_end]. rewrite IH.
  destruct (a +:+ trim_end b) as [|k kept] eqn:E; [|reflexivity].
  destruct a; simpl in E; [congruence | discriminate].
Qed.

(** A text that [trim] leaves as it is starts and ends outside white
    space. *)
Lemma trim_fixed (u : string) :
  trim u = u -> u <> "" ->
  stops is_space u = true /\ trim_end u = u.
Proof.
  intros Htrim Hne. unfold trim, skip_spaces in Htrim.
  destruct u as [|c u]; [congruence|].
  cbn [stops]. destruct (is_space c) eqn:Hc.
  - exfalso. cbn [span] in Htrim. rewrite Hc in Htrim.
    pose proof (span_length is_space u) as Hspan.
    destruct (span is_space u) as [run tail]. cbn [snd] in *.
    pose proof (trim_end_length tail) as Hlen.
    rewrite Htrim in Hlen. cbn [String.length] in Hlen. lia.
  - cbn [span] in Htrim. rewrite Hc in Htrim. cbn [snd] in Htrim. now split.
Qed.

Lemma slice_0_minus_1_app (u : string) (c : ascii) :
  slice_0_minus_1 (u +:+ String c "") = u.
Proof.
  induction u as [|x u IH]; [reflexivity|].
  change (String x u +:+ String c "") with (String x (u +:+ String c "")).
  cbn [slice_0_minus_1]. destruct (u +:+ String c "") as [|y rest] eqn:E.
  - destruct u; discriminate E.
  - now rewrite IH.
Qed.

(** X24. resolveApiBaseUrl returns an address that has no white space
    around it and no slash at its end as it is, and returns the same
    address when one slash is added at its end; resolving the result once
    more, as createApiClient does, changes nothing. Without an argument,
    or with an empty one, it resolves the default address. Whenever the
    trimmed address has no slash at its end, resolving twice is resolving
    once, unless the result is empty. *)
Theorem resolveApiBaseUrl_slash (API_URL : option string) :
  (forall u,
      u <> "" -> trim u = u -> ApiVirtual.endsWith u "/" = false ->
      resolveApiBaseUrl API_URL (Some u) = u
      /\ resolveApiBaseUrl API_URL (Some (u +:+ "/")) = u
      /\ resolveApiBaseUrl API_URL (Some (resolveApiBaseUrl API_URL (Some (u +:+ "/")))) = u)
  /\ resolveApiBaseUrl API_URL None
     = resolveApiBaseUrl API_URL (Some (DEFAULT_API_URL API_URL))
  /\ resolveApiBaseUrl API_URL (Some "") = resolveApiBaseUrl API_URL None
  /\ (forall explicit,
        ApiVirtual.endsWith (trim (or_else explicit (DEFAULT_API_URL API_URL))) "/" = false ->
        resolveApiBaseUrl API_URL (Some (resolveApiBaseUrl API_URL explicit))
        = resolveApiBaseUrl API_URL explicit
          \/ resolveApiBaseUrl API_URL explicit = "").
Proof.
  assert (Hclean : forall u, u <> "" -> trim u = u -> ApiVirtual.endsWith u "/" = false ->
                     resolveApiBaseUrl API_URL (Some u) = u).
  { intros u Hne Htrim Hslash. unfold resolveApiBaseUrl, or_else.
    destruct (String.eqb_spec u "") as [->|_]; [congruence|].
    now rewrite Htrim, Hslash. }
  repeat apply conj.
  - intros u Hne Htrim Hslash.
    assert (Hwith : resolveApiBaseUrl API_URL (Some (u +:+ "/")) = u).
    { unfold resolveApiBaseUrl, or_else.
      destruct (String.eqb_spec (u +:+ "/") "") as [E|_];
        [destruct u; discriminate E|].
      destruct (trim_fixed u Htrim Hne) as [Hstart Hend].
      assert (Htrim' : trim (u +:+ "/") = u +:+ "/").
      { unfold trim. rewrite ApiHelpersFacts.skip_spaces_stops.
        - rewrite trim_end_app by discriminate. reflexivity.
        - destruct u as [|c u]; [congruence|]. exact Hstart. }
      rewrite Htrim'.
      assert (Hends : ApiVirtual.endsWith (u +:+ "/") "/" = true)
        by (apply OpenSearchBulkFacts.endsWith_spec; eauto).
      rewrite Hends. apply slice_0_minus_1_app. }
    split; [now apply Hclean|]. split; [exact Hwith|].
    rewrite Hwith. now apply Hclean.
  - unfold resolveApiBaseUrl. cbn [or_else].
    destruct (String.eqb (DEFAULT_API_URL API_URL) ""); reflexivity.
  - reflexivity.
  - intros explicit Hslash.
    set (base := trim (or_else explicit (DEFAULT_API_URL API_URL))) in *.
    assert (Hres : resolveApiBaseUrl API_URL explicit = base)
      by (unfold resolveApiBaseUrl; fold base; now rewrite Hslash).
    rewrite Hres. destruct (String.eqb_spec base "") as [E|Hne]; [now right|].
    left. apply Hclean; [exact Hne | apply ApiHelpersFacts.trim_idempotent | exact Hslash].
Qed.

Lemma resolveApiBaseUrl_slash_witness :
  resolveApiBaseUrl None (Some "http://localhost:4000/") = "http://localhost:4000".
Proof.
  apply (proj1 (resolveApiBaseUrl_slash None) "http://localhost:4000");
    [discriminate | reflexivity | reflexivity].
Defined.

End FileUtilsFacts.
